(** * Verification of the C utility libraries [mathlib] and [task_ops]

    Shallow embedding of
      rust-learning-path/advanced/c-library-binding/c-lib/mathlib.c
      rust-learning-path/advanced/capstone-project/c-lib/task_ops.c
    Fixed-width integers are [Z] with the wrap-around written out, [char]
    buffers are [list byte], [int32_t]/[int64_t] arrays are [list Z], a
    nullable pointer is a [ptr].  Every access to a buffer goes through
    [load] and [store], which fail outside the buffer: a function that
    returns [None] has left the memory it was given, which is undefined
    behaviour in C.  Loops run on fuel and are [None] when it runs out; the
    entry points supply the fuel, and the theorems show it is enough. *)

From Stdlib Require Import ZArith NArith Lia List Sorted Permutation.
From Stdlib Require Import Strings.Byte Strings.String.
From stdpp Require Import base tactics option list sorting.

Local Open Scope Z_scope.

(** ** Fixed-width integers *)

Module CInt.

Definition INT_MIN : Z := - 2 ^ 31.
Definition INT_MAX : Z := 2 ^ 31 - 1.
Definition INT64_MIN : Z := - 2 ^ 63.
Definition INT64_MAX : Z := 2 ^ 63 - 1.
Definition UINT32_MAX : Z := 2 ^ 32 - 1.
Definition SIZE_MAX : Z := 2 ^ 64 - 1.

(** Conversion to an unsigned type of [w] bits. *)
Definition to_unsigned (w : Z) (x : Z) : Z := x mod 2 ^ w.

(** Conversion to a signed type of [w] bits (two's complement). *)
Definition to_signed (w : Z) (x : Z) : Z :=
  (x + 2 ^ (w - 1)) mod 2 ^ w - 2 ^ (w - 1).

Definition to_int : Z -> Z := to_signed 32.
Definition to_int32 : Z -> Z := to_signed 32.
Definition to_int64 : Z -> Z := to_signed 64.
Definition to_uint32 : Z -> Z := to_unsigned 32.
Definition to_uint64 : Z -> Z := to_unsigned 64.
Definition to_size_t : Z -> Z := to_unsigned 64.

Definition is_int (x : Z) : Prop := INT_MIN <= x <= INT_MAX.
Definition is_int32 (x : Z) : Prop := INT_MIN <= x <= INT_MAX.
Definition is_int64 (x : Z) : Prop := INT64_MIN <= x <= INT64_MAX.
Definition is_uint32 (x : Z) : Prop := 0 <= x <= UINT32_MAX.
Definition is_size_t (x : Z) : Prop := 0 <= x <= SIZE_MAX.

(** C's [%] on signed operands truncates towards zero. *)
Definition c_rem (a b : Z) : Z := Z.rem a b.

End CInt.

(** ** Pointers and buffers *)

Module Mem.

(** A pointer is null or designates an object whose contents are [A]. *)
Inductive ptr (A : Type) : Type :=
| NULL : ptr A
| Ptr (obj : A) : ptr A.
Arguments NULL {A}.
Arguments Ptr {A} obj.

(** [buf[i]] as an rvalue; [i] is a C integer. *)
Definition load {A} (buf : list A) (i : Z) : option A :=
  if i <? 0 then None else buf !! Z.to_nat i.

(** [buf[i] = v]. *)
Definition store {A} (buf : list A) (i : Z) (v : A) : option (list A) :=
  if (i <? 0) || (Z.of_nat (length buf) <=? i) then None
  else Some (<[Z.to_nat i := v]> buf).

(** [temp = buf[i]; buf[i] = buf[j]; buf[j] = temp;] *)
Definition swap {A} (buf : list A) (i j : Z) : option (list A) :=
  temp ← load buf i;
  bj ← load buf j;
  buf1 ← store buf i bj;
  store buf1 j temp.

Definition NUL : byte := x00.

Definition is_nul (c : byte) : bool := Byte.eqb c NUL.

(** [(unsigned char)c] widened to an integer. *)
Definition uchar (c : byte) : Z := Z.of_N (Byte.to_N c).

(** libc [strlen]: the number of bytes before the first terminator; the
    scan leaves the buffer when there is none. *)
Fixpoint strlen (s : list byte) : option Z :=
  match s with
  | [] => None
  | c :: s' => if is_nul c then Some 0 else n ← strlen s'; Some (n + 1)
  end.

(** A string literal: its characters followed by the terminator. *)
Definition literal (s : string) : list byte :=
  list_byte_of_string s ++ [NUL].

(** libc [strncpy(dst, src, n)]: copies [src] up to and including its
    terminator, at most [n] bytes, and fills what is left of the [n] bytes
    with terminators.  [i] is the position written next. *)
Fixpoint strncpy_from (n : nat) (dst src : list byte) (i : Z)
  : option (list byte) :=
  match n with
  | O => Some dst
  | S n' =>
      match src with
      | [] => None
      | c :: src' =>
          dst1 ← store dst i c;
          if is_nul c then strncpy_from n' dst1 [NUL] (i + 1)
          else strncpy_from n' dst1 src' (i + 1)
      end
  end.

Definition strncpy (dst src : list byte) (n : Z) : option (list byte) :=
  strncpy_from (Z.to_nat n) dst src 0.

(** libc [memcmp(s1, s2, n)]: the first [n] bytes are compared as
    [unsigned char]; ISO C fixes the sign of the result only, and the
    value here is the difference of the first two bytes that differ, as
    the portable implementations (glibc, musl, the BSDs) compute it. *)
Fixpoint memcmp_from (n : nat) (s1 s2 : list byte) (i : Z) : option Z :=
  match n with
  | O => Some 0
  | S n' =>
      c1 ← load s1 i;
      c2 ← load s2 i;
      if uchar c1 =? uchar c2 then memcmp_from n' s1 s2 (i + 1)
      else Some (uchar c1 - uchar c2)
  end.

Definition memcmp (s1 s2 : list byte) (n : Z) : option Z :=
  memcmp_from (Z.to_nat n) s1 s2 0.

(** Conversion of an [int] to [char]: the low eight bits. *)
Definition to_char (x : Z) : byte :=
  default NUL (Byte.of_N (Z.to_N (x mod 256))).

(** libc [toupper] in the "C" locale, on the value of an [unsigned char]:
    the letters a to z move to A to Z, every other value stays. *)
Definition toupper (c : Z) : Z :=
  if (97 <=? c) && (c <=? 122) then c - 32 else c.

(** libc [memcpy(dest, src, n)] on two distinct objects; [i] is the byte
    copied next. *)
Fixpoint memcpy_from (n : nat) (dest src : list byte) (i : Z)
  : option (list byte) :=
  match n with
  | O => Some dest
  | S n' =>
      c ← load src i;
      dest1 ← store dest i c;
      memcpy_from n' dest1 src (i + 1)
  end.

Definition memcpy (dest src : list byte) (n : Z) : option (list byte) :=
  memcpy_from (Z.to_nat n) dest src 0.

(** libc [strcmp]: the difference of the first two bytes that differ, 0
    when both strings end together. *)
Fixpoint strcmp (s1 s2 : list byte) : option Z :=
  match s1, s2 with
  | c1 :: s1', c2 :: s2' =>
      if uchar c1 =? uchar c2
      then if is_nul c1 then Some 0 else strcmp s1' s2'
      else Some (uchar c1 - uchar c2)
  | _, _ => None
  end.


(** *** One memory for several pointers

    When two pointers of a call may designate the same bytes, the objects
    they point into are kept in one memory, a list of objects, and a
    pointer is an address in it: the number of an object and an offset. *)

Definition addr : Type := nat * Z.

(** [p + i] *)
Definition shift (p : addr) (i : Z) : addr := (p.1, p.2 + i).

(** [*p] as an rvalue. *)
Definition load_at {A} (mem : list (list A)) (p : addr) : option A :=
  obj ← mem !! p.1;
  load obj p.2.

(** [*p = v]. *)
Definition store_at {A} (mem : list (list A)) (p : addr) (v : A)
  : option (list (list A)) :=
  obj ← mem !! p.1;
  obj' ← store obj p.2 v;
  Some (<[p.1 := obj']> mem).

(** libc [strlen] on a pointer into a memory. *)
Definition strlen_at (mem : list (list byte)) (p : addr) : option Z :=
  obj ← mem !! p.1;
  if p.2 <? 0 then None else strlen (drop (Z.to_nat p.2) obj).

(** The size of the object an address lies in. *)
Definition object_size {A} (mem : list (list A)) (p : addr) : nat :=
  length (default [] (mem !! p.1)).

End Mem.

Import CInt Mem.

(** ** Library A: mathlib.c *)

Module Mathlib.

(** [static char last_error[256]], the only state of the library. *)
Record state : Type := { last_error : list byte }.

Definition initial_state : state :=
  {| last_error := replicate 256 NUL |}.

(** [sizeof(last_error)] *)
Definition sizeof_last_error : Z := 256.

Definition set_error (message : list byte) (st : state) : option state :=
  buf ← strncpy (last_error st) message (sizeof_last_error - 1);
  buf' ← store buf (sizeof_last_error - 1) NUL;
  Some {| last_error := buf' |}.

Definition get_last_error (st : state) : list byte := last_error st.

(** [for (uint32_t i = 2; i <= n; i++) result *= i;]  The loop is run
    on [fuel]; running out of it is [None]. *)
Fixpoint factorial_loop (fuel : nat) (n i result : Z) : option Z :=
  match fuel with
  | O => None
  | S fuel' =>
      if i <=? n
      then factorial_loop fuel' n (to_uint32 (i + 1)) (to_uint64 (result * i))
      else Some result
  end.

Definition factorial (n : Z) (st : state) : option (Z * state) :=
  if n >? 20 then
    st' ← set_error (literal "Factorial input too large (max 20)") st;
    Some (0, st')
  else
    result ← factorial_loop (S (Z.to_nat n)) n 2 1;
    Some (result, st).

(** [for (size_t i = 0; i < length; i++) sum += array[i];] *)
Fixpoint sum_array_loop (fuel : nat) (array : list Z) (len i sum : Z)
  : option Z :=
  match fuel with
  | O => None
  | S fuel' =>
      if i <? len then
        x ← load array i;
        sum_array_loop fuel' array len (to_size_t (i + 1))
          (to_int32 (sum + x))
      else Some sum
  end.

Definition sum_array (array : ptr (list Z)) (len : Z) (st : state)
  : option (Z * state) :=
  match array with
  | NULL =>
      st' ← set_error (literal "Null pointer passed to sum_array") st;
      Some (0, st')
  | Ptr a =>
      sum ← sum_array_loop (S (length a)) a len 0 0;
      Some (sum, st)
  end.

Definition add_numbers (a b : Z) : Z := to_int32 (a + b).

Definition multiply_numbers (a b : Z) : Z := to_int32 (a * b).

Definition string_length (str : ptr (list byte)) (st : state)
  : option (Z * state) :=
  match str with
  | NULL =>
      st' ← set_error (literal "Null pointer passed to string_length") st;
      Some (0, st')
  | Ptr s =>
      n ← strlen s;
      Some (n, st)
  end.


(** *** Calls whose pointers may overlap

    [reverse_string], [uppercase_string] and [find_max] take two pointers
    and write through one of them; nothing in their signatures keeps the two
    apart, nor the [char] output apart from [last_error].  They run on a
    memory.  In a memory of [char] objects, object [error_slot] is
    [last_error]. *)

Definition error_slot : nat := 0.

(** The state of the library as a memory holds it. *)
Definition slot_state (mem : list (list byte)) : option state :=
  slot ← mem !! error_slot;
  Some {| last_error := slot |}.

(** [set_error] on a memory. *)
Definition set_error_at (message : list byte) (mem : list (list byte))
  : option (list (list byte)) :=
  st ← slot_state mem;
  st' ← set_error message st;
  Some (<[error_slot := last_error st']> mem).

(** [for (size_t i = 0; i < len; i++) output[i] = input[len - 1 - i];] *)
Fixpoint reverse_string_loop (fuel : nat) (mem : list (list byte))
    (input output : addr) (len i : Z) : option (list (list byte)) :=
  match fuel with
  | O => None
  | S fuel' =>
      if i <? len then
        c ← load_at mem (shift input (to_size_t (len - 1 - i)));
        mem1 ← store_at mem (shift output i) c;
        reverse_string_loop fuel' mem1 input output len (to_size_t (i + 1))
      else Some mem
  end.

(** The result is the status and the memory the call leaves. *)
Definition reverse_string (input output : ptr addr) (output_size : Z)
    (mem : list (list byte)) : option (Z * list (list byte)) :=
  match input, output with
  | Ptr inp, Ptr out =>
      len ← strlen_at mem inp;
      if to_size_t (len + 1) >? output_size then
        mem' ← set_error_at
                 (literal "Output buffer too small for reverse_string") mem;
        Some (-1, mem')
      else
        mem1 ← reverse_string_loop (S (object_size mem inp)) mem inp out len 0;
        mem2 ← store_at mem1 (shift out len) NUL;
        Some (0, mem2)
  | _, _ =>
      mem' ← set_error_at (literal "Null pointer passed to reverse_string") mem;
      Some (-1, mem')
  end.

(** [for (size_t i = 0; i < len; i++)
       output[i] = toupper((unsigned char)input[i]);] *)
Fixpoint uppercase_string_loop (fuel : nat) (mem : list (list byte))
    (input output : addr) (len i : Z) : option (list (list byte)) :=
  match fuel with
  | O => None
  | S fuel' =>
      if i <? len then
        c ← load_at mem (shift input i);
        mem1 ← store_at mem (shift output i) (to_char (toupper (uchar c)));
        uppercase_string_loop fuel' mem1 input output len (to_size_t (i + 1))
      else Some mem
  end.

(** The result is the status and the memory the call leaves. *)
Definition uppercase_string (input output : ptr addr) (output_size : Z)
    (mem : list (list byte)) : option (Z * list (list byte)) :=
  match input, output with
  | Ptr inp, Ptr out =>
      len ← strlen_at mem inp;
      if to_size_t (len + 1) >? output_size then
        mem' ← set_error_at
                 (literal "Output buffer too small for uppercase_string") mem;
        Some (-1, mem')
      else
        mem1 ← uppercase_string_loop (S (object_size mem inp)) mem inp out
                 len 0;
        mem2 ← store_at mem1 (shift out len) NUL;
        Some (0, mem2)
  | _, _ =>
      mem' ← set_error_at (literal "Null pointer passed to uppercase_string")
               mem;
      Some (-1, mem')
  end.

(** [for (size_t i = 1; i < length; i++)
       if (array[i] > *max_value) *max_value = array[i];]
    on a memory of [int32_t] objects. *)
Fixpoint find_max_loop (fuel : nat) (mem : list (list Z))
    (array max_value : addr) (len i : Z) : option (list (list Z)) :=
  match fuel with
  | O => None
  | S fuel' =>
      if i <? len then
        x ← load_at mem (shift array i);
        current ← load_at mem max_value;
        if x >? current then
          mem1 ← store_at mem max_value x;
          find_max_loop fuel' mem1 array max_value len (to_size_t (i + 1))
        else find_max_loop fuel' mem array max_value len (to_size_t (i + 1))
      else Some mem
  end.

(** The result is the status, the memory of [int32_t] objects the call
    leaves, and the state.  An [int32_t] pointer does not designate
    [last_error], a [char] array. *)
Definition find_max (array : ptr addr) (len : Z) (max_value : ptr addr)
    (mem : list (list Z)) (st : state) : option (Z * list (list Z) * state) :=
  match array, max_value with
  | Ptr arr, Ptr mv =>
      if len =? 0 then
        st' ← set_error (literal "Empty array passed to find_max") st;
        Some (-1, mem, st')
      else
        a0 ← load_at mem (shift arr 0);
        mem1 ← store_at mem mv a0;
        mem2 ← find_max_loop (S (object_size mem arr)) mem1 arr mv len 1;
        Some (0, mem2, st)
  | _, _ =>
      st' ← set_error (literal "Null pointer passed to find_max") st;
      Some (-1, mem, st')
  end.

(** *** Calls on objects that are apart

    The same three functions for a call whose pointers designate distinct
    objects, the output not [last_error]: each object is then a value of
    its own.  The [_apart_refines] lemmas show that these are the functions
    above on such a memory. *)

(** [for (size_t i = 0; i < len; i++) output[i] = input[len - 1 - i];] *)
Fixpoint reverse_string_apart_loop (fuel : nat) (input output : list byte)
    (len i : Z) : option (list byte) :=
  match fuel with
  | O => None
  | S fuel' =>
      if i <? len then
        c ← load input (to_size_t (len - 1 - i));
        output1 ← store output i c;
        reverse_string_apart_loop fuel' input output1 len (to_size_t (i + 1))
      else Some output
  end.

(** [reverse_string] on a string and an output buffer that are distinct
    objects: the result is the status, the object [output] points to, and
    the state. *)
Definition reverse_string_apart (input output : ptr (list byte)) (output_size : Z)
    (st : state) : option (Z * ptr (list byte) * state) :=
  match input, output with
  | Ptr input_s, Ptr output_b =>
      len ← strlen input_s;
      if to_size_t (len + 1) >? output_size then
        st' ← set_error
                (literal "Output buffer too small for reverse_string") st;
        Some (-1, output, st')
      else
        output1 ← reverse_string_apart_loop (S (length input_s))
                    input_s output_b len 0;
        output2 ← store output1 len NUL;
        Some (0, Ptr output2, st)
  | _, _ =>
      st' ← set_error (literal "Null pointer passed to reverse_string") st;
      Some (-1, output, st')
  end.

(** [for (size_t i = 0; i < len; i++)
       output[i] = toupper((unsigned char)input[i]);] *)
Fixpoint uppercase_string_apart_loop (fuel : nat) (input output : list byte)
    (len i : Z) : option (list byte) :=
  match fuel with
  | O => None
  | S fuel' =>
      if i <? len then
        c ← load input i;
        output1 ← store output i (to_char (toupper (uchar c)));
        uppercase_string_apart_loop fuel' input output1 len (to_size_t (i + 1))
      else Some output
  end.

(** [uppercase_string] on a string and an output buffer that are distinct
    objects: the result is the status, the object [output] points to, and
    the state. *)
Definition uppercase_string_apart (input output : ptr (list byte)) (output_size : Z)
    (st : state) : option (Z * ptr (list byte) * state) :=
  match input, output with
  | Ptr input_s, Ptr output_b =>
      len ← strlen input_s;
      if to_size_t (len + 1) >? output_size then
        st' ← set_error
                (literal "Output buffer too small for uppercase_string") st;
        Some (-1, output, st')
      else
        output1 ← uppercase_string_apart_loop (S (length input_s))
                    input_s output_b len 0;
        output2 ← store output1 len NUL;
        Some (0, Ptr output2, st)
  | _, _ =>
      st' ← set_error (literal "Null pointer passed to uppercase_string") st;
      Some (-1, output, st')
  end.

(** [for (size_t i = 1; i < length; i++)
       if (array[i] > *max_value) *max_value = array[i];]
    [max_value] is the current contents of the caller's location. *)
Fixpoint find_max_apart_loop (fuel : nat) (array : list Z) (len i max_value : Z)
  : option Z :=
  match fuel with
  | O => None
  | S fuel' =>
      if i <? len then
        x ← load array i;
        if x >? max_value
        then find_max_apart_loop fuel' array len (to_size_t (i + 1)) x
        else find_max_apart_loop fuel' array len (to_size_t (i + 1)) max_value
      else Some max_value
  end.

(** [find_max] on an array and a location that is an object of its own:
    the result is the status, the location [max_value] points to, and the
    state. *)
Definition find_max_apart (array : ptr (list Z)) (len : Z) (max_value : ptr Z)
    (st : state) : option (Z * ptr Z * state) :=
  match array, max_value with
  | Ptr a, Ptr _ =>
      if len =? 0 then
        st' ← set_error (literal "Empty array passed to find_max") st;
        Some (-1, max_value, st')
      else
        a0 ← load a 0;
        m ← find_max_apart_loop (S (length a)) a len 1 a0;
        Some (0, Ptr m, st)
  | _, _ =>
      st' ← set_error (literal "Null pointer passed to find_max") st;
      Some (-1, max_value, st')
  end.

End Mathlib.

(** ** Library B: task_ops.c *)

Module TaskOps.

Definition TASK_OPS_SUCCESS : Z := 0.
Definition TASK_OPS_ERROR_NULL_POINTER : Z := -1.
Definition TASK_OPS_ERROR_INVALID_SIZE : Z := -2.
Definition TASK_OPS_ERROR_OVERFLOW : Z := -3.

(** [for (int32_t i = 2; i <= n; i++) result *= i;] *)
Fixpoint fast_factorial_loop (fuel : nat) (n i result : Z) : option Z :=
  match fuel with
  | O => None
  | S fuel' =>
      if i <=? n
      then fast_factorial_loop fuel' n (to_int32 (i + 1))
             (to_int64 (result * i))
      else Some result
  end.

Definition fast_factorial (n : Z) : option Z :=
  if (n <? 0) || (n >? 20) then Some (-1)
  else fast_factorial_loop (S (Z.to_nat n)) n 2 1.

(** [while (b != 0) { temp = b; b = a % b; a = temp; }] *)
Fixpoint fast_gcd_loop (fuel : nat) (a b : Z) : option Z :=
  match fuel with
  | O => None
  | S fuel' =>
      if negb (b =? 0) then fast_gcd_loop fuel' b (to_int64 (c_rem a b))
      else Some a
  end.

Definition fast_gcd (a b : Z) : option Z :=
  let a := if a <? 0 then to_int64 (- a) else a in
  let b := if b <? 0 then to_int64 (- b) else b in
  fast_gcd_loop (S (Z.abs_nat b)) a b.

(** [for (size_t i = 0; i < len; i++) sum += arr[i];] *)
Fixpoint fast_array_sum_loop (fuel : nat) (arr : list Z) (len i sum : Z)
  : option Z :=
  match fuel with
  | O => None
  | S fuel' =>
      if i <? len then
        x ← load arr i;
        fast_array_sum_loop fuel' arr len (to_size_t (i + 1))
          (to_int64 (sum + x))
      else Some sum
  end.

Definition fast_array_sum (arr : ptr (list Z)) (len : Z) : option Z :=
  match arr with
  | NULL => Some TASK_OPS_ERROR_NULL_POINTER
  | Ptr a => fast_array_sum_loop (S (length a)) a len 0 0
  end.

(** The [for (int j = low; j < high; j++)] loop of [quicksort]; the
    result is the array and the final [i]. *)
Fixpoint quicksort_loop (fuel : nat) (arr : list Z) (pivot high i j : Z)
  : option (list Z * Z) :=
  match fuel with
  | O => None
  | S fuel' =>
      if j <? high then
        aj ← load arr j;
        if aj <=? pivot then
          let i := to_int (i + 1) in
          arr1 ← swap arr i j;
          quicksort_loop fuel' arr1 pivot high i (to_int (j + 1))
        else quicksort_loop fuel' arr pivot high i (to_int (j + 1))
      else Some (arr, i)
  end.

(** One call of [quicksort] up to its two recursive calls: the array
    after the exchange of [arr[i + 1]] and [arr[high]], and [pi]. *)
Definition quicksort_partition (arr : list Z) (low high : Z)
  : option (list Z * Z) :=
  pivot ← load arr high;
  '(arr1, i) ← quicksort_loop (S (length arr)) arr pivot high
                 (to_int (low - 1)) low;
  arr2 ← swap arr1 (to_int (i + 1)) high;
  Some (arr2, to_int (i + 1)).

Fixpoint quicksort (fuel : nat) (arr : list Z) (low high : Z)
  : option (list Z) :=
  if low <? high then
    match fuel with
    | O => None
    | S fuel' =>
        '(arr2, pi) ← quicksort_partition arr low high;
        arr3 ← quicksort fuel' arr2 low (to_int (pi - 1));
        quicksort fuel' arr3 (to_int (pi + 1)) high
    end
  else Some arr.

Definition fast_array_sort (arr : ptr (list Z)) (len : Z)
  : option (ptr (list Z)) :=
  match arr with
  | NULL => Some NULL
  | Ptr a =>
      if len <=? 1 then Some (Ptr a)
      else
        a' ← quicksort (length a) a 0 (to_int (to_int len - 1));
        Some (Ptr a')
  end.

(** [for (size_t i = 0; i < len / 2; i++) { exchange str[i] and
    str[len - 1 - i] }] *)
Fixpoint fast_string_reverse_loop (fuel : nat) (str : list byte) (len i : Z)
  : option (list byte) :=
  match fuel with
  | O => None
  | S fuel' =>
      if i <? len / 2 then
        str1 ← swap str i (to_size_t (len - 1 - i));
        fast_string_reverse_loop fuel' str1 len (to_size_t (i + 1))
      else Some str
  end.

Definition fast_string_reverse (str : ptr (list byte)) (len : Z)
  : option (ptr (list byte)) :=
  match str with
  | NULL => Some NULL
  | Ptr s =>
      if len <=? 1 then Some (Ptr s)
      else
        s' ← fast_string_reverse_loop (S (length s)) s len 0;
        Some (Ptr s')
  end.

Definition fnv_offset_basis : Z := 14695981039346656037.
Definition fnv_prime : Z := 1099511628211.

(** [for (size_t i = 0; i < len && str[i] != 0; i++)
       { hash ^= (uint64_t)(unsigned char)str[i]; hash *= prime; }] *)
Fixpoint fast_string_hash_loop (fuel : nat) (str : list byte)
    (len i hash : Z) : option Z :=
  match fuel with
  | O => None
  | S fuel' =>
      if i <? len then
        c ← load str i;
        if negb (is_nul c) then
          let hash := Z.lxor hash (to_uint64 (uchar c)) in
          let hash := to_uint64 (hash * fnv_prime) in
          fast_string_hash_loop fuel' str len (to_size_t (i + 1)) hash
        else Some hash
      else Some hash
  end.

Definition fast_string_hash (str : ptr (list byte)) (len : Z) : option Z :=
  match str with
  | NULL => Some 0
  | Ptr s => fast_string_hash_loop (S (length s)) s len 0 fnv_offset_basis
  end.

Definition fast_memory_compare (a b : ptr (list byte)) (len : Z)
  : option Z :=
  match a, b with
  | Ptr a, Ptr b => memcmp a b len
  | _, _ => Some TASK_OPS_ERROR_NULL_POINTER
  end.

(** [for (int32_t i = 2; i <= n; i++) { temp = a + b; a = b; b = temp; }] *)
Fixpoint fast_fibonacci_loop (fuel : nat) (n i a b : Z) : option Z :=
  match fuel with
  | O => None
  | S fuel' =>
      if i <=? n then
        let temp := to_int64 (a + b) in
        fast_fibonacci_loop fuel' n (to_int32 (i + 1)) b temp
      else Some b
  end.

Definition fast_fibonacci (n : Z) : option Z :=
  if n <? 0 then Some (-1)
  else if n <=? 1 then Some n
  else fast_fibonacci_loop (S (Z.to_nat n)) n 2 0 1.

(** [for (size_t i = 1; i < len; i++) if (arr[i] > max) max = arr[i];] *)
Fixpoint fast_array_max_loop (fuel : nat) (arr : list Z) (len i max : Z)
  : option Z :=
  match fuel with
  | O => None
  | S fuel' =>
      if i <? len then
        x ← load arr i;
        if x >? max
        then fast_array_max_loop fuel' arr len (to_size_t (i + 1)) x
        else fast_array_max_loop fuel' arr len (to_size_t (i + 1)) max
      else Some max
  end.

Definition fast_array_max (arr : ptr (list Z)) (len : Z) : option Z :=
  match arr with
  | NULL => Some TASK_OPS_ERROR_NULL_POINTER
  | Ptr a =>
      if len =? 0 then Some TASK_OPS_ERROR_NULL_POINTER
      else
        a0 ← load a 0;
        fast_array_max_loop (S (length a)) a len 1 a0
  end.

(** [for (size_t i = 0; i < len && str[i] != 0; i++)
       str[i] = (char)toupper((unsigned char)str[i]);] *)
Fixpoint fast_string_uppercase_loop (fuel : nat) (str : list byte) (len i : Z)
  : option (list byte) :=
  match fuel with
  | O => None
  | S fuel' =>
      if i <? len then
        c ← load str i;
        if negb (is_nul c) then
          str1 ← store str i (to_char (toupper (uchar c)));
          fast_string_uppercase_loop fuel' str1 len (to_size_t (i + 1))
        else Some str
      else Some str
  end.

Definition fast_string_uppercase (str : ptr (list byte)) (len : Z)
  : option (ptr (list byte)) :=
  match str with
  | NULL => Some NULL
  | Ptr s =>
      s' ← fast_string_uppercase_loop (S (length s)) s len 0;
      Some (Ptr s')
  end.

(** The result is the object [dest] points to; [dest] and [src] designate
    distinct objects. *)
Definition fast_memory_copy (dest src : ptr (list byte)) (len : Z)
  : option (ptr (list byte)) :=
  match dest, src with
  | Ptr d, Ptr s =>
      d' ← memcpy d s len;
      Some (Ptr d')
  | _, _ => Some dest
  end.


End TaskOps.

(** ** The tests of Library A: test_mathlib.c *)

Module TestMathlib.

Import Mathlib.

(** A test runs in the state of the library and either reaches its end
    ([true]) or stops at the first [assert] that fails ([false]); its
    calls of [printf] are left out. *)
Definition outcome : Type := option (bool * state).

(** [assert(e);] followed by [rest]. *)
Definition assert (e : bool) (st : state) (rest : outcome) : outcome :=
  if e then rest else Some (false, st).

(** The object a non-null pointer designates. *)
Definition deref {A} (p : ptr A) : option A :=
  match p with
  | NULL => None
  | Ptr obj => Some obj
  end.

Definition test_math_operations (st : state) : outcome :=
  assert (add_numbers 5 3 =? 8) st (
  assert (multiply_numbers 4 7 =? 28) st (
  '(r, st) ← factorial 5 st;
  assert (r =? 120) st (
  '(r, st) ← factorial 0 st;
  assert (r =? 1) st (
  '(r, st) ← factorial 25 st;
  assert (r =? 0) st (
  Some (true, st)))))).

(** [buffer] is what the uninitialised [char buffer[100]] holds. *)
Definition test_string_operations (buffer : list byte) (st : state)
  : outcome :=
  '(r, out, st) ← reverse_string_apart (Ptr (literal "hello")) (Ptr buffer)
                    (Z.of_nat (length buffer)) st;
  assert (r =? 0) st (
  buffer ← deref out;
  c ← strcmp buffer (literal "olleh");
  assert (c =? 0) st (
  '(r, out, st) ← uppercase_string_apart (Ptr (literal "hello")) (Ptr buffer)
                    (Z.of_nat (length buffer)) st;
  assert (r =? 0) st (
  buffer ← deref out;
  c ← strcmp buffer (literal "HELLO");
  assert (c =? 0) st (
  '(n, st) ← string_length (Ptr (literal "hello")) st;
  assert (n =? 5) st (
  '(n, st) ← string_length (Ptr (literal EmptyString)) st;
  assert (n =? 0) st (
  Some (true, st))))))).

(** [max_val] is what the uninitialised [int32_t max_val] holds. *)
Definition test_array_operations (max_val : Z) (st : state) : outcome :=
  let arr := [1; 2; 3; 4; 5] in
  let len := Z.of_nat (length arr) in
  '(sum, st) ← sum_array (Ptr arr) len st;
  assert (sum =? 15) st (
  '(r, out, st) ← find_max_apart (Ptr arr) len (Ptr max_val) st;
  assert (r =? 0) st (
  max_val ← deref out;
  assert (max_val =? 5) st (
  Some (true, st)))).

(** [buffer] is what the uninitialised [char buffer[10]] holds. *)
Definition test_error_handling (buffer : list byte) (st : state) : outcome :=
  '(_, st) ← factorial 25 st;
  n ← strlen (get_last_error st);
  assert (n >? 0) st (
  '(r, _, st) ← reverse_string_apart NULL (Ptr buffer)
                  (Z.of_nat (length buffer)) st;
  assert (r =? -1) st (
  n ← strlen (get_last_error st);
  assert (n >? 0) st (
  Some (true, st)))).

End TestMathlib.

Import Mathlib TaskOps TestMathlib.


(** ** Reference notions the statements are written with *)

(** n! *)
Fixpoint fact_Z (n : nat) : Z :=
  match n with
  | O => 1
  | S k => Z.of_nat (S k) * fact_Z k
  end.

(** The library's state is well formed when the error slot has its 256
    bytes. *)
Definition wf_state (st : state) : Prop :=
  length (last_error st) = 256%nat.

(** The message an accessor call would read is not the empty string. *)
Definition error_recorded (st : state) : Prop :=
  exists n, strlen (get_last_error st) = Some n /\ 0 < n.


(** What [strncpy] leaves in the [n] bytes it writes: the characters of the
    source, cut at [n], and terminators after them. *)
Definition padded (n : nat) (s : list byte) : list byte :=
  take n s ++ replicate (n - length s) NUL.

(** The linear accumulation of a span in a type whose conversion is
    [conv]: [sum = 0], then [sum = conv (sum + x)] for each element. *)
Definition accumulate (conv : Z -> Z) (span : list Z) : Z :=
  fold_left (fun sum x => conv (sum + x)) span 0.

(** The first [len] elements of the object a pointer designates. *)
Definition span {A} (buf : list A) (len : Z) : list A :=
  take (Z.to_nat len) buf.

(** FNV-1a, 64 bits: from the offset basis, for each byte XOR the byte
    into the hash, then multiply by the prime modulo 2^64. *)
Definition fnv1a_step (hash : Z) (c : byte) : Z :=
  (Z.lxor hash (uchar c) * 1099511628211) mod 2 ^ 64.

Definition fnv1a (bytes : list byte) : Z :=
  fold_left fnv1a_step bytes 14695981039346656037.

(** The bytes before the first terminator, all of them when there is
    none. *)
Fixpoint until_nul (s : list byte) : list byte :=
  match s with
  | [] => []
  | c :: s' => if is_nul c then [] else c :: until_nul s'
  end.

(** The three-way lexicographic order of two byte sequences of the same
    length, bytes compared as [unsigned char]. *)
Fixpoint lex_compare (s1 s2 : list byte) : comparison :=
  match s1, s2 with
  | c1 :: s1', c2 :: s2' =>
      match uchar c1 ?= uchar c2 with
      | Eq => lex_compare s1' s2'
      | o => o
      end
  | _, _ => Eq
  end.

(** The sign of an [int] used as an ordering signal. *)
Definition ordering_of (r : Z) : comparison := r ?= 0.

(** [m] is the maximum element of a sequence. *)
Definition is_maximum (m : Z) (l : list Z) : Prop :=
  m ∈ l /\ Forall (fun x => x <= m) l.

(** What an exchange of [quicksort] leaves of the run of elements above the
    pivot: its first element has moved behind the others. *)
Definition first_to_back (gts : list Z) : list Z :=
  match gts with
  | [] => []
  | g :: gs => gs ++ [g]
  end.

(** An array of 2^31 + 1 elements that is not sorted: a 1 and then 2^31
    zeros. *)
Definition large_unsorted : list Z := 1 :: replicate (Z.to_nat (2 ^ 31)) 0.

(** The Fibonacci numbers: F(0) = 0, F(1) = 1, F(n+2) = F(n) + F(n+1);
    [fib_pair n] is (F(n), F(n+1)). *)
Fixpoint fib_pair (n : nat) : Z * Z :=
  match n with
  | O => (0, 1)
  | S k => let '(a, b) := fib_pair k in (b, a + b)
  end.

Definition fib_Z (n : nat) : Z := fst (fib_pair n).

(** A character in upper case, as [toupper] on its [unsigned char] value
    stores it back in a [char]. *)
Definition upper (c : byte) : byte := to_char (toupper (uchar c)).

(** The elements of an array at the indices [low] to [high]. *)
Definition segment {A} (arr : list A) (low high : Z) : list A :=
  take (Z.to_nat (high + 1 - low)) (drop (Z.to_nat low) arr).

(** The cells from address [p] on hold the elements of [l]. *)
Definition cells_at {A} (mem : list (list A)) (p : addr) (l : list A) : Prop :=
  forall (j : nat) x,
    l !! j = Some x -> load_at mem (shift p (Z.of_nat j)) = Some x.

(** A terminated string with the characters [chars] starts at [p]. *)
Definition string_at (mem : list (list byte)) (p : addr) (chars : list byte)
  : Prop :=
  Forall (fun c => is_nul c = false) chars /\ cells_at mem p (chars ++ [NUL]).

(** Address [q] is one of the [n] cells from [p] on. *)
Definition within (q p : addr) (n : Z) : Prop :=
  q.1 = p.1 /\ p.2 <= q.2 < p.2 + n.

(** The [n] cells from [p] on and the [n] cells from [q] on do not
    overlap: they lie in different objects or one run ends before the other
    begins. *)
Definition apart (p q : addr) (n : Z) : Prop :=
  p.1 <> q.1 \/ p.2 + n <= q.2 \/ q.2 + n <= p.2.

(** [mem'] differs from [mem] at most in the [n] cells from [p] on. *)
Definition changed_only {A} (mem mem' : list (list A)) (p : addr) (n : Z)
  : Prop :=
  forall q, ~ within q p n -> load_at mem' q = load_at mem q.

(** No object has changed its size. *)
Definition same_sizes {A} (mem mem' : list (list A)) : Prop :=
  length <$> mem' = length <$> mem.

(** A memory of [char] objects is well formed when it holds the error slot
    with its 256 bytes. *)
Definition wf_memory (mem : list (list byte)) : Prop :=
  exists st, slot_state mem = Some st /\ wf_state st.

(** The message in the error slot of a memory is not the empty string. *)
Definition error_recorded_at (mem : list (list byte)) : Prop :=
  exists st, slot_state mem = Some st /\ error_recorded st.

(** A call [f(input, output, output_size)] of [reverse_string] or
    [uppercase_string] is well formed when no object is larger than the
    address space, a non-null [input] is a terminated string, and a
    non-null [output] has [output_size] bytes in its object. *)
Definition wf_string_call (mem : list (list byte)) (input output : ptr addr)
    (output_size : Z) : Prop :=
  0 <= output_size
  /\ Forall (fun obj => Z.of_nat (length obj) <= SIZE_MAX) mem
  /\ match input with
     | NULL => True
     | Ptr inp => is_Some (strlen_at mem inp)
     end
  /\ match output with
     | NULL => True
     | Ptr out =>
         0 <= out.2 /\ out.2 + output_size <= Z.of_nat (object_size mem out)
     end.

(** The condition under which [reverse_string] and [uppercase_string] are
    documented to fail. *)
Definition string_call_fails (mem : list (list byte)) (input output : ptr addr)
    (output_size : Z) : Prop :=
  input = NULL \/ output = NULL
  \/ exists inp len, input = Ptr inp /\ strlen_at mem inp = Some len
                     /\ output_size < len + 1.

(** A call [find_max(array, length, max_value)] is well formed when no
    object is larger than the address space, a non-null [array] has the
    [len] elements [l], and a non-null [max_value] designates an
    [int32_t]. *)
Definition wf_max_call (mem : list (list Z)) (array : ptr addr) (len : Z)
    (max_value : ptr addr) (l : list Z) : Prop :=
  Forall (fun obj => Z.of_nat (length obj) <= SIZE_MAX) mem
  /\ len = Z.of_nat (length l)
  /\ match array with
     | NULL => True
     | Ptr arr => cells_at mem arr l
     end
  /\ match max_value with
     | NULL => True
     | Ptr mv => is_Some (load_at mem mv)
     end.

(** Pointers to whole objects of a memory: the pointer to the first
    element of object [b], what it designates, and the memory with what is
    designated replaced. *)
Definition start_of (p : ptr nat) : ptr addr :=
  match p with
  | NULL => NULL
  | Ptr b => Ptr (b, 0)
  end.

Definition object_at {A} (mem : list (list A)) (p : ptr nat)
    (o : ptr (list A)) : Prop :=
  match p, o with
  | NULL, NULL => True
  | Ptr b, Ptr obj => mem !! b = Some obj
  | _, _ => False
  end.

Definition write_back {A} (mem : list (list A)) (p : ptr nat)
    (o : ptr (list A)) : list (list A) :=
  match p, o with
  | Ptr b, Ptr obj => <[b := obj]> mem
  | _, _ => mem
  end.

(** Two pointers to whole objects that do not designate the same one. *)
Definition distinct_objects (p q : ptr nat) : Prop :=
  match p, q with
  | Ptr b, Ptr b' => b <> b'
  | _, _ => True
  end.

(** An [int32_t] location as an object of one element. *)
Definition cell_of (p : ptr Z) : ptr (list Z) :=
  match p with
  | NULL => NULL
  | Ptr v => Ptr [v]
  end.


(** * Proofs *)

(** ** Fixed-width integers *)

Section CIntFacts.

Lemma to_int_id x : is_int x -> to_int x = x.
Proof.
  unfold is_int, INT_MIN, INT_MAX, to_int, to_signed. intros H.
  rewrite Z.mod_small; lia.
Qed.

Lemma to_int32_id x : is_int32 x -> to_int32 x = x.
Proof. apply to_int_id. Qed.

Lemma to_int64_id x : is_int64 x -> to_int64 x = x.
Proof.
  unfold is_int64, INT64_MIN, INT64_MAX, to_int64, to_signed. intros H.
  rewrite Z.mod_small; lia.
Qed.

Lemma to_uint32_id x : is_uint32 x -> to_uint32 x = x.
Proof.
  unfold is_uint32, UINT32_MAX, to_uint32, to_unsigned. intros H.
  rewrite Z.mod_small; lia.
Qed.

Lemma to_uint64_id x : is_size_t x -> to_uint64 x = x.
Proof.
  unfold is_size_t, SIZE_MAX, to_uint64, to_unsigned. intros H.
  rewrite Z.mod_small; lia.
Qed.

Lemma to_size_t_id x : is_size_t x -> to_size_t x = x.
Proof. apply to_uint64_id. Qed.

End CIntFacts.

(** ** Buffers *)

Section MemFacts.
Context {A : Type}.
Implicit Types (buf pre post : list A) (x y v : A).

Lemma load_nat buf (n : nat) : load buf (Z.of_nat n) = buf !! n.
Proof.
  unfold load. destruct (Z.ltb_spec (Z.of_nat n) 0); [lia|].
  by rewrite Nat2Z.id.
Qed.

Lemma load_app_middle pre x post i :
  i = Z.of_nat (length pre) -> load (pre ++ x :: post) i = Some x.
Proof. intros ->. rewrite load_nat. by apply list_lookup_middle. Qed.

Lemma store_app_middle pre x post i v :
  i = Z.of_nat (length pre) ->
  store (pre ++ x :: post) i v = Some (pre ++ v :: post).
Proof.
  intros ->. unfold store. rewrite length_app. cbn [length].
  destruct (Z.ltb_spec (Z.of_nat (length pre)) 0); [lia|].
  destruct (Z.leb_spec (Z.of_nat (length pre + S (length post)))
              (Z.of_nat (length pre))); [lia|].
  cbn. rewrite Nat2Z.id. f_equal.
  rewrite insert_app_r_alt by lia. by rewrite Nat.sub_diag.
Qed.

(** Exchanging an element with itself changes nothing. *)
Lemma swap_same pre x post i :
  i = Z.of_nat (length pre) ->
  swap (pre ++ x :: post) i i = Some (pre ++ x :: post).
Proof.
  intros Hi. unfold swap.
  rewrite (load_app_middle _ _ _ _ Hi). cbn.
  rewrite (store_app_middle _ _ _ _ _ Hi). cbn.
  by rewrite (store_app_middle _ _ _ _ _ Hi).
Qed.

(** Exchanging two distinct elements, the first before the second. *)
Lemma swap_apart pre x mid y post i j :
  i = Z.of_nat (length pre) ->
  j = Z.of_nat (length pre + 1 + length mid) ->
  swap (pre ++ x :: mid ++ y :: post) i j
  = Some (pre ++ y :: mid ++ x :: post).
Proof.
  intros Hi Hj. unfold swap.
  rewrite (load_app_middle _ _ _ _ Hi). cbn.
  assert (Hj' : j = Z.of_nat (length (pre ++ x :: mid))).
  { rewrite length_app. cbn [length]. lia. }
  assert (Hj'' : j = Z.of_nat (length (pre ++ y :: mid))).
  { rewrite length_app. cbn [length]. lia. }
  replace (pre ++ x :: mid ++ y :: post)
    with ((pre ++ x :: mid) ++ y :: post) at 1
    by (by rewrite <- app_assoc).
  rewrite (load_app_middle _ _ _ _ Hj'). cbn.
  rewrite (store_app_middle _ _ _ _ _ Hi). cbn.
  replace (pre ++ y :: mid ++ y :: post)
    with ((pre ++ y :: mid) ++ y :: post)
    by (by rewrite <- app_assoc).
  rewrite (store_app_middle _ _ _ _ _ Hj'').
  by rewrite <- app_assoc.
Qed.

End MemFacts.

(** ** The error slot of Library A *)

Section ErrorSlot.

Lemma padded_length n s : length (padded n s) = n.
Proof.
  unfold padded. rewrite length_app, length_take, length_replicate. lia.
Qed.

Lemma strncpy_from_spec n :
  forall pre mid post s rest i,
    length mid = n ->
    i = Z.of_nat (length pre) ->
    Forall (fun c => is_nul c = false) s ->
    strncpy_from n (pre ++ mid ++ post) (s ++ NUL :: rest) i
    = Some (pre ++ padded n s ++ post).
Proof.
  induction n as [|n IH]; intros pre mid post s rest i Hmid Hi Hs.
  - destruct mid; [|done]. by destruct s.
  - destruct mid as [|m mid]; [done|]. injection Hmid as Hmid.
    assert (Hi' : i + 1 = Z.of_nat (length (pre ++ [NUL]))).
    { rewrite length_app. cbn. lia. }
    destruct s as [|c s]; cbn [strncpy_from app].
    + rewrite (store_app_middle _ _ _ _ _ Hi). cbn.
      replace (pre ++ NUL :: mid ++ post)
        with ((pre ++ [NUL]) ++ mid ++ post) by (by rewrite <- app_assoc).
      rewrite (IH _ _ _ [] [] _ Hmid Hi' (Forall_nil_2 _)).
      unfold padded. cbn. rewrite <- app_assoc. cbn.
      by rewrite take_nil, Nat.sub_0_r.
    + apply Forall_cons in Hs as [Hc Hs].
      rewrite (store_app_middle _ _ _ _ _ Hi). cbn. rewrite Hc.
      replace (pre ++ c :: mid ++ post)
        with ((pre ++ [c]) ++ mid ++ post) by (by rewrite <- app_assoc).
      rewrite (IH _ _ _ s rest _ Hmid); [|by rewrite length_app; cbn; lia|done].
      unfold padded. cbn. by rewrite <- app_assoc.
Qed.

(** A failing call overwrites the whole slot: the message, cut at 255
    characters, then terminators. *)
Lemma set_error_spec s st :
  wf_state st ->
  Forall (fun c => is_nul c = false) s ->
  set_error (s ++ [NUL]) st
  = Some {| last_error := padded 255 s ++ [NUL] |}.
Proof.
  unfold wf_state, set_error, strncpy. intros Hlen Hs.
  destruct (last_error st) as [|e0 slot] eqn:E; [done|].
  assert (Hsplit : e0 :: slot = [] ++ take 255 (e0 :: slot) ++ drop 255 (e0 :: slot))
    by (by rewrite take_drop).
  rewrite Hsplit at 1.
  change (Z.to_nat (sizeof_last_error - 1)) with 255%nat.
  change (sizeof_last_error - 1) with 255.
  rewrite (strncpy_from_spec _ _ _ _ s []); [|rewrite length_take; lia|done|done].
  cbn [mbind option_bind app].
  destruct (drop 255 (e0 :: slot)) as [|e255 tl] eqn:Ed.
  { apply (f_equal length) in Ed. rewrite length_drop in Ed. cbn in *. lia. }
  assert (tl = []) as ->.
  { apply (f_equal length) in Ed. rewrite length_drop in Ed.
    destruct tl; [done|]. cbn in *. lia. }
  rewrite (store_app_middle _ _ _ _ NUL); [done|].
  rewrite padded_length. reflexivity.
Qed.

Lemma strlen_app_nul s rest :
  Forall (fun c => is_nul c = false) s ->
  strlen (s ++ NUL :: rest) = Some (Z.of_nat (length s)).
Proof.
  induction 1 as [|c s Hc Hs IH]; [done|].
  cbn [strlen app length]. rewrite Hc, IH. cbn. f_equal. lia.
Qed.

Lemma literal_no_nul (msg : string) :
  forallb (fun c => negb (is_nul c)) (list_byte_of_string msg) = true ->
  Forall (fun c => is_nul c = false) (list_byte_of_string msg).
Proof.
  rewrite forallb_forall, Forall_forall. intros H c Hc.
  apply list_elem_of_In in Hc. specialize (H c Hc).
  by destruct (is_nul c).
Qed.

(** Reporting a message of 1 to 255 characters leaves a non-empty message
    in the slot and the slot well formed. *)
Lemma set_error_literal (msg : string) st :
  wf_state st ->
  forallb (fun c => negb (is_nul c)) (list_byte_of_string msg) = true ->
  (0 < length (list_byte_of_string msg) <= 255)%nat ->
  exists st', set_error (literal msg) st = Some st'
              /\ wf_state st' /\ error_recorded st'.
Proof.
  intros Hst Hmsg%literal_no_nul Hlen. unfold literal.
  rewrite (set_error_spec _ _ Hst Hmsg). eexists. split; [done|].
  split.
  - unfold wf_state. cbn. rewrite length_app, padded_length. done.
  - unfold error_recorded, get_last_error. cbn. unfold padded.
    rewrite take_ge by lia. rewrite <- app_assoc.
    destruct (replicate _ NUL ++ [NUL]) as [|z zs] eqn:Ez.
    { apply (f_equal length) in Ez. rewrite length_app in Ez. cbn in Ez. lia. }
    assert (z = NUL) as ->.
    { destruct (255 - length (list_byte_of_string msg))%nat; cbn in Ez; congruence. }
    rewrite (strlen_app_nul _ _ Hmsg). eexists. split; [done|lia].
Qed.

End ErrorSlot.

(** ** Factorial (both libraries) *)

Section Factorial.

Lemma fact_Z_pos k : 0 < fact_Z k.
Proof. induction k; cbn [fact_Z]; lia. Qed.

Lemma fact_Z_mono k m : (k <= m)%nat -> fact_Z k <= fact_Z m.
Proof.
  induction 1 as [|m Hkm IH]; [lia|].
  cbn [fact_Z]. pose proof (fact_Z_pos m). nia.
Qed.

Lemma fact_Z_20 : fact_Z 20 = 2432902008176640000.
Proof. reflexivity. Qed.

Lemma fact_Z_small k : (k <= 20)%nat -> 0 < fact_Z k <= 2432902008176640000.
Proof.
  intros H. split; [apply fact_Z_pos|].
  rewrite <- fact_Z_20. by apply fact_Z_mono.
Qed.

(** The two loops differ in the types of [i] and [result] only. *)
Variable loop : nat -> Z -> Z -> Z -> option Z.
Variables conv_i conv_result : Z -> Z.
Hypothesis loop_S : forall fuel n i r,
    loop (S fuel) n i r
    = if i <=? n then loop fuel n (conv_i (i + 1)) (conv_result (r * i))
      else Some r.
Hypothesis conv_i_id : forall x, 0 <= x <= 21 -> conv_i x = x.
Hypothesis conv_result_id :
  forall x, 0 <= x <= 2432902008176640000 -> conv_result x = x.

(** Entered with [result = (i - 1)!], the loop ends with [n!]. *)
Lemma loop_spec (todo : nat) :
  forall fuel n i,
    (n <= 20)%nat -> (1 <= i)%nat ->
    (i + todo = S n)%nat -> (todo < fuel)%nat ->
    loop fuel (Z.of_nat n) (Z.of_nat i) (fact_Z (i - 1))
    = Some (fact_Z n).
Proof.
  induction todo as [|todo IH]; intros fuel n i Hn Hi Hsum Hfuel;
    (destruct fuel as [|fuel]; [lia|]); rewrite loop_S.
  - destruct (Z.leb_spec (Z.of_nat i) (Z.of_nat n)); [lia|].
    do 2 f_equal. lia.
  - destruct (Z.leb_spec (Z.of_nat i) (Z.of_nat n)); [|lia].
    rewrite conv_i_id by lia.
    assert (Hstep : fact_Z (i - 1) * Z.of_nat i = fact_Z (S i - 1)).
    { destruct i as [|i]; [lia|]. cbn [Nat.sub]. rewrite Nat.sub_0_r.
      cbn [fact_Z]. lia. }
    rewrite Hstep.
    rewrite conv_result_id by (pose proof (fact_Z_small (S i - 1)); lia).
    replace (Z.of_nat i + 1) with (Z.of_nat (S i)) by lia.
    apply IH; lia.
Qed.

Lemma loop_from_2 n :
  0 <= n <= 20 ->
  loop (S (Z.to_nat n)) n 2 1 = Some (fact_Z (Z.to_nat n)).
Proof.
  intros Hn. destruct (Z.eq_dec n 0) as [->|Hn0].
  - cbn [Z.to_nat]. by rewrite loop_S.
  - rewrite <- (Z2Nat.id n) at 2 by lia.
    apply (loop_spec (Z.to_nat n - 1) _ _ 2); lia.
Qed.

End Factorial.

Lemma factorial_loop_spec n :
  0 <= n <= 20 ->
  factorial_loop (S (Z.to_nat n)) n 2 1 = Some (fact_Z (Z.to_nat n)).
Proof.
  apply (loop_from_2 factorial_loop to_uint32 to_uint64); [done|..].
  - intros x Hx. apply to_uint32_id. unfold is_uint32, UINT32_MAX. lia.
  - intros x Hx. apply to_uint64_id. unfold is_size_t, SIZE_MAX. lia.
Qed.

Lemma fast_factorial_loop_spec n :
  0 <= n <= 20 ->
  fast_factorial_loop (S (Z.to_nat n)) n 2 1 = Some (fact_Z (Z.to_nat n)).
Proof.
  apply (loop_from_2 fast_factorial_loop to_int32 to_int64); [done|..].
  - intros x Hx. apply to_int32_id. unfold is_int32, INT_MIN, INT_MAX. lia.
  - intros x Hx. apply to_int64_id. unfold is_int64, INT64_MIN, INT64_MAX. lia.
Qed.

(** C1.  Library A's [factorial] returns n! for 0 <= n <= 20, without
    touching the error slot, and returns 0 and records a non-empty error
    message for n > 20; Library B's [fast_factorial] returns n! for
    0 <= n <= 20 and the sentinel -1 for n < 0 and for n > 20.  In
    particular 0! = 1, 5! = 120, and 21 is an error in both libraries. *)
Theorem factorial_contract (n : Z) (st : state) :
  wf_state st ->
  (0 <= n <= 20 ->
     factorial n st = Some (fact_Z (Z.to_nat n), st)
     /\ fast_factorial n = Some (fact_Z (Z.to_nat n)))
  /\ (20 < n ->
      (exists st', factorial n st = Some (0, st') /\ error_recorded st')
      /\ fast_factorial n = Some (-1))
  /\ (n < 0 -> fast_factorial n = Some (-1))
  /\ factorial 0 st = Some (1, st) /\ fast_factorial 0 = Some 1
  /\ factorial 5 st = Some (120, st) /\ fast_factorial 5 = Some 120
  /\ (exists st', factorial 21 st = Some (0, st') /\ error_recorded st')
  /\ fast_factorial 21 = Some (-1).
Proof.
  intros Hst.
  assert (Herr : forall m, 20 < m ->
            exists st', factorial m st = Some (0, st') /\ error_recorded st').
  { intros m Hm. unfold factorial.
    destruct (Z.gtb_spec m 20); [|lia].
    destruct (set_error_literal "Factorial input too large (max 20)" st Hst)
      as (st' & -> & _ & Hrec); [vm_compute; reflexivity | cbn; lia |].
    by exists st'. }
  repeat split; try done.
  - unfold factorial. destruct (Z.gtb_spec n 20); [lia|].
    by rewrite factorial_loop_spec.
  - unfold fast_factorial.
    destruct (Z.ltb_spec n 0); [lia|]. destruct (Z.gtb_spec n 20); [lia|].
    by apply fast_factorial_loop_spec.
  - by apply Herr.
  - unfold fast_factorial.
    destruct (Z.ltb_spec n 0); [lia|]. by destruct (Z.gtb_spec n 20); [|lia].
  - unfold fast_factorial. by destruct (Z.ltb_spec n 0); [|lia].
  - by apply Herr.
Qed.

(** At [n = 5] in the initial state. *)
Lemma factorial_contract_witness :
  factorial 5 initial_state = Some (120, initial_state)
  /\ fast_factorial 5 = Some 120.
Proof.
  assert (Hst : wf_state initial_state) by reflexivity.
  pose proof (factorial_contract 5 initial_state Hst) as (H & _).
  apply H. lia.
Defined.

(** ** Greatest common divisor (Library B) *)

Section Gcd.

(** On non-negative operands the loop is Euclid's algorithm. *)
Lemma fast_gcd_loop_spec fuel :
  forall a b,
    0 <= a <= INT64_MAX -> 0 <= b <= INT64_MAX ->
    (Z.to_nat b < fuel)%nat ->
    fast_gcd_loop fuel a b = Some (Z.gcd a b).
Proof.
  induction fuel as [|fuel IH]; intros a b Ha Hb Hfuel; [lia|].
  cbn [fast_gcd_loop]. destruct (Z.eqb_spec b 0) as [->|Hb0]; cbn [negb].
  - rewrite Z.gcd_0_r, Z.abs_eq by lia. done.
  - unfold c_rem. rewrite Z.rem_mod_nonneg by lia.
    pose proof (Z.mod_pos_bound a b ltac:(lia)) as Hmod.
    rewrite to_int64_id by (unfold is_int64, INT64_MIN, INT64_MAX in *; lia).
    rewrite IH by lia.
    by rewrite Z.gcd_comm, Z.gcd_mod, Z.gcd_comm by lia.
Qed.

End Gcd.

(** C4, as the code has it.  For all 64-bit integers [a] and [b] other than
    INT64_MIN (whose absolute value is not a 64-bit integer), [fast_gcd]
    returns the greatest common divisor of |a| and |b|; gcd(0, 0) = 0,
    gcd(54, 24) = 6 and gcd(-8, 12) = 4. *)
Theorem fast_gcd_correct (a b : Z) :
  INT64_MIN < a <= INT64_MAX ->
  INT64_MIN < b <= INT64_MAX ->
  fast_gcd a b = Some (Z.gcd (Z.abs a) (Z.abs b))
  /\ fast_gcd 0 0 = Some 0
  /\ fast_gcd 54 24 = Some 6
  /\ fast_gcd (-8) 12 = Some 4.
Proof.
  intros Ha Hb. split; [|done].
  unfold fast_gcd, INT64_MIN, INT64_MAX in *.
  assert (Habs : forall x, - 2 ^ 63 < x <= 2 ^ 63 - 1 ->
            (if x <? 0 then to_int64 (- x) else x) = Z.abs x).
  { intros x Hx. destruct (Z.ltb_spec x 0).
    - rewrite to_int64_id by (unfold is_int64, INT64_MIN, INT64_MAX; lia). lia.
    - lia. }
  rewrite !Habs by done.
  apply fast_gcd_loop_spec; unfold INT64_MAX; lia.
Qed.

Lemma fast_gcd_correct_witness :
  fast_gcd (-8) 12 = Some (Z.gcd (Z.abs (-8)) (Z.abs 12)).
Proof.
  apply (fast_gcd_correct (-8) 12); unfold INT64_MIN, INT64_MAX; lia.
Defined.

(** C4 as stated fails at INT64_MIN: the greatest common divisor of
    |INT64_MIN| and 0 is 2^63, and the call returns INT64_MIN. *)
Lemma fast_gcd_int64_min :
  is_int64 INT64_MIN /\ is_int64 0
  /\ fast_gcd INT64_MIN 0 = Some INT64_MIN
  /\ fast_gcd INT64_MIN 0 <> Some (Z.gcd (Z.abs INT64_MIN) (Z.abs 0)).
Proof.
  unfold is_int64, INT64_MIN, INT64_MAX. repeat split; try lia; try done.
Qed.

(** ** Sums (both libraries) *)

Section Sums.

(** The two loops differ in the type of [sum] only. *)
Variable loop : nat -> list Z -> Z -> Z -> Z -> option Z.
Variable conv : Z -> Z.
Hypothesis loop_S : forall fuel (arr : list Z) len i sum,
    loop (S fuel) arr len i sum
    = if i <? len then
        x ← load arr i;
        loop fuel arr len (to_size_t (i + 1)) (conv (sum + x))
      else Some sum.

Lemma sum_loop_spec (todo : nat) :
  forall fuel (arr : list Z) (len i : nat) sum,
    (len <= length arr)%nat -> Z.of_nat (length arr) <= SIZE_MAX ->
    (i + todo = len)%nat -> (todo < fuel)%nat ->
    loop fuel arr (Z.of_nat len) (Z.of_nat i) sum
    = Some (fold_left (fun sum x => conv (sum + x))
              (drop i (take len arr)) sum).
Proof.
  induction todo as [|todo IH]; intros fuel arr len i sum Hlen Hmax Hi Hfuel;
    (destruct fuel as [|fuel]; [lia|]); rewrite loop_S.
  - destruct (Z.ltb_spec (Z.of_nat i) (Z.of_nat len)); [lia|].
    rewrite drop_ge; [done|]. rewrite length_take. lia.
  - destruct (Z.ltb_spec (Z.of_nat i) (Z.of_nat len)); [|lia].
    rewrite load_nat.
    destruct (lookup_lt_is_Some_2 arr i ltac:(lia)) as [x Hx].
    rewrite Hx. cbn [mbind option_bind].
    rewrite to_size_t_id by (unfold is_size_t; lia).
    replace (Z.of_nat i + 1) with (Z.of_nat (S i)) by lia.
    rewrite (IH fuel arr len (S i)) by lia.
    rewrite (drop_S (take len arr) x i); [done|].
    rewrite lookup_take_lt by lia. done.
Qed.

Lemma sum_loop_span (arr : list Z) len :
  0 <= len <= Z.of_nat (length arr) -> Z.of_nat (length arr) <= SIZE_MAX ->
  loop (S (length arr)) arr len 0 0 = Some (accumulate conv (span arr len)).
Proof.
  intros Hlen Hmax. rewrite <- (Z2Nat.id len) at 1 by lia.
  change 0 with (Z.of_nat 0) at 1.
  rewrite (sum_loop_spec (Z.to_nat len)) by lia. done.
Qed.

End Sums.

Lemma sum_array_loop_span (arr : list Z) len :
  0 <= len <= Z.of_nat (length arr) -> Z.of_nat (length arr) <= SIZE_MAX ->
  sum_array_loop (S (length arr)) arr len 0 0
  = Some (accumulate to_int32 (span arr len)).
Proof. by apply (sum_loop_span sum_array_loop to_int32). Qed.

Lemma fast_array_sum_loop_span (arr : list Z) len :
  0 <= len <= Z.of_nat (length arr) -> Z.of_nat (length arr) <= SIZE_MAX ->
  fast_array_sum_loop (S (length arr)) arr len 0 0
  = Some (accumulate to_int64 (span arr len)).
Proof. by apply (sum_loop_span fast_array_sum_loop to_int64). Qed.

(** The accumulation in a signed type of [w] bits is the sum of the
    elements converted to that type. *)
Lemma accumulate_to_signed w (l : list Z) :
  0 < w ->
  accumulate (to_signed w) l = to_signed w (foldr Z.add 0 l).
Proof.
  intros Hw. unfold accumulate.
  assert (Hpow : 0 < 2 ^ w) by (apply Z.pow_pos_nonneg; lia).
  assert (Hconv : forall s x,
            to_signed w (to_signed w s + x) = to_signed w (s + x)).
  { intros s x. unfold to_signed. f_equal.
    replace ((s + 2 ^ (w - 1)) mod 2 ^ w - 2 ^ (w - 1) + x + 2 ^ (w - 1))
      with ((s + 2 ^ (w - 1)) mod 2 ^ w + x) by lia.
    rewrite Z.add_mod_idemp_l by lia. f_equal. lia. }
  assert (Hgen : forall s,
            fold_left (fun sum x => to_signed w (sum + x)) l (to_signed w s)
            = to_signed w (s + foldr Z.add 0 l)).
  { induction l as [|x l IH]; intros s; cbn [fold_left foldr].
    - by rewrite Z.add_0_r.
    - rewrite Hconv, IH. f_equal. lia. }
  specialize (Hgen 0). rewrite Z.add_0_l in Hgen. rewrite <- Hgen. f_equal.
  unfold to_signed. rewrite Z.add_0_l, Z.mod_small; [lia|].
  split; [apply Z.lt_le_incl, Z.pow_pos_nonneg; lia|].
  apply Z.pow_lt_mono_r; lia.
Qed.

(** C6, as the code has it.  Library B's [fast_array_sum] yields the
    negative sentinel -1 for a null pointer only; for a non-null span it
    yields the linear accumulation of the elements in [int64_t], which is 0
    for the empty span.  Library A's [sum_array] yields 0 for a null pointer
    (recording an error) and for an empty span, and the accumulation in
    [int32_t] otherwise.  The sum of [1,2,3,4,5] is 15 in both. *)
Theorem sum_contract (arr : list Z) (len : Z) (st : state) :
  wf_state st ->
  0 <= len <= Z.of_nat (length arr) ->
  Z.of_nat (length arr) <= SIZE_MAX ->
  (fast_array_sum NULL len = Some TASK_OPS_ERROR_NULL_POINTER
   /\ TASK_OPS_ERROR_NULL_POINTER < 0)
  /\ fast_array_sum (Ptr arr) 0 = Some 0
  /\ fast_array_sum (Ptr arr) len = Some (accumulate to_int64 (span arr len))
  /\ (exists st', sum_array NULL len st = Some (0, st') /\ error_recorded st')
  /\ sum_array (Ptr arr) 0 st = Some (0, st)
  /\ sum_array (Ptr arr) len st
     = Some (accumulate to_int32 (span arr len), st)
  /\ fast_array_sum (Ptr [1; 2; 3; 4; 5]) 5 = Some 15
  /\ sum_array (Ptr [1; 2; 3; 4; 5]) 5 st = Some (15, st).
Proof.
  intros Hst Hlen Hmax.
  split; [done|]. split; [done|].
  split. { unfold fast_array_sum. by apply fast_array_sum_loop_span. }
  split.
  { unfold sum_array.
    destruct (set_error_literal "Null pointer passed to sum_array" st Hst)
      as (st' & -> & _ & Hrec); [vm_compute; reflexivity | cbn; lia |].
    by exists st'. }
  split; [done|].
  split. { unfold sum_array. by rewrite sum_array_loop_span by lia. }
  done.
Qed.

Lemma sum_contract_witness :
  fast_array_sum (Ptr [4; 5; 6]) 2 = Some (accumulate to_int64 (span [4; 5; 6] 2))
  /\ fast_array_sum (Ptr [4; 5; 6]) 0 = Some 0.
Proof.
  assert (Hst : wf_state initial_state) by reflexivity.
  assert (Hlen : 0 <= 2 <= Z.of_nat (length [4; 5; 6])) by (cbn; lia).
  assert (Hmax : Z.of_nat (length [4; 5; 6]) <= SIZE_MAX) by (vm_compute; discriminate).
  pose proof (sum_contract [4; 5; 6] 2 initial_state Hst Hlen Hmax)
    as (_ & H0 & H & _).
  split; [exact H | exact H0].
Defined.

(** C6 as stated fails on the empty span: Library B returns 0 there, not a
    negative sentinel. *)
Lemma fast_array_sum_empty_not_negative :
  fast_array_sum (Ptr []) 0 = Some 0
  /\ ~ (exists r, fast_array_sum (Ptr []) 0 = Some r /\ r < 0).
Proof.
  split; [reflexivity|]. intros (r & [= <-] & Hr). lia.
Qed.

(** ** Hash (Library B) *)

Section Hash.

Lemma uchar_range c : 0 <= uchar c <= 255.
Proof. unfold uchar. pose proof (Byte.to_N_bounded c). lia. Qed.

Lemma is_nul_false_neq c : is_nul c = false -> c <> NUL.
Proof. intros H ->. by vm_compute in H. Qed.

Lemma is_nul_true_eq c : is_nul c = true -> c = NUL.
Proof. unfold is_nul. by intros H%Byte.byte_dec_bl. Qed.

(** The loop, entered at [str[i]] with [rest] still ahead. *)
Lemma fast_string_hash_loop_spec (rest : list byte) :
  forall fuel pre len i hash,
    i = Z.of_nat (length pre) ->
    Z.of_nat (length (pre ++ rest)) <= SIZE_MAX ->
    (length rest < fuel)%nat ->
    len - i <= Z.of_nat (length rest) \/ NUL ∈ rest ->
    fast_string_hash_loop fuel (pre ++ rest) len i hash
    = Some (fold_left fnv1a_step
              (until_nul (take (Z.to_nat (len - i)) rest)) hash).
Proof.
  induction rest as [|c rest IH]; intros fuel pre len i hash Hi Hmax Hfuel Hv;
    (destruct fuel as [|fuel]; [cbn in Hfuel; lia|]);
    cbn [fast_string_hash_loop].
  - destruct Hv as [Hv|Hv]; [|by apply not_elem_of_nil in Hv].
    destruct (Z.ltb_spec i len); [cbn in Hv; lia|]. by rewrite take_nil.
  - destruct (Z.ltb_spec i len) as [Hlt|Hge].
    + rewrite (load_app_middle _ _ _ _ Hi). cbn [mbind option_bind].
      replace (Z.to_nat (len - i)) with (S (Z.to_nat (len - (i + 1)))) by lia.
      cbn [take until_nul].
      destruct (is_nul c) eqn:Hc; cbn [negb]; [done|].
      rewrite length_app in Hmax. cbn [length] in *.
      rewrite to_size_t_id by (unfold is_size_t; lia).
      replace (pre ++ c :: rest) with ((pre ++ [c]) ++ rest)
        by (by rewrite <- app_assoc).
      rewrite IH.
      * cbn [fold_left]. do 2 f_equal. unfold fnv1a_step, to_uint64, to_unsigned.
        rewrite (Z.mod_small (uchar c)); [done|].
        pose proof (uchar_range c). lia.
      * rewrite length_app. cbn. lia.
      * rewrite !length_app. cbn. lia.
      * lia.
      * destruct Hv as [Hv|Hv]; [left; lia|right].
        apply elem_of_cons in Hv as [Hv|Hv]; [|done].
        apply is_nul_false_neq in Hc. congruence.
    + replace (Z.to_nat (len - i)) with O by lia. done.
Qed.

End Hash.

(** C5.  For a non-null span, [fast_string_hash] is the 64-bit FNV-1a hash
    (offset basis 14695981039346656037, prime 1099511628211, XOR then
    multiply, modulo 2^64) of the bytes up to [len] or up to the first
    terminator, whichever comes first; a null pointer hashes to 0. *)
Theorem fast_string_hash_fnv1a (str : list byte) (len : Z) :
  Z.of_nat (length str) <= SIZE_MAX ->
  len <= Z.of_nat (length str) \/ NUL ∈ str ->
  fast_string_hash (Ptr str) len = Some (fnv1a (until_nul (span str len)))
  /\ fast_string_hash NULL len = Some 0.
Proof.
  intros Hmax Hv. split; [|done]. unfold fast_string_hash.
  rewrite (fast_string_hash_loop_spec str _ [] len 0).
  - by rewrite Z.sub_0_r.
  - done.
  - done.
  - lia.
  - destruct Hv; [left; lia | by right].
Qed.

Lemma fast_string_hash_fnv1a_witness :
  fast_string_hash (Ptr (literal "hello")) 5
  = Some (fnv1a (until_nul (span (literal "hello") 5)))
  /\ fast_string_hash NULL 5 = Some 0.
Proof.
  apply (fast_string_hash_fnv1a (literal "hello") 5).
  - vm_compute. discriminate.
  - left. vm_compute. discriminate.
Defined.

(** C9.  On a non-null span of length 0, or whose first byte is the
    terminator, [fast_string_hash] returns the offset basis
    14695981039346656037, which is not the 0 of a null pointer. *)
Theorem fast_string_hash_empty (str : list byte) (len : Z) :
  len = 0 \/ (exists rest, str = NUL :: rest) ->
  fast_string_hash (Ptr str) len = Some 14695981039346656037
  /\ fast_string_hash (Ptr str) len <> fast_string_hash NULL len.
Proof.
  intros H.
  assert (Hb : fast_string_hash (Ptr str) len = Some 14695981039346656037).
  { unfold fast_string_hash. cbn [fast_string_hash_loop].
    destruct H as [->|[rest ->]]; [done|].
    destruct (Z.ltb_spec 0 len); done. }
  split; [done|]. by rewrite Hb.
Qed.

Lemma fast_string_hash_empty_witness :
  fast_string_hash (Ptr (literal "hello")) 0 = Some 14695981039346656037
  /\ fast_string_hash (Ptr [NUL; x41]) 2 = Some 14695981039346656037.
Proof.
  split.
  - apply (fast_string_hash_empty (literal "hello") 0). left. reflexivity.
  - apply (fast_string_hash_empty [NUL; x41] 2). right. exists [x41]. reflexivity.
Defined.

(** ** Memory comparison (Library B) *)

Section Compare.

(** [memcmp], entered at byte [i] with [r1] and [r2] still ahead. *)
Lemma memcmp_from_spec (n : nat) :
  forall p1 r1 p2 r2 i,
    i = Z.of_nat (length p1) -> i = Z.of_nat (length p2) ->
    (n <= length r1)%nat -> (n <= length r2)%nat ->
    exists r,
      memcmp_from n (p1 ++ r1) (p2 ++ r2) i = Some r
      /\ memcmp_from n (p2 ++ r2) (p1 ++ r1) i = Some (- r)
      /\ ordering_of r = lex_compare (take n r1) (take n r2)
      /\ (take n r1 = take n r2 -> r = 0)
      /\ INT_MIN < r <= INT_MAX.
Proof.
  induction n as [|n IH]; intros p1 r1 p2 r2 i H1 H2 Hr1 Hr2.
  { exists 0. unfold INT_MIN, INT_MAX. by repeat split. }
  destruct r1 as [|c1 r1]; [cbn in Hr1; lia|].
  destruct r2 as [|c2 r2]; [cbn in Hr2; lia|].
  cbn [memcmp_from take lex_compare length] in *.
  rewrite (load_app_middle p1 c1 r1 i H1), (load_app_middle p2 c2 r2 i H2).
  cbn [mbind option_bind].
  rewrite (Z.eqb_sym (uchar c2) (uchar c1)).
  destruct (Z.eqb_spec (uchar c1) (uchar c2)) as [Heq|Hne].
  - rewrite Heq, Z.compare_refl.
    replace (p1 ++ c1 :: r1) with ((p1 ++ [c1]) ++ r1)
      by (by rewrite <- app_assoc).
    replace (p2 ++ c2 :: r2) with ((p2 ++ [c2]) ++ r2)
      by (by rewrite <- app_assoc).
    destruct (IH (p1 ++ [c1]) r1 (p2 ++ [c2]) r2 (i + 1))
      as (r & Hr & Hr' & Hord & Hz & Hint);
      [rewrite ?length_app; cbn; lia..|].
    exists r. repeat split; try done; try lia.
    intros [= _ Ht]. by apply Hz.
  - exists (uchar c1 - uchar c2).
    pose proof (uchar_range c1). pose proof (uchar_range c2).
    unfold INT_MIN, INT_MAX.
    repeat split; try lia.
    + f_equal. lia.
    + unfold ordering_of.
      destruct (Z.compare_spec (uchar c1) (uchar c2)) as [|Hlt|Hgt]; [done|..].
      * by apply Z.compare_lt_iff; lia.
      * by apply Z.compare_gt_iff; lia.
    + intros [= Hc _]. by subst.
Qed.

End Compare.

(** C7, as the code has it.  With both pointers non-null,
    [fast_memory_compare] returns a three-way ordering signal over the
    first [len] bytes: its sign is the lexicographic order of the two
    spans, it is 0 on equal spans (so comparing a span with itself gives
    0), and exchanging the arguments negates it.  With a null pointer it
    returns -1, which is negative and therefore not distinct from the
    results that mean "less than". *)
Theorem fast_memory_compare_contract (a b : list byte) (len : Z) :
  0 <= len <= Z.of_nat (length a) ->
  0 <= len <= Z.of_nat (length b) ->
  (exists r r',
      fast_memory_compare (Ptr a) (Ptr b) len = Some r
      /\ fast_memory_compare (Ptr b) (Ptr a) len = Some r'
      /\ ordering_of r = lex_compare (span a len) (span b len)
      /\ (span a len = span b len -> r = 0)
      /\ Z.sgn r' = - Z.sgn r
      /\ is_int r)
  /\ fast_memory_compare (Ptr a) (Ptr a) len = Some 0
  /\ fast_memory_compare NULL (Ptr b) len = Some (-1)
  /\ fast_memory_compare (Ptr a) NULL len = Some (-1)
  /\ fast_memory_compare (@NULL (list byte)) NULL len = Some (-1)
  /\ ordering_of (-1) = Lt.
Proof.
  intros Ha Hb.
  assert (Hcmp : forall x y : list byte,
            0 <= len <= Z.of_nat (length x) ->
            0 <= len <= Z.of_nat (length y) ->
            exists r,
              memcmp x y len = Some r /\ memcmp y x len = Some (- r)
              /\ ordering_of r = lex_compare (span x len) (span y len)
              /\ (span x len = span y len -> r = 0)
              /\ INT_MIN < r <= INT_MAX).
  { intros x y Hx Hy. unfold memcmp, span.
    apply (memcmp_from_spec (Z.to_nat len) [] x [] y 0); try done; lia. }
  split; [|split; [|done]].
  - destruct (Hcmp a b Ha Hb) as (r & Hr & Hr' & Hord & Hz & Hint).
    exists r, (- r). cbn [fast_memory_compare].
    repeat split; try done; try (unfold INT_MIN, INT_MAX in *; lia).
  - destruct (Hcmp a a Ha Ha) as (r & Hr & _ & _ & Hz & _).
    cbn [fast_memory_compare]. rewrite Hr. f_equal. by apply Hz.
Qed.

Lemma fast_memory_compare_contract_witness :
  fast_memory_compare (Ptr (literal "abc")) (Ptr (literal "abc")) 3 = Some 0.
Proof.
  assert (H : 0 <= 3 <= Z.of_nat (length (literal "abc"))) by (cbn; lia).
  pose proof (fast_memory_compare_contract (literal "abc") (literal "abc") 3 H H)
    as (_ & Hrefl & _).
  exact Hrefl.
Defined.

(** C7 as stated fails: the value returned for a null pointer is also
    returned as an ordering result (here for "a" against "b"). *)
Lemma fast_memory_compare_sentinel_not_reserved :
  fast_memory_compare (Ptr [x61]) (Ptr [x62]) 1 = Some (-1)
  /\ fast_memory_compare NULL (Ptr [x62]) 1 = Some (-1)
  /\ ~ (forall (a b : list byte) len r,
          0 <= len <= Z.of_nat (length a) ->
          0 <= len <= Z.of_nat (length b) ->
          fast_memory_compare (Ptr a) (Ptr b) len = Some r ->
          Some r <> fast_memory_compare NULL (Ptr b) len).
Proof.
  split; [reflexivity|]. split; [reflexivity|].
  intros H. apply (H [x61] [x62] 1 (-1)); cbn; (lia || reflexivity).
Qed.

(** ** In-place reversal (Library B) *)

Section Reverse.

(** The loop, with [pre] and [post] already exchanged and [mid] still to
    reverse; [post] holds what lies at and beyond index [len - i]. *)
Lemma fast_string_reverse_loop_spec (k : nat) :
  forall fuel (pre mid post : list byte) len i,
    i = Z.of_nat (length pre) ->
    len = Z.of_nat (2 * length pre + length mid) ->
    len <= SIZE_MAX ->
    (2 * k <= length mid <= 2 * k + 1)%nat ->
    (k < fuel)%nat ->
    fast_string_reverse_loop fuel (pre ++ mid ++ post) len i
    = Some (pre ++ reverse mid ++ post).
Proof.
  induction k as [|k IH]; intros fuel pre mid post len i Hi Hlen Hmax Hk Hfuel;
    (destruct fuel as [|fuel]; [lia|]); cbn [fast_string_reverse_loop].
  - assert (length mid <= 1)%nat as Hmid by lia.
    destruct (Z.ltb_spec i (len / 2)) as [Hlt|_].
    { assert (len / 2 < i + 1) by (apply Z.div_lt_upper_bound; lia). lia. }
    destruct mid as [|m [|m' mid]]; [done..|cbn in Hmid; lia].
  - assert (2 <= length mid)%nat as Hmid by lia.
    destruct mid as [|x mid]; [cbn in Hmid; lia|].
    destruct mid as [|y mid' _] using rev_ind; [cbn in Hmid; lia|].
    clear Hmid. cbn [length] in *. rewrite length_app in *. cbn [length] in *.
    destruct (Z.ltb_spec i (len / 2)) as [_|Hge].
    2:{ assert (len / 2 >= i + 1); [|lia].
        apply Z.le_ge, Z.div_le_lower_bound; lia. }
    rewrite (to_size_t_id (len - 1 - i)) by (unfold is_size_t; lia).
    rewrite (to_size_t_id (i + 1)) by (unfold is_size_t; lia).
    cbn [app]. rewrite <- !app_assoc. cbn [app].
    rewrite (swap_apart pre x mid' y post) by lia.
    cbn [mbind option_bind].
    replace (pre ++ y :: mid' ++ x :: post)
      with ((pre ++ [y]) ++ mid' ++ (x :: post))
      by (by rewrite <- app_assoc).
    rewrite (IH fuel (pre ++ [y]) mid' (x :: post)).
    + rewrite reverse_cons, reverse_snoc, <- !app_assoc. done.
    + rewrite length_app. cbn. lia.
    + rewrite length_app. cbn. lia.
    + lia.
    + lia.
    + lia.
Qed.

(** A call reverses the first [len] bytes and leaves the others. *)
Lemma fast_string_reverse_spec (str : list byte) len :
  0 <= len <= Z.of_nat (length str) ->
  Z.of_nat (length str) <= SIZE_MAX ->
  fast_string_reverse (Ptr str) len
  = Some (Ptr (reverse (span str len) ++ drop (Z.to_nat len) str)).
Proof.
  intros Hlen Hmax. unfold fast_string_reverse, span.
  set (n := Z.to_nat len).
  assert (Hsplit : str = [] ++ take n str ++ drop n str)
    by (by rewrite take_drop).
  assert (Htake : length (take n str) = n) by (rewrite length_take; lia).
  destruct (Z.leb_spec len 1) as [Hle|Hgt].
  - do 2 f_equal. rewrite Hsplit at 1. cbn [app]. f_equal.
    destruct (take n str) as [|x [|y l]]; [done..|cbn in Htake; lia].
  - rewrite Hsplit at 2.
    rewrite (fast_string_reverse_loop_spec (Z.to_nat (len / 2)));
      try done; cbn [length]; try lia.
    + pose proof (Z.div_mod len 2 ltac:(lia)) as Hdiv.
      pose proof (Z.mod_pos_bound len 2 ltac:(lia)) as Hmod.
      lia.
    + assert (len / 2 <= len) by (apply Z.div_le_upper_bound; lia). lia.
Qed.

End Reverse.

(** C8.  On a non-null buffer, two calls of [fast_string_reverse] with the
    same length restore the buffer (a call reverses the first [len] bytes
    and leaves the others), and a call with length 0 or 1 changes
    nothing. *)
Theorem fast_string_reverse_involutive (str : list byte) (len : Z) :
  0 <= len <= Z.of_nat (length str) ->
  Z.of_nat (length str) <= SIZE_MAX ->
  (exists str',
      fast_string_reverse (Ptr str) len = Some (Ptr str')
      /\ str' = reverse (span str len) ++ drop (Z.to_nat len) str
      /\ fast_string_reverse (Ptr str') len = Some (Ptr str))
  /\ (len <= 1 -> fast_string_reverse (Ptr str) len = Some (Ptr str)).
Proof.
  intros Hlen Hmax. split.
  - eexists. split; [by apply fast_string_reverse_spec|]. split; [done|].
    assert (Hrev : length (reverse (span str len)) = Z.to_nat len).
    { unfold span. rewrite length_reverse, length_take. lia. }
    rewrite fast_string_reverse_spec.
    + unfold span at 1. rewrite take_app_length' by done.
      rewrite drop_app_length' by done.
      rewrite reverse_involutive. unfold span. by rewrite take_drop.
    + rewrite length_app, Hrev, length_drop. lia.
    + rewrite length_app, Hrev, length_drop. lia.
  - intros Hle. unfold fast_string_reverse.
    by destruct (Z.leb_spec len 1); [|lia].
Qed.

Lemma fast_string_reverse_involutive_witness :
  exists str',
    fast_string_reverse (Ptr (literal "hello")) 5 = Some (Ptr str')
    /\ str' = reverse (span (literal "hello") 5) ++ drop (Z.to_nat 5) (literal "hello")
    /\ fast_string_reverse (Ptr str') 5 = Some (Ptr (literal "hello")).
Proof.
  apply (fast_string_reverse_involutive (literal "hello") 5).
  - cbn. lia.
  - vm_compute. discriminate.
Defined.

(** ** Maximum through an out-parameter (Library A) *)

Section FindMax.

(** The loop, entered at [array[i]] with the maximum of what came before
    in the caller's location. *)
Lemma find_max_apart_loop_spec (rest : list Z) :
  forall fuel pre len i m,
    i = Z.of_nat (length pre) ->
    Z.of_nat (length (pre ++ rest)) <= SIZE_MAX ->
    (length rest < fuel)%nat ->
    len - i <= Z.of_nat (length rest) ->
    find_max_apart_loop fuel (pre ++ rest) len i m
    = Some (fold_left Z.max (take (Z.to_nat (len - i)) rest) m).
Proof.
  induction rest as [|x rest IH]; intros fuel pre len i m Hi Hmax Hfuel Hlen;
    (destruct fuel as [|fuel]; [cbn in Hfuel; lia|]);
    cbn [find_max_apart_loop].
  - destruct (Z.ltb_spec i len); [cbn in Hlen; lia|]. by rewrite take_nil.
  - rewrite length_app in Hmax. cbn [length] in *.
    destruct (Z.ltb_spec i len) as [Hlt|Hge].
    + rewrite (load_app_middle _ _ _ _ Hi). cbn [mbind option_bind].
      replace (Z.to_nat (len - i)) with (S (Z.to_nat (len - (i + 1)))) by lia.
      cbn [take fold_left].
      rewrite to_size_t_id by (unfold is_size_t; lia).
      replace (pre ++ x :: rest) with ((pre ++ [x]) ++ rest)
        by (by rewrite <- app_assoc).
      assert (Hi' : i + 1 = Z.of_nat (length (pre ++ [x])))
        by (rewrite length_app; cbn; lia).
      assert (Hmax' : Z.of_nat (length ((pre ++ [x]) ++ rest)) <= SIZE_MAX)
        by (rewrite !length_app; cbn; lia).
      destruct (Z.gtb_spec x m).
      * rewrite (IH _ _ _ _ _ Hi' Hmax') by lia. f_equal. f_equal. lia.
      * rewrite (IH _ _ _ _ _ Hi' Hmax') by lia. f_equal. f_equal. lia.
    + replace (Z.to_nat (len - i)) with O by lia. done.
Qed.

Lemma fold_left_max_ge (l : list Z) :
  forall m, m <= fold_left Z.max l m
            /\ Forall (fun x => x <= fold_left Z.max l m) l
            /\ (fold_left Z.max l m = m \/ fold_left Z.max l m ∈ l).
Proof.
  induction l as [|x l IH]; intros m; cbn [fold_left].
  - by repeat split; [lia | constructor | left].
  - destruct (IH (Z.max m x)) as (Hm & Hall & Hin).
    split; [lia|]. split; [constructor; [lia|done]|].
    destruct Hin as [Heq|Hin]; [|right; by apply elem_of_cons; right].
    rewrite Heq. destruct (Z.max_spec m x) as [[_ ->]|[_ ->]];
      [right; apply elem_of_cons; by left | by left].
Qed.

Lemma fold_left_max_is_maximum x (l : list Z) :
  is_maximum (fold_left Z.max l x) (x :: l).
Proof.
  destruct (fold_left_max_ge l x) as (Hm & Hall & Hin). split.
  - apply elem_of_cons. destruct Hin; [by left | by right].
  - by constructor.
Qed.

End FindMax.


(** ** Reversal into a caller's buffer (Library A) *)

Section ReverseString.

(** A terminated string is its characters, the terminator, and what
    follows it in the object. *)
Lemma strlen_Some_inv (s : list byte) len :
  strlen s = Some len ->
  exists chars rest,
    s = chars ++ NUL :: rest
    /\ len = Z.of_nat (length chars)
    /\ Forall (fun c => is_nul c = false) chars.
Proof.
  revert len. induction s as [|c s IH]; intros len; cbn [strlen]; [done|].
  destruct (is_nul c) eqn:Hc.
  - intros [= <-]. apply is_nul_true_eq in Hc as ->.
    by exists [], s.
  - destruct (strlen s) as [n|]; [|done]. cbn. intros [= <-].
    destruct (IH n eq_refl) as (chars & rest & -> & -> & Hchars).
    exists (c :: chars), rest. split; [done|]. split; [cbn; lia|].
    by constructor.
Qed.

(** The loop, with [pre] written and [mid] still to write. *)
Lemma reverse_string_apart_loop_spec (mid : list byte) :
  forall fuel (input pre post : list byte) len i,
    i = Z.of_nat (length pre) ->
    len = Z.of_nat (length pre + length mid) ->
    len <= Z.of_nat (length input) -> Z.of_nat (length input) <= SIZE_MAX ->
    (length mid < fuel)%nat ->
    reverse_string_apart_loop fuel input (pre ++ mid ++ post) len i
    = Some (pre ++ reverse (take (length mid) input) ++ post).
Proof.
  induction mid as [|m mid IH];
    intros fuel input pre post len i Hi Hlen Hin Hmax Hfuel;
    (destruct fuel as [|fuel]; [cbn in Hfuel; lia|]);
    cbn [reverse_string_apart_loop length] in *.
  - destruct (Z.ltb_spec i len); [lia|]. done.
  - destruct (Z.ltb_spec i len); [|lia].
    rewrite (to_size_t_id (len - 1 - i)) by (unfold is_size_t; lia).
    rewrite (to_size_t_id (i + 1)) by (unfold is_size_t; lia).
    replace (len - 1 - i) with (Z.of_nat (length mid)) by lia.
    rewrite load_nat.
    destruct (lookup_lt_is_Some_2 input (length mid) ltac:(lia)) as [c Hc].
    rewrite Hc. cbn [mbind option_bind app].
    rewrite (store_app_middle _ _ _ _ _ Hi). cbn [mbind option_bind].
    replace (pre ++ c :: mid ++ post) with ((pre ++ [c]) ++ mid ++ post)
      by (by rewrite <- app_assoc).
    rewrite (IH fuel input (pre ++ [c]) post len (i + 1));
      try (rewrite length_app; cbn; lia); try lia.
    rewrite (take_S_r _ _ _ Hc), reverse_snoc, <- app_assoc. done.
Qed.

End ReverseString.


(** ** Quicksort (Library B) *)

Section Quicksort.

Implicit Types (arr pre les gts rest post seg : list Z).

Lemma to_int_small x : -1 <= x <= INT_MAX -> to_int x = x.
Proof. intros H. apply to_int_id. unfold is_int, INT_MIN, INT_MAX in *. lia. Qed.

(** The invariant of the [for] loop: after [pre], the elements not above
    the pivot ([les]), those above it ([gts]), those not yet seen
    ([rest]); the loop does not look at [post]. *)
Lemma quicksort_loop_spec rest :
  forall fuel pre les gts post pivot high i j,
    i = Z.of_nat (length pre + length les) - 1 ->
    j = Z.of_nat (length pre + length les + length gts) ->
    high = j + Z.of_nat (length rest) ->
    high <= INT_MAX ->
    (length rest < fuel)%nat ->
    Forall (fun x => x <= pivot) les ->
    Forall (fun x => pivot < x) gts ->
    exists les' gts',
      quicksort_loop fuel (pre ++ les ++ gts ++ rest ++ post) pivot high i j
      = Some (pre ++ les' ++ gts' ++ post,
              Z.of_nat (length pre + length les') - 1)
      /\ Forall (fun x => x <= pivot) les'
      /\ Forall (fun x => pivot < x) gts'
      /\ les ++ gts ++ rest ≡ₚ les' ++ gts'.
Proof.
  induction rest as [|x rest IH];
    intros fuel pre les gts post pivot high i j Hi Hj Hhigh Hmax Hfuel Hles Hgts;
    (destruct fuel as [|fuel]; [cbn in Hfuel; lia|]);
    cbn [quicksort_loop length] in *.
  - destruct (Z.ltb_spec j high); [lia|].
    exists les, gts. rewrite app_nil_r. cbn [app]. by subst i.
  - destruct (Z.ltb_spec j high); [|lia].
    assert (Hload : load (pre ++ les ++ gts ++ (x :: rest) ++ post) j
                    = Some x).
    { replace (pre ++ les ++ gts ++ (x :: rest) ++ post)
        with ((pre ++ les ++ gts) ++ x :: rest ++ post)
        by (by rewrite <- !app_assoc).
      apply load_app_middle. rewrite !length_app. lia. }
    rewrite Hload. cbn [mbind option_bind].
    rewrite (to_int_small (j + 1)) by lia.
    destruct (Z.leb_spec x pivot) as [Hle|Hgt].
    + rewrite (to_int_small (i + 1)) by lia.
      assert (Hswap : swap (pre ++ les ++ gts ++ (x :: rest) ++ post)
                        (i + 1) j
                      = Some (pre ++ (les ++ [x]) ++ first_to_back gts
                                ++ rest ++ post)).
      { destruct gts as [|g gts]; cbn [app first_to_back].
        - replace (pre ++ les ++ x :: rest ++ post)
            with ((pre ++ les) ++ x :: rest ++ post)
            by (by rewrite <- !app_assoc).
          replace j with (i + 1) by (cbn [length] in *; lia).
          rewrite swap_same; [by rewrite <- !app_assoc|].
          rewrite length_app. lia.
        - replace (pre ++ les ++ g :: gts ++ x :: rest ++ post)
            with ((pre ++ les) ++ g :: gts ++ x :: rest ++ post)
            by (by rewrite <- !app_assoc).
          rewrite swap_apart;
            [|rewrite length_app in *; cbn [length] in *; lia..].
          rewrite <- !app_assoc. done. }
      rewrite Hswap. cbn [mbind option_bind].
      destruct (IH fuel pre (les ++ [x]) (first_to_back gts) post
                  pivot high (i + 1) (j + 1))
        as (les' & gts' & Hloop & Hles' & Hgts' & Hperm).
      * rewrite length_app. cbn [length]. lia.
      * rewrite !length_app. cbn [length].
        destruct gts; cbn [first_to_back length] in *; rewrite ?length_app;
          cbn [length]; lia.
      * lia.
      * lia.
      * lia.
      * apply Forall_app. split; [done|]. by constructor.
      * destruct gts as [|g gts]; [constructor|]. cbn [app first_to_back].
        apply Forall_cons in Hgts as [Hg Hgts].
        apply Forall_app. split; [done|]. by constructor.
      * exists les', gts'. split; [done|]. split; [done|]. split; [done|].
        rewrite <- Hperm. destruct gts as [|g gts]; cbn [app first_to_back].
        -- by rewrite <- app_assoc.
        -- solve_Permutation.
    + destruct (IH fuel pre les (gts ++ [x]) post pivot high i (j + 1))
        as (les' & gts' & Hloop & Hles' & Hgts' & Hperm).
      * lia.
      * rewrite !length_app. cbn [length]. lia.
      * lia.
      * lia.
      * lia.
      * done.
      * apply Forall_app. split; [done|]. constructor; [lia|done].
      * exists les', gts'. rewrite <- Hloop, <- Hperm.
        split; [|split; [done|split; [done|]]].
        -- by rewrite <- !app_assoc.
        -- by rewrite <- !app_assoc.
Qed.

(** One partitioning step on the segment [body ++ [p]] between [pre] and
    [post]: the last element [p] is the pivot and ends at index [pi],
    after the elements not above it and before those above it. *)
Lemma quicksort_partition_spec pre body p post low high :
  low = Z.of_nat (length pre) ->
  high = low + Z.of_nat (length body) ->
  high <= INT_MAX ->
  exists les gts,
    quicksort_partition (pre ++ (body ++ [p]) ++ post) low high
    = Some (pre ++ les ++ p :: gts ++ post,
            Z.of_nat (length pre + length les))
    /\ Forall (fun x => x <= p) les
    /\ Forall (fun x => p < x) gts
    /\ body ≡ₚ les ++ gts.
Proof.
  intros Hlow Hhigh Hmax. unfold quicksort_partition.
  assert (Harr : pre ++ (body ++ [p]) ++ post = pre ++ body ++ p :: post)
    by (by rewrite <- !app_assoc).
  rewrite Harr.
  assert (Hpivot : load (pre ++ body ++ p :: post) high = Some p).
  { replace (pre ++ body ++ p :: post) with ((pre ++ body) ++ p :: post)
      by (by rewrite <- !app_assoc).
    apply load_app_middle. rewrite length_app. lia. }
  rewrite Hpivot. cbn [mbind option_bind].
  rewrite (to_int_small (low - 1)) by lia.
  destruct (quicksort_loop_spec body
              (S (length (pre ++ body ++ p :: post)))
              pre [] [] (p :: post) p high (low - 1) low)
    as (les & gts & Hloop & Hles & Hgts & Hperm);
    [cbn [length]; rewrite ?length_app; cbn [length]; lia..|done|done|].
  cbn [app] in Hloop, Hperm.
  rewrite Hloop. cbn [mbind option_bind].
  apply Permutation_length in Hperm as Hlen. rewrite length_app in Hlen.
  rewrite (to_int_small (_ + 1)) by lia.
  exists les, (first_to_back gts).
  destruct gts as [|g gts]; cbn [app first_to_back length] in *.
  - replace (pre ++ les ++ p :: post) with ((pre ++ les) ++ p :: post)
      by (by rewrite <- !app_assoc).
    replace high with (Z.of_nat (length pre + length les) - 1 + 1) by lia.
    rewrite swap_same by (rewrite length_app; lia).
    cbn [mbind option_bind]. rewrite <- !app_assoc.
    split; [do 3 f_equal; lia|done].
  - replace (pre ++ les ++ g :: gts ++ p :: post)
      with ((pre ++ les) ++ g :: gts ++ p :: post)
      by (by rewrite <- !app_assoc).
    rewrite swap_apart by (rewrite length_app; lia).
    cbn [mbind option_bind]. rewrite <- !app_assoc. cbn [app].
    split; [do 3 f_equal; lia|]. split; [done|].
    apply Forall_cons in Hgts as [Hg Hgts]. split.
    + apply Forall_app. split; [done|]. by constructor.
    + rewrite Hperm. solve_Permutation.
Qed.

(** [quicksort(arr, low, high)] sorts the segment [low..high] and leaves
    the rest of the array alone. *)
Lemma quicksort_spec fuel :
  forall pre seg post low high,
    low = Z.of_nat (length pre) ->
    high = low + Z.of_nat (length seg) - 1 ->
    high < INT_MAX ->
    (length seg <= S fuel)%nat ->
    exists seg',
      quicksort fuel (pre ++ seg ++ post) low high
      = Some (pre ++ seg' ++ post)
      /\ seg ≡ₚ seg'
      /\ StronglySorted Z.le seg'.
Proof.
  induction fuel as [|fuel IH]; intros pre seg post low high Hlow Hhigh Hmax Hfuel.
  - exists seg. cbn [quicksort].
    destruct (Z.ltb_spec low high); [lia|].
    split; [done|]. split; [done|].
    destruct seg as [|x [|y seg]]; [repeat constructor..|cbn in Hfuel; lia].
  - cbn [quicksort]. destruct (Z.ltb_spec low high) as [Hlt|Hge].
    2:{ exists seg. split; [done|]. split; [done|].
        destruct seg as [|x [|y seg]]; [repeat constructor..|cbn in Hhigh; lia]. }
    destruct seg as [|p body _] using rev_ind; [cbn in Hhigh; lia|].
    rewrite length_app in Hhigh, Hfuel. cbn [length] in Hhigh, Hfuel.
    destruct (quicksort_partition_spec pre body p post low high)
      as (les & gts & Hpart & Hles & Hgts & Hperm); [lia..|].
    rewrite Hpart. cbn [mbind option_bind].
    apply Permutation_length in Hperm as Hlen. rewrite length_app in Hlen.
    rewrite (to_int_small (_ - 1)), (to_int_small (_ + 1)) by lia.
    destruct (IH pre les (p :: gts ++ post) low
                (Z.of_nat (length pre + length les) - 1))
      as (les' & Hq1 & Hperm1 & Hsorted1); [lia..|].
    rewrite Hq1. cbn [mbind option_bind].
    apply Permutation_length in Hperm1 as Hlen1.
    replace (pre ++ les' ++ p :: gts ++ post)
      with ((pre ++ les' ++ [p]) ++ gts ++ post)
      by (by rewrite <- !app_assoc).
    destruct (IH (pre ++ les' ++ [p]) gts post
                (Z.of_nat (length pre + length les) + 1) high)
      as (gts' & Hq2 & Hperm2 & Hsorted2);
      [rewrite ?length_app; cbn [length]; lia..|].
    rewrite Hq2.
    exists (les' ++ p :: gts'). split; [by rewrite <- !app_assoc|]. split.
    + rewrite Hperm, Hperm1, Hperm2. solve_Permutation.
    + rewrite Hperm1 in Hles. rewrite Hperm2 in Hgts.
      apply StronglySorted_app_2; [|done|].
      * intros x1 x2 Hx1 Hx2.
        rewrite Forall_forall in Hles; specialize (Hles x1 Hx1).
        apply elem_of_cons in Hx2 as [->|Hx2]; [done|].
        rewrite Forall_forall in Hgts; specialize (Hgts x2 Hx2). lia.
      * constructor; [done|].
        eapply Forall_impl; [exact Hgts|]. intros; cbn in *; lia.
Qed.

End Quicksort.

(** *** The entry point *)

(** While the length fits in an [int], [fast_array_sort] sorts: the array
    it leaves is non-decreasing and a permutation of the one it was given;
    an array of at most one element and an array that is already sorted
    are left as they are, so a second call changes nothing. *)
Theorem fast_array_sort_correct (arr : list Z) (len : Z) :
  len = Z.of_nat (length arr) ->
  len <= INT_MAX ->
  exists arr',
    fast_array_sort (Ptr arr) len = Some (Ptr arr')
    /\ Sorted Z.le arr'
    /\ arr ≡ₚ arr'
    /\ (len <= 1 -> arr' = arr)
    /\ (Sorted Z.le arr -> arr' = arr)
    /\ fast_array_sort (Ptr arr') len = Some (Ptr arr').
Proof.
  intros Hlen Hmax.
  assert (Hsort : forall a : list Z,
            Z.of_nat (length a) = len ->
            exists a', fast_array_sort (Ptr a) len = Some (Ptr a')
                       /\ StronglySorted Z.le a' /\ a ≡ₚ a'
                       /\ (len <= 1 -> a' = a)).
  { intros a Ha. unfold fast_array_sort.
    destruct (Z.leb_spec len 1) as [Hle|Hgt].
    - exists a. split; [done|]. split; [|done].
      destruct a as [|x [|y a]]; [repeat constructor..|cbn in Ha; lia].
    - rewrite (to_int_small len) by lia.
      rewrite (to_int_small (len - 1)) by lia.
      destruct (quicksort_spec (length a) [] a [] 0 (len - 1))
        as (a' & Hq & Hperm & Hsorted); [cbn [length]; lia..|].
      cbn [app] in Hq. rewrite !app_nil_r in Hq. rewrite Hq.
      exists a'. split; [done|]. split; [done|]. split; [done|]. lia. }
  assert (Hfix : forall a a' : list Z,
            StronglySorted Z.le a -> StronglySorted Z.le a' -> a ≡ₚ a' ->
            a' = a).
  { intros a a' Ha Ha' Hperm. symmetry.
    apply (StronglySorted_unique_strong Z.le); [|done..].
    intros x1 x2 _ _ H1 H2. lia. }
  destruct (Hsort arr (eq_sym Hlen)) as (arr' & Hcall & Hsorted & Hperm & Hshort).
  exists arr'. split; [done|].
  split; [by apply StronglySorted_Sorted|]. split; [done|]. split; [done|].
  split.
  - intros Harr. apply Hfix; [|done..].
    apply Sorted_StronglySorted; [|done]. intros x y z. apply Z.le_trans.
  - destruct (Hsort arr') as (arr'' & Hcall' & Hsorted' & Hperm' & _).
    { apply Permutation_length in Hperm. lia. }
    rewrite Hcall'. do 2 f_equal. by apply Hfix.
Qed.

Lemma fast_array_sort_correct_witness :
  exists arr',
    fast_array_sort (Ptr [3; 1; 2; 5; 4; 4; 0; -7]) 8 = Some (Ptr arr')
    /\ Sorted Z.le arr'
    /\ [3; 1; 2; 5; 4; 4; 0; -7] ≡ₚ arr'
    /\ (8 <= 1 -> arr' = [3; 1; 2; 5; 4; 4; 0; -7])
    /\ (Sorted Z.le [3; 1; 2; 5; 4; 4; 0; -7]
        -> arr' = [3; 1; 2; 5; 4; 4; 0; -7])
    /\ fast_array_sort (Ptr arr') 8 = Some (Ptr arr').
Proof.
  apply (fast_array_sort_correct [3; 1; 2; 5; 4; 4; 0; -7] 8).
  - reflexivity.
  - vm_compute. discriminate.
Defined.

(** A length between 2^31 + 1 and 2^32 becomes negative in
    [(int)len], and [quicksort] is then called on an empty range. *)
Lemma fast_array_sort_beyond_int (arr : list Z) (len : Z) :
  INT_MAX + 1 < len <= 2 ^ 32 ->
  fast_array_sort (Ptr arr) len = Some (Ptr arr).
Proof.
  unfold INT_MAX. intros Hlen. unfold fast_array_sort.
  destruct (Z.leb_spec len 1); [lia|].
  assert (Hcast : to_int len = len - 2 ^ 32).
  { unfold to_int, to_signed.
    replace (len + 2 ^ (32 - 1)) with (len - 2 ^ (32 - 1) + 1 * 2 ^ 32) by lia.
    rewrite Z.mod_add by lia. rewrite Z.mod_small; lia. }
  rewrite Hcast.
  rewrite to_int_id by (unfold is_int, INT_MIN, INT_MAX; lia).
  destruct (length arr) as [|fuel]; cbn [quicksort];
    by destruct (Z.ltb_spec 0 (len - 2 ^ 32 - 1)); [lia|].
Qed.


(** An array of [n + 1] elements, a 1 and then [n] zeros, with
    [n = 2^31]: the call moves nothing and the array is not sorted. *)
Lemma fast_array_sort_one_then_zeros (n : nat) :
  Z.of_nat n = 2 ^ 31 ->
  Z.of_nat (length (1 :: replicate n 0)) = 2 ^ 31 + 1
  /\ Forall is_int64 (1 :: replicate n 0)
  /\ fast_array_sort (Ptr (1 :: replicate n 0)) (2 ^ 31 + 1)
     = Some (Ptr (1 :: replicate n 0))
  /\ ~ Sorted Z.le (1 :: replicate n 0).
Proof.
  intros Hn. split; [|split; [|split]].
  - cbn [length]. rewrite length_replicate. lia.
  - constructor; [unfold is_int64, INT64_MIN, INT64_MAX; lia|].
    apply Forall_replicate. unfold is_int64, INT64_MIN, INT64_MAX. lia.
  - apply fast_array_sort_beyond_int. unfold INT_MAX. lia.
  - destruct n as [|n]; [lia|]. cbn [replicate].
    intros Hs. apply Sorted_inv in Hs as [_ Hhd].
    apply HdRel_inv in Hhd. lia.
Qed.

(** C3 at an array of 2^31 + 1 elements: [(int)len - 1] is INT_MIN, no
    element is moved, and the array is left unsorted. *)
Theorem fast_array_sort_truncates_length :
  Z.of_nat (length large_unsorted) = 2 ^ 31 + 1
  /\ Forall is_int64 large_unsorted
  /\ fast_array_sort (Ptr large_unsorted) (2 ^ 31 + 1)
     = Some (Ptr large_unsorted)
  /\ ~ Sorted Z.le large_unsorted.
Proof.
  unfold large_unsorted.
  apply (fast_array_sort_one_then_zeros (Z.to_nat (2 ^ 31))).
  apply Z2Nat.id. apply Z.pow_nonneg. lia.
Qed.

(** * Further properties of the two libraries *)

(** ** The error slot *)

Lemma until_nul_app_nul (s rest : list byte) :
  Forall (fun c => is_nul c = false) s ->
  until_nul (s ++ NUL :: rest) = s.
Proof.
  induction 1 as [|c s Hc Hs IH]; [done|].
  cbn [app until_nul]. by rewrite Hc, IH.
Qed.

(** [set_error] replaces the whole slot by the message cut at 255
    characters: the slot keeps its 256 bytes, reads back as the first 255
    characters of the message, and nothing of what it held before is
    left. *)
Theorem set_error_truncates (s rest : list byte) (st : state) :
  wf_state st ->
  Forall (fun c => is_nul c = false) s ->
  exists st',
    set_error (s ++ NUL :: rest) st = Some st'
    /\ wf_state st'
    /\ until_nul (get_last_error st') = take 255 s
    /\ strlen (get_last_error st')
       = Some (Z.min (Z.of_nat (length s)) 255)
    /\ (forall st2, wf_state st2 -> set_error (s ++ NUL :: rest) st2 = Some st').
Proof.
  intros Hst Hs.
  assert (Hset : forall st0, wf_state st0 ->
            set_error (s ++ NUL :: rest) st0
            = Some {| last_error := padded 255 s ++ [NUL] |}).
  { intros st0 Hst0. unfold wf_state, set_error, strncpy in *.
    change (Z.to_nat (sizeof_last_error - 1)) with 255%nat.
    change (sizeof_last_error - 1) with 255.
    assert (Hslot : last_error st0
                    = [] ++ take 255 (last_error st0)
                         ++ drop 255 (last_error st0))
      by (by rewrite take_drop).
    assert (Hloop : strncpy_from 255 (last_error st0) (s ++ NUL :: rest) 0
                    = Some (padded 255 s ++ drop 255 (last_error st0))).
    { transitivity (strncpy_from 255
                      ([] ++ take 255 (last_error st0)
                          ++ drop 255 (last_error st0))
                      (s ++ NUL :: rest) 0);
        [by rewrite <- Hslot|].
      rewrite (strncpy_from_spec 255 [] _ _ s rest 0); [done|..|done|done].
      rewrite length_take. lia. }
    rewrite Hloop. cbn [mbind option_bind].
    destruct (drop 255 (last_error st0)) as [|e255 tl] eqn:Ed.
    { apply (f_equal length) in Ed. rewrite length_drop in Ed. cbn in Ed. lia. }
    assert (tl = []) as ->.
    { apply (f_equal length) in Ed. rewrite length_drop in Ed.
      destruct tl; [done|]. cbn in Ed. lia. }
    rewrite (store_app_middle _ _ _ _ NUL); [done|].
    by rewrite padded_length. }
  eexists. split; [by apply Hset|]. split; [|split; [|split; [|done]]].
  - unfold wf_state. cbn. rewrite length_app, padded_length. done.
  - unfold get_last_error, padded. cbn [last_error].
    rewrite <- app_assoc.
    destruct (replicate (255 - length s) NUL ++ [NUL]) as [|z zs] eqn:Ez.
    { apply (f_equal length) in Ez. rewrite length_app in Ez. cbn in Ez. lia. }
    assert (z = NUL) as ->.
    { destruct (255 - length s)%nat; cbn in Ez; congruence. }
    apply until_nul_app_nul. by apply Forall_take.
  - unfold get_last_error, padded. cbn [last_error].
    rewrite <- app_assoc.
    destruct (replicate (255 - length s) NUL ++ [NUL]) as [|z zs] eqn:Ez.
    { apply (f_equal length) in Ez. rewrite length_app in Ez. cbn in Ez. lia. }
    assert (z = NUL) as ->.
    { destruct (255 - length s)%nat; cbn in Ez; congruence. }
    rewrite strlen_app_nul by (by apply Forall_take).
    f_equal. rewrite length_take. lia.
Qed.

Lemma set_error_truncates_witness :
  exists st',
    set_error (literal "Empty array passed to find_max") initial_state
    = Some st'
    /\ wf_state st'
    /\ until_nul (get_last_error st')
       = take 255 (list_byte_of_string "Empty array passed to find_max")
    /\ strlen (get_last_error st')
       = Some (Z.min (Z.of_nat (length (list_byte_of_string
                                          "Empty array passed to find_max")))
                 255)
    /\ (forall st2, wf_state st2 ->
                    set_error (literal "Empty array passed to find_max") st2
                    = Some st').
Proof.
  apply (set_error_truncates
           (list_byte_of_string "Empty array passed to find_max") []
           initial_state).
  - reflexivity.
  - apply literal_no_nul. vm_compute. reflexivity.
Defined.

(** ** Addition and multiplication (Library A) *)

Lemma to_signed_range w x :
  0 < w -> - 2 ^ (w - 1) <= to_signed w x < 2 ^ (w - 1).
Proof.
  intros Hw. unfold to_signed.
  assert (Hpow : 2 ^ w = 2 * 2 ^ (w - 1)).
  { rewrite <- Z.pow_succ_r by lia. f_equal. lia. }
  assert (0 < 2 ^ (w - 1)) by (apply Z.pow_pos_nonneg; lia).
  pose proof (Z.mod_pos_bound (x + 2 ^ (w - 1)) (2 ^ w) ltac:(lia)). lia.
Qed.

Lemma to_signed_congruent w x :
  0 < w -> (to_signed w x - x) mod 2 ^ w = 0.
Proof.
  intros Hw. unfold to_signed.
  assert (0 < 2 ^ w) by (apply Z.pow_pos_nonneg; lia).
  replace ((x + 2 ^ (w - 1)) mod 2 ^ w - 2 ^ (w - 1) - x)
    with ((x + 2 ^ (w - 1)) mod 2 ^ w - (x + 2 ^ (w - 1))) by lia.
  rewrite Zminus_mod, Z.mod_mod, Z.sub_diag by lia. apply Z.mod_0_l. lia.
Qed.

(** [add_numbers] and [multiply_numbers] never fail: the result is an
    [int32_t] congruent to the exact sum (product) modulo 2^32, hence the
    exact sum (product) whenever that fits in an [int32_t]. *)
Theorem add_multiply_wrap (a b : Z) :
  (is_int32 (add_numbers a b)
   /\ (add_numbers a b - (a + b)) mod 2 ^ 32 = 0
   /\ (is_int32 (a + b) -> add_numbers a b = a + b))
  /\ (is_int32 (multiply_numbers a b)
      /\ (multiply_numbers a b - a * b) mod 2 ^ 32 = 0
      /\ (is_int32 (a * b) -> multiply_numbers a b = a * b))
  /\ add_numbers a b = add_numbers b a
  /\ multiply_numbers a b = multiply_numbers b a.
Proof.
  unfold add_numbers, multiply_numbers.
  assert (Hr : forall x, is_int32 (to_int32 x)).
  { intros x. pose proof (to_signed_range 32 x ltac:(lia)) as H.
    unfold is_int32, INT_MIN, INT_MAX, to_int32.
    change (2 ^ (32 - 1)) with (2 ^ 31) in H. lia. }
  repeat split; try apply Hr; try (apply (to_signed_congruent 32); lia);
    try apply to_int32_id.
  - by rewrite Z.add_comm.
  - by rewrite Z.mul_comm.
Qed.

Lemma add_multiply_wrap_witness :
  add_numbers 5 3 = 5 + 3 /\ multiply_numbers 4 7 = 4 * 7.
Proof.
  pose proof (add_multiply_wrap 5 3) as ((_ & _ & Ha) & _).
  pose proof (add_multiply_wrap 4 7) as (_ & (_ & _ & Hm) & _).
  split; [apply Ha | apply Hm]; unfold is_int32, INT_MIN, INT_MAX; lia.
Defined.

(** ** Upper case (both libraries) *)

Lemma is_nul_upper c : is_nul (upper c) = is_nul c.
Proof. by destruct c. Qed.

Lemma upper_idemp c : upper (upper c) = upper c.
Proof. by destruct c. Qed.


(** The loop of [uppercase_string_apart], with [pre] written and [mid] still to
    write. *)
Lemma uppercase_string_apart_loop_spec (mid : list byte) :
  forall fuel (input pre post : list byte) len i,
    i = Z.of_nat (length pre) ->
    len = Z.of_nat (length pre + length mid) ->
    len <= Z.of_nat (length input) -> Z.of_nat (length input) <= SIZE_MAX ->
    (length mid < fuel)%nat ->
    uppercase_string_apart_loop fuel input (pre ++ mid ++ post) len i
    = Some (pre ++ (upper <$> take (length mid) (drop (length pre) input))
              ++ post).
Proof.
  induction mid as [|m mid IH];
    intros fuel input pre post len i Hi Hlen Hin Hmax Hfuel;
    (destruct fuel as [|fuel]; [cbn in Hfuel; lia|]);
    cbn [uppercase_string_apart_loop length] in *.
  - destruct (Z.ltb_spec i len); [lia|]. done.
  - destruct (Z.ltb_spec i len); [|lia].
    rewrite (to_size_t_id (i + 1)) by (unfold is_size_t; lia).
    rewrite Hi at 1. rewrite load_nat.
    destruct (lookup_lt_is_Some_2 input (length pre) ltac:(lia)) as [c Hc].
    rewrite Hc. cbn [mbind option_bind app].
    rewrite (store_app_middle _ _ _ _ _ Hi). cbn [mbind option_bind].
    replace (pre ++ to_char (toupper (uchar c)) :: mid ++ post)
      with ((pre ++ [upper c]) ++ mid ++ post)
      by (by rewrite <- app_assoc).
    rewrite (IH fuel input (pre ++ [upper c]) post len (i + 1));
      try (rewrite length_app; cbn; lia); try lia.
    rewrite (drop_S _ _ _ Hc). cbn [take fmap list_fmap].
    rewrite length_app. cbn [length].
    replace (length pre + 1)%nat with (S (length pre)) by lia.
    by rewrite <- app_assoc.
Qed.

(** A call with room for the result. *)
Lemma uppercase_string_apart_success (chars rest b : list byte) output_size st :
  Forall (fun c => is_nul c = false) chars ->
  Z.of_nat (length (chars ++ NUL :: rest)) <= SIZE_MAX ->
  Z.of_nat (length chars) + 1 <= output_size <= Z.of_nat (length b) ->
  uppercase_string_apart (Ptr (chars ++ NUL :: rest)) (Ptr b) output_size st
  = Some (0, Ptr ((upper <$> chars) ++ NUL :: drop (S (length chars)) b), st).
Proof.
  intros Hchars Hmax Hsize. unfold uppercase_string_apart.
  rewrite (strlen_app_nul _ _ Hchars). cbn [mbind option_bind].
  rewrite length_app in Hmax. cbn [length] in Hmax.
  rewrite to_size_t_id by (unfold is_size_t; lia).
  destruct (Z.gtb_spec (Z.of_nat (length chars) + 1) output_size); [lia|].
  assert (Htake : length (take (length chars) b) = length chars)
    by (rewrite length_take; lia).
  assert (Hloop : uppercase_string_apart_loop (S (length (chars ++ NUL :: rest)))
                    (chars ++ NUL :: rest) b (Z.of_nat (length chars)) 0
                  = Some ((upper <$> chars) ++ drop (length chars) b)).
  { transitivity (uppercase_string_apart_loop (S (length (chars ++ NUL :: rest)))
                    (chars ++ NUL :: rest)
                    ([] ++ take (length chars) b ++ drop (length chars) b)
                    (Z.of_nat (length chars)) 0).
    { cbn [app]. by rewrite take_drop. }
    rewrite (uppercase_string_apart_loop_spec _ _ _ [] _ (Z.of_nat (length chars)) 0);
      try done; rewrite ?length_app; cbn [length]; try lia.
    cbn [app]. rewrite Htake, drop_0. by rewrite take_app_length. }
  rewrite Hloop. cbn [mbind option_bind].
  destruct (drop (length chars) b) as [|b0 tl] eqn:Hdrop.
  { apply (f_equal length) in Hdrop. rewrite length_drop in Hdrop.
    cbn in Hdrop. lia. }
  rewrite (store_app_middle _ _ _ _ NUL) by (by rewrite length_fmap).
  cbn [mbind option_bind]. do 4 f_equal.
  replace (S (length chars)) with (length chars + 1)%nat by lia.
  by rewrite <- drop_drop, Hdrop.
Qed.


(** ** String length (Library A) *)

(** [string_length] returns the number of characters before the terminator
    and leaves the error slot alone; for a null pointer it returns 0, the
    length of the empty string, and only the recorded error tells the two
    apart. *)
Theorem string_length_contract (chars rest : list byte) (st : state) :
  wf_state st ->
  Forall (fun c => is_nul c = false) chars ->
  string_length (Ptr (chars ++ NUL :: rest)) st
  = Some (Z.of_nat (length chars), st)
  /\ string_length (Ptr (NUL :: rest)) st = Some (0, st)
  /\ exists st', string_length NULL st = Some (0, st')
                 /\ error_recorded st' /\ wf_state st'.
Proof.
  intros Hst Hchars. split; [|split; [done|]].
  - unfold string_length. by rewrite (strlen_app_nul _ _ Hchars).
  - unfold string_length.
    destruct (set_error_literal "Null pointer passed to string_length" st Hst)
      as (st' & -> & Hwf & Hrec); [vm_compute; reflexivity | cbn; lia |].
    by exists st'.
Qed.

Lemma string_length_contract_witness :
  string_length (Ptr (literal "hello")) initial_state
  = Some (5, initial_state).
Proof.
  assert (Hst : wf_state initial_state) by reflexivity.
  assert (Hc : Forall (fun c => is_nul c = false) (list_byte_of_string "hello"))
    by (apply literal_no_nul; vm_compute; reflexivity).
  pose proof (string_length_contract (list_byte_of_string "hello") []
                initial_state Hst Hc) as (H & _).
  exact H.
Defined.



(** ** Reversal into a buffer, continued (Library A) *)

(** A call of [reverse_string_apart] with room for the result. *)
Lemma reverse_string_apart_success (chars rest b : list byte) output_size st :
  Forall (fun c => is_nul c = false) chars ->
  Z.of_nat (length (chars ++ NUL :: rest)) <= SIZE_MAX ->
  Z.of_nat (length chars) + 1 <= output_size <= Z.of_nat (length b) ->
  reverse_string_apart (Ptr (chars ++ NUL :: rest)) (Ptr b) output_size st
  = Some (0, Ptr (reverse chars ++ NUL :: drop (S (length chars)) b), st).
Proof.
  intros Hchars Hmax Hsize. unfold reverse_string_apart.
  rewrite (strlen_app_nul _ _ Hchars). cbn [mbind option_bind].
  rewrite length_app in Hmax. cbn [length] in Hmax.
  rewrite to_size_t_id by (unfold is_size_t; lia).
  destruct (Z.gtb_spec (Z.of_nat (length chars) + 1) output_size); [lia|].
  assert (Htake : length (take (length chars) b) = length chars)
    by (rewrite length_take; lia).
  assert (Hloop : reverse_string_apart_loop (S (length (chars ++ NUL :: rest)))
                    (chars ++ NUL :: rest) b (Z.of_nat (length chars)) 0
                  = Some (reverse chars ++ drop (length chars) b)).
  { transitivity (reverse_string_apart_loop (S (length (chars ++ NUL :: rest)))
                    (chars ++ NUL :: rest)
                    ([] ++ take (length chars) b ++ drop (length chars) b)
                    (Z.of_nat (length chars)) 0).
    { cbn [app]. by rewrite take_drop. }
    rewrite (reverse_string_apart_loop_spec _ _ _ [] _ (Z.of_nat (length chars)) 0);
      try done; rewrite ?length_app; cbn [length]; try lia.
    cbn [app]. rewrite Htake. by rewrite take_app_length. }
  rewrite Hloop. cbn [mbind option_bind].
  destruct (drop (length chars) b) as [|b0 tl] eqn:Hdrop.
  { apply (f_equal length) in Hdrop. rewrite length_drop in Hdrop.
    cbn in Hdrop. lia. }
  rewrite (store_app_middle _ _ _ _ NUL) by (by rewrite length_reverse).
  cbn [mbind option_bind]. do 4 f_equal.
  replace (S (length chars)) with (length chars + 1)%nat by lia.
  by rewrite <- drop_drop, Hdrop.
Qed.






(** ** Fibonacci (Library B) *)

Section Fibonacci.

Lemma fib_Z_SS k : fib_Z (S (S k)) = fib_Z k + fib_Z (S k).
Proof.
  unfold fib_Z. cbn [fib_pair]. destruct (fib_pair k) as [a b]. cbn. lia.
Qed.

Lemma fib_Z_nonneg_mono k :
  0 <= fib_Z k /\ fib_Z k <= fib_Z (S k).
Proof.
  induction k as [|k [IH1 IH2]].
  - by vm_compute.
  - rewrite fib_Z_SS. lia.
Qed.

Lemma fib_Z_mono k m : (k <= m)%nat -> fib_Z k <= fib_Z m.
Proof.
  induction 1 as [|m Hkm IH]; [lia|].
  pose proof (fib_Z_nonneg_mono m). lia.
Qed.

Lemma to_int64_add x y : to_int64 (to_int64 x + to_int64 y) = to_int64 (x + y).
Proof.
  unfold to_int64, to_signed. f_equal.
  replace ((x + 2 ^ (64 - 1)) mod 2 ^ 64 - 2 ^ (64 - 1)
           + ((y + 2 ^ (64 - 1)) mod 2 ^ 64 - 2 ^ (64 - 1)) + 2 ^ (64 - 1))
    with ((x + 2 ^ (64 - 1)) mod 2 ^ 64
          + ((y + 2 ^ (64 - 1)) mod 2 ^ 64 - 2 ^ (64 - 1))) by lia.
  rewrite Z.add_mod_idemp_l by lia.
  replace (x + 2 ^ (64 - 1) + ((y + 2 ^ (64 - 1)) mod 2 ^ 64 - 2 ^ (64 - 1)))
    with (x + (y + 2 ^ (64 - 1)) mod 2 ^ 64) by lia.
  rewrite Z.add_mod_idemp_r by lia. f_equal. lia.
Qed.

(** Entered with [a] and [b] the conversions of F(i-2) and F(i-1), the loop
    ends with the conversion of F(n). *)
Lemma fast_fibonacci_loop_spec (todo : nat) :
  forall fuel (n i : nat),
    (2 <= i)%nat -> (i + todo = S n)%nat -> (todo < fuel)%nat ->
    Z.of_nat n < INT_MAX ->
    fast_fibonacci_loop fuel (Z.of_nat n) (Z.of_nat i)
      (to_int64 (fib_Z (i - 2))) (to_int64 (fib_Z (i - 1)))
    = Some (to_int64 (fib_Z n)).
Proof.
  induction todo as [|todo IH]; intros fuel n i Hi Hsum Hfuel Hn;
    (destruct fuel as [|fuel]; [lia|]); cbn [fast_fibonacci_loop].
  - destruct (Z.leb_spec (Z.of_nat i) (Z.of_nat n)); [lia|].
    do 3 f_equal. lia.
  - destruct (Z.leb_spec (Z.of_nat i) (Z.of_nat n)); [|lia].
    rewrite to_int32_id by (unfold is_int32, INT_MIN, INT_MAX in *; lia).
    rewrite to_int64_add.
    replace (fib_Z (i - 2) + fib_Z (i - 1)) with (fib_Z (S i - 1)).
    2:{ destruct i as [|[|i]]; [lia..|]. cbn [Nat.sub].
        rewrite !Nat.sub_0_r. apply fib_Z_SS. }
    replace (Z.of_nat i + 1) with (Z.of_nat (S i)) by lia.
    replace (i - 1)%nat with (S i - 2)%nat by lia.
    apply IH; lia.
Qed.

End Fibonacci.

(** [fast_fibonacci] returns -1 for a negative argument and, for
    0 <= n < INT_MAX, the Fibonacci number F(n) converted to [int64_t]:
    F(n) itself up to n = 92, which is the last one that fits. *)
Theorem fast_fibonacci_contract (n : Z) :
  (n < 0 -> fast_fibonacci n = Some (-1))
  /\ (0 <= n < INT_MAX ->
      fast_fibonacci n = Some (to_int64 (fib_Z (Z.to_nat n))))
  /\ (0 <= n <= 92 ->
      fast_fibonacci n = Some (fib_Z (Z.to_nat n))
      /\ 0 <= fib_Z (Z.to_nat n) <= INT64_MAX)
  /\ INT64_MAX < fib_Z 93.
Proof.
  assert (Hwrap : 0 <= n < INT_MAX ->
            fast_fibonacci n = Some (to_int64 (fib_Z (Z.to_nat n)))).
  { intros Hn. unfold fast_fibonacci.
    destruct (Z.ltb_spec n 0); [lia|].
    destruct (Z.leb_spec n 1).
    - assert (n = 0 \/ n = 1) as [-> | ->] by lia; reflexivity.
    - rewrite <- (Z2Nat.id n) at 2 by lia.
      apply (fast_fibonacci_loop_spec (Z.to_nat n - 1) _ _ 2); lia. }
  split; [|split; [done|split; [|by vm_compute]]].
  - intros Hn. unfold fast_fibonacci. by destruct (Z.ltb_spec n 0); [|lia].
  - intros Hn.
    assert (Hb : 0 <= fib_Z (Z.to_nat n) <= INT64_MAX).
    { split; [apply fib_Z_nonneg_mono|].
      transitivity (fib_Z 92); [apply fib_Z_mono; lia | by vm_compute]. }
    split; [|done]. rewrite Hwrap by (unfold INT_MAX; lia).
    f_equal. apply to_int64_id. unfold is_int64, INT64_MIN, INT64_MAX in *. lia.
Qed.

Lemma fast_fibonacci_contract_witness :
  fast_fibonacci 10 = Some (fib_Z (Z.to_nat 10))
  /\ fast_fibonacci (-1) = Some (-1).
Proof.
  pose proof (fast_fibonacci_contract 10) as (_ & _ & H & _).
  pose proof (fast_fibonacci_contract (-1)) as (Hneg & _).
  split; [apply H; lia | apply Hneg; lia].
Defined.

(** ** Maximum as a return value (Library B) *)

Section ArrayMax.

Lemma fast_array_max_loop_spec (rest : list Z) :
  forall fuel pre len i m,
    i = Z.of_nat (length pre) ->
    Z.of_nat (length (pre ++ rest)) <= SIZE_MAX ->
    (length rest < fuel)%nat ->
    len - i <= Z.of_nat (length rest) ->
    fast_array_max_loop fuel (pre ++ rest) len i m
    = Some (fold_left Z.max (take (Z.to_nat (len - i)) rest) m).
Proof.
  induction rest as [|x rest IH]; intros fuel pre len i m Hi Hmax Hfuel Hlen;
    (destruct fuel as [|fuel]; [cbn in Hfuel; lia|]);
    cbn [fast_array_max_loop].
  - destruct (Z.ltb_spec i len); [cbn in Hlen; lia|]. by rewrite take_nil.
  - rewrite length_app in Hmax. cbn [length] in *.
    destruct (Z.ltb_spec i len) as [Hlt|Hge].
    + rewrite (load_app_middle _ _ _ _ Hi). cbn [mbind option_bind].
      replace (Z.to_nat (len - i)) with (S (Z.to_nat (len - (i + 1)))) by lia.
      cbn [take fold_left].
      rewrite to_size_t_id by (unfold is_size_t; lia).
      replace (pre ++ x :: rest) with ((pre ++ [x]) ++ rest)
        by (by rewrite <- app_assoc).
      assert (Hi' : i + 1 = Z.of_nat (length (pre ++ [x])))
        by (rewrite length_app; cbn; lia).
      assert (Hmax' : Z.of_nat (length ((pre ++ [x]) ++ rest)) <= SIZE_MAX)
        by (rewrite !length_app; cbn; lia).
      destruct (Z.gtb_spec x m);
        rewrite (IH _ _ _ _ _ Hi' Hmax') by lia; do 2 f_equal; lia.
    + replace (Z.to_nat (len - i)) with O by lia. done.
Qed.

Lemma fast_array_max_nonempty (a0 : Z) (a : list Z) len :
  0 < len <= Z.of_nat (length (a0 :: a)) ->
  Z.of_nat (length (a0 :: a)) <= SIZE_MAX ->
  fast_array_max (Ptr (a0 :: a)) len
  = Some (fold_left Z.max (take (Z.to_nat (len - 1)) a) a0).
Proof.
  intros Hlen Hmax. unfold fast_array_max.
  destruct (Z.eqb_spec len 0); [lia|].
  change (load (a0 :: a) 0) with (Some a0). cbn [mbind option_bind].
  apply (fast_array_max_loop_spec a _ [a0] len 1 a0); cbn [length] in *;
    try done; lia.
Qed.

Lemma is_maximum_unique m m' (l : list Z) :
  is_maximum m l -> is_maximum m' l -> m = m'.
Proof.
  intros [Hin Hall] [Hin' Hall']. rewrite Forall_forall in Hall, Hall'.
  specialize (Hall _ Hin'). specialize (Hall' _ Hin). lia.
Qed.

End ArrayMax.

(** [fast_array_max] returns -1 for a null pointer and for length 0, and
    the maximum element of any other span.  -1 is also what it returns for
    a span whose maximum is -1, so the error value cannot be told from that
    result. *)
Theorem fast_array_max_contract (arr : list Z) (len : Z) :
  0 <= len <= Z.of_nat (length arr) ->
  Z.of_nat (length arr) <= SIZE_MAX ->
  fast_array_max NULL len = Some (-1)
  /\ fast_array_max (Ptr arr) 0 = Some (-1)
  /\ (0 < len ->
      exists m, fast_array_max (Ptr arr) len = Some m
                /\ is_maximum m (span arr len))
  /\ (is_maximum (-1) (span arr len) ->
      fast_array_max (Ptr arr) len = fast_array_max NULL len).
Proof.
  intros Hlen Hmax.
  assert (Hmaxi : 0 < len ->
            exists m, fast_array_max (Ptr arr) len = Some m
                      /\ is_maximum m (span arr len)).
  { intros Hpos. destruct arr as [|a0 a]; [cbn in Hlen; lia|].
    rewrite fast_array_max_nonempty by lia. eexists. split; [done|].
    unfold span. replace (Z.to_nat len) with (S (Z.to_nat (len - 1))) by lia.
    cbn [take]. apply fold_left_max_is_maximum. }
  split; [done|]. split; [done|]. split; [done|].
  intros Hneg. destruct (Z.eq_dec len 0) as [->|Hne]; [done|].
  destruct (Hmaxi ltac:(lia)) as (m & -> & Hm).
  by rewrite (is_maximum_unique _ _ _ Hm Hneg).
Qed.

Lemma fast_array_max_contract_witness :
  exists m, fast_array_max (Ptr [1; 2; 7; 4; 5]) 5 = Some m
            /\ is_maximum m (span [1; 2; 7; 4; 5] 5).
Proof.
  assert (Hlen : 0 <= 5 <= Z.of_nat (length [1; 2; 7; 4; 5])) by (cbn; lia).
  assert (Hmax : Z.of_nat (length [1; 2; 7; 4; 5]) <= SIZE_MAX)
    by (vm_compute; discriminate).
  pose proof (fast_array_max_contract [1; 2; 7; 4; 5] 5 Hlen Hmax)
    as (_ & _ & H & _).
  apply H. lia.
Defined.


(** ** Upper case in place (Library B) *)

Section UppercaseInPlace.

(** The loop, entered at [str[i]] with [rest] still ahead. *)
Lemma fast_string_uppercase_loop_spec (rest : list byte) :
  forall fuel pre len i,
    i = Z.of_nat (length pre) ->
    Z.of_nat (length (pre ++ rest)) <= SIZE_MAX ->
    (length rest < fuel)%nat ->
    len - i <= Z.of_nat (length rest) \/ NUL ∈ rest ->
    fast_string_uppercase_loop fuel (pre ++ rest) len i
    = Some (pre ++ (upper <$> until_nul (take (Z.to_nat (len - i)) rest))
              ++ drop (length (until_nul (take (Z.to_nat (len - i)) rest)))
                   rest).
Proof.
  induction rest as [|c rest IH]; intros fuel pre len i Hi Hmax Hfuel Hv;
    (destruct fuel as [|fuel]; [cbn in Hfuel; lia|]);
    cbn [fast_string_uppercase_loop].
  - destruct Hv as [Hv|Hv]; [|by apply not_elem_of_nil in Hv].
    destruct (Z.ltb_spec i len); [cbn in Hv; lia|]. by rewrite take_nil.
  - destruct (Z.ltb_spec i len) as [Hlt|Hge].
    + rewrite (load_app_middle _ _ _ _ Hi). cbn [mbind option_bind].
      replace (Z.to_nat (len - i)) with (S (Z.to_nat (len - (i + 1)))) by lia.
      cbn [take until_nul].
      destruct (is_nul c) eqn:Hc; cbn [negb]; [done|].
      rewrite (store_app_middle _ _ _ _ _ Hi). cbn [mbind option_bind].
      rewrite length_app in Hmax. cbn [length] in *.
      rewrite to_size_t_id by (unfold is_size_t; lia).
      replace (pre ++ to_char (toupper (uchar c)) :: rest)
        with ((pre ++ [upper c]) ++ rest) by (by rewrite <- app_assoc).
      rewrite IH.
      * cbn [fmap list_fmap length drop]. by rewrite <- app_assoc.
      * rewrite length_app. cbn. lia.
      * rewrite !length_app. cbn. lia.
      * lia.
      * destruct Hv as [Hv|Hv]; [left; lia|right].
        apply elem_of_cons in Hv as [Hv|Hv]; [|done].
        apply is_nul_false_neq in Hc. congruence.
    + replace (Z.to_nat (len - i)) with O by lia. done.
Qed.

(** The characters a call converts are again the ones a second call would
    convert. *)
Lemma until_nul_upper_prefix (s : list byte) :
  forall n,
    until_nul (take n ((upper <$> until_nul (take n s))
                         ++ drop (length (until_nul (take n s))) s))
    = upper <$> until_nul (take n s).
Proof.
  induction s as [|c s IH]; intros [|n]; cbn [take until_nul]; try done.
  destruct (is_nul c) eqn:Hc; cbn [fmap list_fmap length drop app take until_nul].
  - by rewrite Hc.
  - rewrite is_nul_upper, Hc. f_equal. apply IH.
Qed.

Lemma until_nul_take_length (s : list byte) :
  forall n, (length (until_nul (take n s)) <= length s)%nat.
Proof.
  induction s as [|c s IH]; intros [|n]; cbn [take until_nul length]; try lia.
  destruct (is_nul c); cbn [length]; [lia|]. specialize (IH n). lia.
Qed.

Lemma elem_of_nul_drop_until_nul (s : list byte) :
  forall n, NUL ∈ s -> NUL ∈ drop (length (until_nul (take n s))) s.
Proof.
  induction s as [|c s IH]; intros [|n] Hin; cbn [take until_nul length drop];
    try done.
  destruct (is_nul c) eqn:Hc; cbn [length drop]; [done|].
  apply IH. apply elem_of_cons in Hin as [Hin|Hin]; [|done].
  apply is_nul_false_neq in Hc. congruence.
Qed.

End UppercaseInPlace.

(** On a non-null buffer [fast_string_uppercase] converts the characters
    before the first terminator among the first [len] bytes and nothing
    else: the terminator, what follows it and what lies beyond [len] stay,
    and so does the length.  A null pointer is left alone. *)
Theorem fast_string_uppercase_contract (str : list byte) (len : Z) :
  Z.of_nat (length str) <= SIZE_MAX ->
  len <= Z.of_nat (length str) \/ NUL ∈ str ->
  exists str',
    fast_string_uppercase (Ptr str) len = Some (Ptr str')
    /\ str' = (upper <$> until_nul (span str len))
                ++ drop (length (until_nul (span str len))) str
    /\ length str' = length str
    /\ until_nul (span str' len) = upper <$> until_nul (span str len)
    /\ fast_string_uppercase NULL len = Some NULL.
Proof.
  intros Hmax Hv. eexists. split; [|split; [done|split; [|split; [|done]]]].
  - unfold fast_string_uppercase.
    rewrite (fast_string_uppercase_loop_spec str _ [] len 0); try done.
    + cbn [mbind option_bind app]. by rewrite Z.sub_0_r.
    + lia.
    + destruct Hv; [left; lia | by right].
  - rewrite length_app, length_fmap, length_drop.
    pose proof (until_nul_take_length str (Z.to_nat len)). unfold span. lia.
  - unfold span. apply until_nul_upper_prefix.
Qed.

Lemma fast_string_uppercase_contract_witness :
  exists str',
    fast_string_uppercase (Ptr (literal "hello")) 3 = Some (Ptr str')
    /\ str' = (upper <$> until_nul (span (literal "hello") 3))
                ++ drop (length (until_nul (span (literal "hello") 3)))
                     (literal "hello")
    /\ length str' = length (literal "hello")
    /\ until_nul (span str' 3) = upper <$> until_nul (span (literal "hello") 3)
    /\ fast_string_uppercase NULL 3 = Some NULL.
Proof.
  apply (fast_string_uppercase_contract (literal "hello") 3).
  - vm_compute. discriminate.
  - left. cbn. lia.
Defined.

(** [fast_string_uppercase] is idempotent: a second call with the same
    length finds nothing left to change. *)
Theorem fast_string_uppercase_idempotent (str : list byte) (len : Z) :
  Z.of_nat (length str) <= SIZE_MAX ->
  len <= Z.of_nat (length str) \/ NUL ∈ str ->
  exists str',
    fast_string_uppercase (Ptr str) len = Some (Ptr str')
    /\ fast_string_uppercase (Ptr str') len = Some (Ptr str').
Proof.
  intros Hmax Hv.
  set (p := until_nul (take (Z.to_nat len) str)).
  assert (Hcall : forall s : list byte,
            Z.of_nat (length s) <= SIZE_MAX ->
            len <= Z.of_nat (length s) \/ NUL ∈ s ->
            fast_string_uppercase (Ptr s) len
            = Some (Ptr ((upper <$> until_nul (take (Z.to_nat len) s))
                           ++ drop (length (until_nul (take (Z.to_nat len) s)))
                                s))).
  { intros s Hs Hvs. unfold fast_string_uppercase.
    rewrite (fast_string_uppercase_loop_spec s _ [] len 0); try done.
    - cbn [mbind option_bind app]. by rewrite Z.sub_0_r.
    - lia.
    - destruct Hvs; [left; lia | by right]. }
  exists ((upper <$> p) ++ drop (length p) str).
  split; [by apply Hcall|].
  assert (Hlen : length ((upper <$> p) ++ drop (length p) str) = length str).
  { rewrite length_app, length_fmap, length_drop.
    pose proof (until_nul_take_length str (Z.to_nat len)). subst p. lia. }
  rewrite Hcall.
  - subst p. rewrite until_nul_upper_prefix.
    rewrite <- list_fmap_compose.
    rewrite drop_app_length' by (by rewrite length_fmap).
    do 3 f_equal. apply list_fmap_ext. intros _ c _. apply upper_idemp.
  - lia.
  - destruct Hv as [Hv|Hv]; [left; lia|right].
    apply elem_of_app. right. by apply elem_of_nul_drop_until_nul.
Qed.

Lemma fast_string_uppercase_idempotent_witness :
  exists str',
    fast_string_uppercase (Ptr (literal "hello")) 3 = Some (Ptr str')
    /\ fast_string_uppercase (Ptr str') 3 = Some (Ptr str').
Proof.
  apply (fast_string_uppercase_idempotent (literal "hello") 3).
  - vm_compute. discriminate.
  - left. cbn. lia.
Defined.

(** ** Memory copy (Library B) *)

Section Copy.

(** [memcpy], with [pre] copied and [mid] still to overwrite. *)
Lemma memcpy_from_spec (mid : list byte) :
  forall (src pre post : list byte) i,
    i = Z.of_nat (length pre) ->
    (length pre + length mid <= length src)%nat ->
    memcpy_from (length mid) (pre ++ mid ++ post) src i
    = Some (pre ++ take (length mid) (drop (length pre) src) ++ post).
Proof.
  induction mid as [|m mid IH]; intros src pre post i Hi Hsrc;
    cbn [memcpy_from length] in *; [done|].
  rewrite Hi at 1. rewrite load_nat.
  destruct (lookup_lt_is_Some_2 src (length pre) ltac:(lia)) as [c Hc].
  rewrite Hc. cbn [mbind option_bind app].
  rewrite (store_app_middle _ _ _ _ _ Hi). cbn [mbind option_bind].
  replace (pre ++ c :: mid ++ post) with ((pre ++ [c]) ++ mid ++ post)
    by (by rewrite <- app_assoc).
  rewrite (IH src (pre ++ [c]) post (i + 1));
    try (rewrite length_app; cbn; lia).
  rewrite (drop_S _ _ _ Hc). cbn [take].
  rewrite length_app. cbn [length].
  replace (length pre + 1)%nat with (S (length pre)) by lia.
  by rewrite <- app_assoc.
Qed.

Lemma memcpy_spec (dest src : list byte) len :
  0 <= len <= Z.of_nat (length dest) ->
  len <= Z.of_nat (length src) ->
  memcpy dest src len = Some (span src len ++ drop (Z.to_nat len) dest).
Proof.
  intros Hd Hs. unfold memcpy, span.
  assert (Htake : length (take (Z.to_nat len) dest) = Z.to_nat len)
    by (rewrite length_take; lia).
  transitivity (memcpy_from (length (take (Z.to_nat len) dest))
                  ([] ++ take (Z.to_nat len) dest ++ drop (Z.to_nat len) dest)
                  src 0).
  { cbn [app]. by rewrite take_drop, Htake. }
  rewrite memcpy_from_spec; [|done|cbn [length]; lia].
  cbn [app length]. by rewrite drop_0, Htake.
Qed.

End Copy.

(** [fast_memory_copy] does nothing when either pointer is null; otherwise
    the first [len] bytes of the destination become the first [len] bytes
    of the source, and the rest of the destination and its length stay. *)
Theorem fast_memory_copy_contract (dest src : list byte) (len : Z) :
  0 <= len <= Z.of_nat (length dest) ->
  len <= Z.of_nat (length src) ->
  (exists dest',
      fast_memory_copy (Ptr dest) (Ptr src) len = Some (Ptr dest')
      /\ span dest' len = span src len
      /\ drop (Z.to_nat len) dest' = drop (Z.to_nat len) dest
      /\ length dest' = length dest)
  /\ fast_memory_copy (Ptr dest) NULL len = Some (Ptr dest)
  /\ fast_memory_copy NULL (Ptr src) len = Some NULL.
Proof.
  intros Hd Hs. split; [|done].
  assert (Hlen : length (span src len) = Z.to_nat len)
    by (unfold span; rewrite length_take; lia).
  exists (span src len ++ drop (Z.to_nat len) dest).
  split; [|split; [|split]].
  - unfold fast_memory_copy. by rewrite memcpy_spec.
  - unfold span at 1. by rewrite take_app_length'.
  - by rewrite drop_app_length'.
  - rewrite length_app, Hlen, length_drop. lia.
Qed.

Lemma fast_memory_copy_contract_witness :
  exists dest',
    fast_memory_copy (Ptr (literal "xxxxxxxx")) (Ptr (literal "hello")) 3
    = Some (Ptr dest')
    /\ span dest' 3 = span (literal "hello") 3
    /\ drop (Z.to_nat 3) dest' = drop (Z.to_nat 3) (literal "xxxxxxxx")
    /\ length dest' = length (literal "xxxxxxxx").
Proof.
  assert (Hd : 0 <= 3 <= Z.of_nat (length (literal "xxxxxxxx"))) by (cbn; lia).
  assert (Hs : 3 <= Z.of_nat (length (literal "hello"))) by (cbn; lia).
  pose proof (fast_memory_copy_contract _ _ _ Hd Hs) as (H & _).
  exact H.
Defined.



(** ** Memory comparison, continued (Library B) *)

Lemma lex_compare_Eq (s1 s2 : list byte) :
  length s1 = length s2 -> lex_compare s1 s2 = Eq -> s1 = s2.
Proof.
  revert s2. induction s1 as [|c1 s1 IH]; intros [|c2 s2] Hlen; try done.
  cbn [lex_compare]. injection Hlen as Hlen.
  destruct (Z.compare_spec (uchar c1) (uchar c2)) as [Heq| |]; try done.
  intros H. f_equal; [|by apply IH].
  unfold uchar in Heq. apply (inj Z.of_N) in Heq.
  apply (f_equal Byte.of_N) in Heq. rewrite !Byte.of_to_N in Heq. congruence.
Qed.

(** [fast_memory_compare] returns 0 exactly when the two spans hold the
    same bytes. *)
Theorem fast_memory_compare_zero_iff_equal (a b : list byte) (len : Z) :
  0 <= len <= Z.of_nat (length a) ->
  0 <= len <= Z.of_nat (length b) ->
  exists r, fast_memory_compare (Ptr a) (Ptr b) len = Some r
            /\ (r = 0 <-> span a len = span b len).
Proof.
  intros Ha Hb. cbn [fast_memory_compare]. unfold memcmp, span.
  destruct (memcmp_from_spec (Z.to_nat len) [] a [] b 0)
    as (r & Hr & _ & Hord & Hz & _); try done; try lia.
  exists r. split; [done|]. split; [|done].
  intros ->. apply lex_compare_Eq; [rewrite !length_take; lia|].
  by rewrite <- Hord.
Qed.

Lemma fast_memory_compare_zero_iff_equal_witness :
  exists r,
    fast_memory_compare (Ptr (literal "abc")) (Ptr (literal "abd")) 2 = Some r
    /\ (r = 0 <-> span (literal "abc") 2 = span (literal "abd") 2).
Proof.
  apply (fast_memory_compare_zero_iff_equal (literal "abc") (literal "abd") 2).
  - cbn. lia.
  - cbn. lia.
Defined.

(** ** Quicksort, continued (Library B) *)

(** One partitioning step of [quicksort] on the segment [body ++ [p]]
    between [pre] and [post]: its last element [p] is the pivot; the step
    leaves [pre] and [post] alone, puts the pivot at index [pi], the
    elements not above it before it and those above it after it. *)
Theorem quicksort_partition_pivot (pre body post : list Z) (p low high : Z) :
  low = Z.of_nat (length pre) ->
  high = low + Z.of_nat (length body) ->
  high <= INT_MAX ->
  exists arr' pi les gts,
    quicksort_partition (pre ++ (body ++ [p]) ++ post) low high
    = Some (arr', pi)
    /\ load (pre ++ (body ++ [p]) ++ post) high = Some p
    /\ arr' = pre ++ les ++ p :: gts ++ post
    /\ low <= pi <= high
    /\ load arr' pi = Some p
    /\ Forall (fun x => x <= p) les
    /\ Forall (fun x => p < x) gts
    /\ body ≡ₚ les ++ gts.
Proof.
  intros Hlow Hhigh Hmax.
  destruct (quicksort_partition_spec pre body p post low high Hlow Hhigh Hmax)
    as (les & gts & Hpart & Hles & Hgts & Hperm).
  apply Permutation_length in Hperm as Hlen. rewrite length_app in Hlen.
  eexists _, _, les, gts. split; [exact Hpart|]. split; [|split; [done|]].
  { replace (pre ++ (body ++ [p]) ++ post) with ((pre ++ body) ++ p :: post)
      by (by rewrite <- !app_assoc).
    apply load_app_middle. rewrite length_app. lia. }
  split; [lia|]. split; [|done].
  replace (pre ++ les ++ p :: gts ++ post)
    with ((pre ++ les) ++ p :: gts ++ post) by (by rewrite <- !app_assoc).
  apply load_app_middle. by rewrite length_app.
Qed.

Lemma quicksort_partition_pivot_witness :
  exists arr' pi les gts,
    quicksort_partition ([9] ++ ([5; 1; 7; 2] ++ [3]) ++ [0]) 1 5
    = Some (arr', pi)
    /\ load ([9] ++ ([5; 1; 7; 2] ++ [3]) ++ [0]) 5 = Some 3
    /\ arr' = [9] ++ les ++ 3 :: gts ++ [0]
    /\ 1 <= pi <= 5
    /\ load arr' pi = Some 3
    /\ Forall (fun x => x <= 3) les
    /\ Forall (fun x => 3 < x) gts
    /\ [5; 1; 7; 2] ≡ₚ les ++ gts.
Proof.
  apply (quicksort_partition_pivot [9] [5; 1; 7; 2] [0] 3 1 5).
  - reflexivity.
  - reflexivity.
  - vm_compute. discriminate.
Defined.

(** [quicksort(arr, low, high)] sorts the elements at the indices [low] to
    [high] among themselves and touches no other element. *)
Theorem quicksort_sorts_segment (fuel : nat) (arr : list Z) (low high : Z) :
  0 <= low <= high + 1 ->
  high < Z.of_nat (length arr) ->
  high < INT_MAX ->
  (Z.to_nat (high - low) <= fuel)%nat ->
  exists arr',
    quicksort fuel arr low high = Some arr'
    /\ length arr' = length arr
    /\ take (Z.to_nat low) arr' = take (Z.to_nat low) arr
    /\ drop (Z.to_nat (high + 1)) arr' = drop (Z.to_nat (high + 1)) arr
    /\ segment arr low high ≡ₚ segment arr' low high
    /\ Sorted Z.le (segment arr' low high).
Proof.
  intros Hlow Hhigh Hmax Hfuel.
  assert (Hsplit : exists pre seg post,
             arr = pre ++ seg ++ post
             /\ length pre = Z.to_nat low
             /\ length seg = Z.to_nat (high + 1 - low)).
  { exists (take (Z.to_nat low) arr), (segment arr low high),
      (drop (Z.to_nat (high + 1)) arr).
    split; [|split].
    - unfold segment.
      rewrite <- (take_drop (Z.to_nat low) arr) at 1. f_equal.
      rewrite <- (take_drop (Z.to_nat (high + 1 - low))
                    (drop (Z.to_nat low) arr)) at 1.
      f_equal. rewrite drop_drop. f_equal. lia.
    - rewrite length_take. lia.
    - unfold segment. rewrite length_take, length_drop. lia. }
  destruct Hsplit as (pre & seg & post & -> & Hpre & Hseg).
  assert (Hsegment : forall s : list Z,
            length s = length seg -> segment (pre ++ s ++ post) low high = s).
  { intros s Hs. unfold segment. rewrite drop_app_length' by done.
    rewrite take_app_length'; [done|lia]. }
  destruct (quicksort_spec fuel pre seg post low high)
    as (seg' & Hq & Hperm & Hsorted); [lia..|].
  apply Permutation_length in Hperm as Hlen.
  exists (pre ++ seg' ++ post).
  split; [done|]. split; [|split; [|split]].
  - rewrite !length_app. lia.
  - by rewrite !take_app_length'.
  - rewrite !(app_assoc pre).
    rewrite !drop_app_length'; [done|rewrite length_app; lia..].
  - rewrite !Hsegment by done. split; [done|].
    by apply StronglySorted_Sorted.
Qed.

Lemma quicksort_sorts_segment_witness :
  exists arr',
    quicksort 4 [9; 5; 1; 7; 2; 3; 0] 1 5 = Some arr'
    /\ length arr' = length [9; 5; 1; 7; 2; 3; 0]
    /\ take (Z.to_nat 1) arr' = take (Z.to_nat 1) [9; 5; 1; 7; 2; 3; 0]
    /\ drop (Z.to_nat (5 + 1)) arr'
       = drop (Z.to_nat (5 + 1)) [9; 5; 1; 7; 2; 3; 0]
    /\ segment [9; 5; 1; 7; 2; 3; 0] 1 5 ≡ₚ segment arr' 1 5
    /\ Sorted Z.le (segment arr' 1 5).
Proof.
  apply (quicksort_sorts_segment 4 [9; 5; 1; 7; 2; 3; 0] 1 5).
  - lia.
  - cbn. lia.
  - vm_compute. reflexivity.
  - cbn. lia.
Defined.

(** ** Hash, continued (Library B) *)

Lemma until_nul_take_terminated (chars rest : list byte) :
  forall n,
    Forall (fun c => is_nul c = false) chars ->
    (length chars <= n)%nat ->
    until_nul (take n (chars ++ NUL :: rest)) = chars.
Proof.
  induction chars as [|c chars IH]; intros n Hchars Hn.
  - destruct n; [done|]. cbn [app take until_nul]. done.
  - destruct n as [|n]; [cbn in Hn; lia|].
    apply Forall_cons in Hchars as [Hc Hchars].
    cbn [app take until_nul]. rewrite Hc. f_equal.
    apply IH; [done|]. cbn in Hn. lia.
Qed.

Lemma fnv1a_range (bytes : list byte) : 0 <= fnv1a bytes < 2 ^ 64.
Proof.
  unfold fnv1a.
  assert (H : forall h, 0 <= h < 2 ^ 64 ->
              0 <= fold_left fnv1a_step bytes h < 2 ^ 64).
  { induction bytes as [|c bytes IH]; intros h Hh; cbn [fold_left]; [done|].
    apply IH. unfold fnv1a_step. apply Z.mod_pos_bound. lia. }
  apply H. lia.
Qed.

(** On a terminated string the hash depends on the characters before the
    terminator only: every length that reaches the terminator gives the
    hash of [strlen] bytes, whatever follows the terminator; and the hash
    is a 64-bit unsigned value. *)
Theorem fast_string_hash_terminated (chars rest : list byte) (len : Z) :
  Forall (fun c => is_nul c = false) chars ->
  Z.of_nat (length (chars ++ NUL :: rest)) <= SIZE_MAX ->
  Z.of_nat (length chars) <= len ->
  fast_string_hash (Ptr (chars ++ NUL :: rest)) len = Some (fnv1a chars)
  /\ fast_string_hash (Ptr (chars ++ NUL :: rest)) (Z.of_nat (length chars))
     = Some (fnv1a chars)
  /\ 0 <= fnv1a chars <= SIZE_MAX.
Proof.
  intros Hchars Hmax Hlen.
  assert (Hhash : forall n, Z.of_nat (length chars) <= n ->
            fast_string_hash (Ptr (chars ++ NUL :: rest)) n
            = Some (fnv1a chars)).
  { intros n Hn. unfold fast_string_hash.
    rewrite (fast_string_hash_loop_spec (chars ++ NUL :: rest) _ [] n 0);
      try done.
    - rewrite Z.sub_0_r, until_nul_take_terminated; [done..|lia].
    - lia.
    - right. apply elem_of_app. right. by left. }
  split; [by apply Hhash|]. split; [apply Hhash; lia|].
  pose proof (fnv1a_range chars). unfold SIZE_MAX. lia.
Qed.

Lemma fast_string_hash_terminated_witness :
  fast_string_hash (Ptr (list_byte_of_string "hello" ++ NUL :: [x41])) 100
  = Some (fnv1a (list_byte_of_string "hello")).
Proof.
  apply (fast_string_hash_terminated (list_byte_of_string "hello") [x41] 100).
  - apply literal_no_nul. vm_compute. reflexivity.
  - vm_compute. discriminate.
  - cbn. lia.
Defined.

(** ** Sums, continued (both libraries) *)

(** The sums are exact modulo the width of the result: [sum_array] returns
    the sum of the span converted to [int32_t] and [fast_array_sum] the sum
    converted to [int64_t], so each returns the sum itself whenever the sum
    fits, even if an intermediate value did not; when it fits in an
    [int32_t] the two libraries agree. *)
Theorem sums_exact_when_they_fit (arr : list Z) (len : Z) (st : state) :
  0 <= len <= Z.of_nat (length arr) ->
  Z.of_nat (length arr) <= SIZE_MAX ->
  sum_array (Ptr arr) len st
  = Some (to_int32 (foldr Z.add 0 (span arr len)), st)
  /\ fast_array_sum (Ptr arr) len
     = Some (to_int64 (foldr Z.add 0 (span arr len)))
  /\ (is_int64 (foldr Z.add 0 (span arr len)) ->
      fast_array_sum (Ptr arr) len = Some (foldr Z.add 0 (span arr len)))
  /\ (is_int32 (foldr Z.add 0 (span arr len)) ->
      sum_array (Ptr arr) len st = Some (foldr Z.add 0 (span arr len), st)
      /\ fast_array_sum (Ptr arr) len = Some (foldr Z.add 0 (span arr len))).
Proof.
  intros Hlen Hmax.
  assert (HA : sum_array (Ptr arr) len st
               = Some (to_int32 (foldr Z.add 0 (span arr len)), st)).
  { unfold sum_array. rewrite sum_array_loop_span by done.
    cbn [mbind option_bind]. do 2 f_equal.
    apply (accumulate_to_signed 32). lia. }
  assert (HB : fast_array_sum (Ptr arr) len
               = Some (to_int64 (foldr Z.add 0 (span arr len)))).
  { unfold fast_array_sum. rewrite fast_array_sum_loop_span by done.
    f_equal. apply (accumulate_to_signed 64). lia. }
  split; [done|]. split; [done|]. split.
  - intros Hfit. by rewrite HB, to_int64_id.
  - intros Hfit. rewrite HA, HB, to_int32_id by done.
    split; [done|]. f_equal. apply to_int64_id.
    unfold is_int32, is_int64, INT_MIN, INT_MAX, INT64_MIN, INT64_MAX in *.
    lia.
Qed.

Lemma sums_exact_when_they_fit_witness :
  sum_array (Ptr [2147483647; 1; -5]) 3 initial_state
  = Some (foldr Z.add 0 (span [2147483647; 1; -5] 3), initial_state)
  /\ fast_array_sum (Ptr [2147483647; 1; -5]) 3
     = Some (foldr Z.add 0 (span [2147483647; 1; -5] 3)).
Proof.
  assert (Hlen : 0 <= 3 <= Z.of_nat (length [2147483647; 1; -5]))
    by (cbn; lia).
  assert (Hmax : Z.of_nat (length [2147483647; 1; -5]) <= SIZE_MAX)
    by (vm_compute; discriminate).
  pose proof (sums_exact_when_they_fit [2147483647; 1; -5] 3 initial_state
                Hlen Hmax) as (_ & _ & _ & H).
  apply H. vm_compute. split; discriminate.
Defined.

(** ** Greatest common divisor, continued (Library B) *)

Lemma fast_gcd_abs (a b : Z) :
  INT64_MIN < a <= INT64_MAX ->
  INT64_MIN < b <= INT64_MAX ->
  fast_gcd a b = Some (Z.gcd a b).
Proof.
  intros Ha Hb. unfold fast_gcd, INT64_MIN, INT64_MAX in *.
  assert (Habs : forall x, - 2 ^ 63 < x <= 2 ^ 63 - 1 ->
            (if x <? 0 then to_int64 (- x) else x) = Z.abs x).
  { intros x Hx. destruct (Z.ltb_spec x 0); [|lia].
    rewrite to_int64_id by (unfold is_int64, INT64_MIN, INT64_MAX; lia). lia. }
  rewrite !Habs by done.
  rewrite fast_gcd_loop_spec by (unfold INT64_MAX; lia).
  by rewrite Z.gcd_abs_l, Z.gcd_abs_r.
Qed.

(** Away from INT64_MIN, [fast_gcd] is symmetric and ignores signs, and
    its result is the non-negative common divisor of [a] and [b] that
    every common divisor divides; it is 0 only for gcd(0, 0). *)
Theorem fast_gcd_properties (a b : Z) :
  INT64_MIN < a <= INT64_MAX ->
  INT64_MIN < b <= INT64_MAX ->
  exists g,
    fast_gcd a b = Some g
    /\ fast_gcd b a = Some g
    /\ fast_gcd (- a) b = Some g
    /\ 0 <= g
    /\ (g | a) /\ (g | b)
    /\ (forall d, (d | a) -> (d | b) -> (d | g))
    /\ (g = 0 <-> a = 0 /\ b = 0).
Proof.
  intros Ha Hb. exists (Z.gcd a b).
  split; [by apply fast_gcd_abs|].
  split; [by rewrite fast_gcd_abs, Z.gcd_comm|].
  split.
  { rewrite fast_gcd_abs; [by rewrite Z.gcd_opp_l|..];
      unfold INT64_MIN, INT64_MAX in *; lia. }
  split; [apply Z.gcd_nonneg|].
  split; [apply Z.gcd_divide_l|]. split; [apply Z.gcd_divide_r|].
  split; [intros d; apply Z.gcd_greatest|].
  apply Z.gcd_eq_0.
Qed.

Lemma fast_gcd_properties_witness :
  exists g,
    fast_gcd 54 (-24) = Some g
    /\ fast_gcd (-24) 54 = Some g
    /\ fast_gcd (- 54) (-24) = Some g
    /\ 0 <= g
    /\ (g | 54) /\ (g | -24)
    /\ (forall d, (d | 54) -> (d | -24) -> (d | g))
    /\ (g = 0 <-> 54 = 0 /\ -24 = 0).
Proof.
  apply (fast_gcd_properties 54 (-24)); unfold INT64_MIN, INT64_MAX; lia.
Defined.

(** ** The tests of Library A *)

Lemma factorial_too_large (n : Z) (st : state) :
  wf_state st -> 20 < n ->
  exists st', factorial n st = Some (0, st')
              /\ wf_state st' /\ error_recorded st'.
Proof.
  intros Hst Hn. unfold factorial. destruct (Z.gtb_spec n 20); [|lia].
  destruct (set_error_literal "Factorial input too large (max 20)" st Hst)
    as (st' & -> & Hwf & Hrec); [vm_compute; reflexivity | cbn; lia |].
  by exists st'.
Qed.

(** The assertions of [test_math_operations], [test_string_operations],
    [test_array_operations] and [test_error_handling] hold in every
    well-formed state of the library and whatever the uninitialised
    [buffer] and [max_val] of the tests hold: each test runs to its end and
    leaves the state well formed for the next. *)
Theorem tests_pass (buffer100 buffer10 : list byte) (max_val : Z)
    (st : state) :
  wf_state st ->
  length buffer100 = 100%nat ->
  length buffer10 = 10%nat ->
  (exists st', test_math_operations st = Some (true, st') /\ wf_state st')
  /\ test_string_operations buffer100 st = Some (true, st)
  /\ test_array_operations max_val st = Some (true, st)
  /\ (exists st', test_error_handling buffer10 st = Some (true, st')
                  /\ wf_state st').
Proof.
  intros Hst H100 H10.
  assert (Hhello : Forall (fun c => is_nul c = false)
                     (list_byte_of_string "hello"))
    by (apply literal_no_nul; vm_compute; reflexivity).
  split; [|split; [|split]].
  - unfold test_math_operations.
    destruct (factorial_too_large 25 st Hst ltac:(lia))
      as (st' & Hf & Hwf & _).
    change (add_numbers 5 3 =? 8) with true.
    change (multiply_numbers 4 7 =? 28) with true.
    change (factorial 5 st) with (Some (120, st)).
    cbn -[factorial].
    change (factorial 0 st) with (Some (1, st)).
    cbn -[factorial]. rewrite Hf. cbn. by exists st'.
  - assert (Hcmp1 : forall tl,
              strcmp (reverse (list_byte_of_string "hello") ++ NUL :: tl)
                (list_byte_of_string "olleh" ++ [NUL]) = Some 0)
      by (intros; reflexivity).
    assert (Hcmp2 : forall tl,
              strcmp ((upper <$> list_byte_of_string "hello") ++ NUL :: tl)
                (list_byte_of_string "HELLO" ++ [NUL]) = Some 0)
      by (intros; reflexivity).
    unfold test_string_operations, literal.
    rewrite (reverse_string_apart_success _ [] _ _ _ Hhello);
      [|vm_compute; discriminate | rewrite H100; cbn; lia].
    cbn [mbind option_bind assert deref Z.eqb].
    rewrite Hcmp1. cbn [mbind option_bind assert Z.eqb].
    rewrite (uppercase_string_apart_success _ [] _ _ _ Hhello);
      [|vm_compute; discriminate
       |rewrite length_app, length_reverse; cbn [length];
        rewrite length_drop, H100; cbn; lia].
    cbn [mbind option_bind assert deref Z.eqb].
    rewrite Hcmp2. reflexivity.
  - reflexivity.
  - unfold test_error_handling.
    destruct (factorial_too_large 25 st Hst ltac:(lia))
      as (st1 & -> & Hwf1 & (n1 & Hn1 & Hpos1)).
    cbn [mbind option_bind]. rewrite Hn1. cbn [mbind option_bind].
    destruct (Z.gtb_spec n1 0); [|lia]. cbn [assert].
    unfold reverse_string_apart.
    destruct (set_error_literal "Null pointer passed to reverse_string"
                st1 Hwf1)
      as (st2 & -> & Hwf2 & (n2 & Hn2 & Hpos2));
      [vm_compute; reflexivity | cbn; lia |].
    cbn [mbind option_bind assert Z.eqb]. rewrite Hn2.
    cbn [mbind option_bind]. destruct (Z.gtb_spec n2 0); [|lia].
    by exists st2.
Qed.

Lemma tests_pass_witness :
  test_string_operations (replicate 100 xff) initial_state
  = Some (true, initial_state)
  /\ test_array_operations 0 initial_state = Some (true, initial_state).
Proof.
  assert (Hst : wf_state initial_state) by reflexivity.
  assert (H100 : length (replicate 100 xff) = 100%nat) by reflexivity.
  assert (H10 : length (replicate 10 xff) = 10%nat) by reflexivity.
  pose proof (tests_pass (replicate 100 xff) (replicate 10 xff) 0
                initial_state Hst H100 H10) as (_ & Hs & Ha & _).
  split; [exact Hs | exact Ha].
Defined.

(** ** Upper case in the two libraries *)



(** * Calls whose pointers may overlap (Library A) *)

(** ** Loads and stores in a memory *)

Section MemoryFacts.
Context {A : Type}.
Implicit Types (mem : list (list A)) (p q : addr) (v : A).

Lemma load_at_is_Some mem q :
  is_Some (load_at mem q)
  <-> exists n : nat, (length <$> mem) !! q.1 = Some n /\ 0 <= q.2 < Z.of_nat n.
Proof.
  unfold load_at, load. rewrite list_lookup_fmap.
  destruct (mem !! q.1) as [obj|]; cbn; [|split; [by intros []|by intros (? & ? & ?)]].
  destruct (Z.ltb_spec q.2 0).
  - split; [by intros []|]. intros (n & [= <-] & ?). lia.
  - rewrite lookup_lt_is_Some. split.
    + intros Hlt. exists (length obj). split; [done|lia].
    + intros (n & [= <-] & ?). lia.
Qed.

Lemma store_at_inv mem p v mem' :
  store_at mem p v = Some mem' ->
  exists obj, mem !! p.1 = Some obj
              /\ 0 <= p.2 < Z.of_nat (length obj)
              /\ mem' = <[p.1 := <[Z.to_nat p.2 := v]> obj]> mem.
Proof.
  unfold store_at, store. destruct (mem !! p.1) as [obj|]; [|done]. cbn.
  destruct (Z.ltb_spec p.2 0); [done|].
  destruct (Z.leb_spec (Z.of_nat (length obj)) p.2); [done|]. cbn.
  intros [= <-]. exists obj. split; [done|]. split; [lia|done].
Qed.

Lemma store_at_other_object mem p v mem' (b : nat) :
  store_at mem p v = Some mem' -> b <> p.1 -> mem' !! b = mem !! b.
Proof.
  intros (obj & _ & _ & ->)%store_at_inv Hb. by apply list_lookup_insert_ne.
Qed.

Lemma store_at_is_Some mem p v :
  is_Some (load_at mem p) -> is_Some (store_at mem p v).
Proof.
  unfold load_at, store_at, load, store.
  destruct (mem !! p.1) as [obj|]; [|by intros []]. cbn.
  destruct (Z.ltb_spec p.2 0); [by intros []|].
  intros Hlt%lookup_lt_is_Some.
  destruct (Z.leb_spec (Z.of_nat (length obj)) p.2); [lia|]. by eexists.
Qed.

Lemma load_at_store_at_eq mem p v mem' :
  store_at mem p v = Some mem' -> load_at mem' p = Some v.
Proof.
  intros (obj & Hobj & Hp & ->)%store_at_inv. unfold load_at.
  rewrite list_lookup_insert_eq by (by eapply lookup_lt_Some). cbn.
  unfold load. destruct (Z.ltb_spec p.2 0); [lia|].
  apply list_lookup_insert_eq. lia.
Qed.

Lemma load_at_store_at_ne mem p v mem' q :
  store_at mem p v = Some mem' -> q <> p -> load_at mem' q = load_at mem q.
Proof.
  intros (obj & Hobj & Hp & ->)%store_at_inv Hne. unfold load_at.
  destruct (decide (q.1 = p.1)) as [Heq|Hblock].
  - rewrite Heq, Hobj.
    rewrite list_lookup_insert_eq by (by eapply lookup_lt_Some). cbn.
    unfold load. destruct (Z.ltb_spec q.2 0); [done|].
    apply list_lookup_insert_ne. intros Hoff.
    apply Hne. destruct q, p; cbn in *. f_equal; [done|lia].
  - by rewrite list_lookup_insert_ne.
Qed.

Lemma store_at_same_sizes mem p v mem' :
  store_at mem p v = Some mem' -> same_sizes mem mem'.
Proof.
  intros (obj & Hobj & Hp & ->)%store_at_inv. unfold same_sizes.
  rewrite list_fmap_insert, length_insert.
  apply list_insert_id. by rewrite list_lookup_fmap, Hobj.
Qed.

Lemma same_sizes_load_at mem mem' q :
  same_sizes mem mem' -> is_Some (load_at mem' q) <-> is_Some (load_at mem q).
Proof. intros H. rewrite !load_at_is_Some. unfold same_sizes in H. by rewrite H. Qed.

Lemma same_sizes_object_size mem mem' q :
  same_sizes mem mem' -> object_size mem' q = object_size mem q.
Proof.
  unfold same_sizes, object_size. intros H.
  apply (f_equal (fun l => l !! q.1)) in H. rewrite !list_lookup_fmap in H.
  destruct (mem' !! q.1), (mem !! q.1); cbn in *; congruence.
Qed.

Lemma same_sizes_trans mem1 mem2 mem3 :
  same_sizes mem1 mem2 -> same_sizes mem2 mem3 -> same_sizes mem1 mem3.
Proof. unfold same_sizes. congruence. Qed.

Lemma shift_shift_neq p i j : i <> j -> shift p i <> shift p j.
Proof. unfold shift. intros Hne [= H]. lia. Qed.

End MemoryFacts.

(** ** The loops of [reverse_string] and [uppercase_string] *)

Section TransformLoop.

(** The two loops store at [output[i]] a byte read from [input]: which
    byte ([src]) and what is made of it ([conv]) is all they differ in. *)
Variable loop :
  nat -> list (list byte) -> addr -> addr -> Z -> Z -> option (list (list byte)).
Variable src : Z -> Z -> Z.
Variable conv : byte -> byte.
Hypothesis loop_S : forall fuel mem input output len i,
    loop (S fuel) mem input output len i
    = if i <? len then
        c ← load_at mem (shift input (src len i));
        mem1 ← store_at mem (shift output i) (conv c);
        loop fuel mem1 input output len (to_size_t (i + 1))
      else Some mem.
Hypothesis loop_O : forall mem input output len i,
    loop O mem input output len i = None.
Hypothesis src_range : forall len i,
    0 <= i < len -> len <= SIZE_MAX -> 0 <= src len i < len.

(** From index [i] on, the loop returns; it changes only the cells
    [output[i..len-1]] and no size; and when no cell it writes is a cell of
    [input[0..len-1]], it leaves in each the converted source byte. *)
Lemma transform_loop_spec (todo : nat) :
  forall fuel mem input output len i,
    0 <= i -> i + Z.of_nat todo = len -> len <= SIZE_MAX ->
    (todo < fuel)%nat ->
    (forall j, 0 <= j < len -> is_Some (load_at mem (shift input j))) ->
    (forall j, i <= j < len -> is_Some (load_at mem (shift output j))) ->
    exists mem',
      loop fuel mem input output len i = Some mem'
      /\ same_sizes mem mem'
      /\ changed_only mem mem' (shift output i) (len - i)
      /\ ((forall j j', 0 <= j < len -> i <= j' < len ->
                        shift input j <> shift output j') ->
          forall j, i <= j < len ->
                    load_at mem' (shift output j)
                    = conv <$> load_at mem (shift input (src len j))).
Proof.
  induction todo as [|todo IH];
    intros fuel mem input output len i Hi Hlen Hmax Hfuel Hin Hout;
    (destruct fuel as [|fuel]; [lia|]); rewrite loop_S.
  - destruct (Z.ltb_spec i len); [lia|]. exists mem.
    split; [done|]. split; [done|]. split; [done|]. intros _ j Hj. lia.
  - destruct (Z.ltb_spec i len); [|lia].
    pose proof (src_range len i ltac:(lia) Hmax) as Hsrc.
    destruct (Hin (src len i) Hsrc) as [c Hc]. rewrite Hc.
    cbn [mbind option_bind].
    destruct (store_at_is_Some mem (shift output i) (conv c)
                (Hout i ltac:(lia))) as [mem1 Hstore].
    rewrite Hstore. cbn [mbind option_bind].
    rewrite to_size_t_id by (unfold is_size_t; lia).
    pose proof (store_at_same_sizes _ _ _ _ Hstore) as Hsizes.
    destruct (IH fuel mem1 input output len (i + 1))
      as (mem' & Hloop & Hsizes' & Hframe & Hcontents); try lia.
    { intros j Hj. apply (same_sizes_load_at _ _ _ Hsizes). by apply Hin. }
    { intros j Hj. apply (same_sizes_load_at _ _ _ Hsizes). apply Hout. lia. }
    exists mem'. split; [done|].
    split; [by eapply same_sizes_trans|]. split.
    + intros q Hq. rewrite Hframe.
      * apply (load_at_store_at_ne _ _ _ _ _ Hstore).
        intros ->. apply Hq. unfold within, shift. cbn. lia.
      * intros [Hb Ho]. apply Hq. unfold within, shift in *. cbn in *. lia.
    + intros Hapart j Hj.
      destruct (Z.eq_dec j i) as [->|Hne].
      * rewrite Hframe.
        -- rewrite (load_at_store_at_eq _ _ _ _ Hstore). by rewrite Hc.
        -- intros [_ Ho]. unfold shift in Ho. cbn in Ho. lia.
      * rewrite Hcontents; [|intros; apply Hapart; lia|lia].
        f_equal. apply (load_at_store_at_ne _ _ _ _ _ Hstore).
        apply Hapart; [|lia]. apply src_range; lia.
Qed.

(** The loop stores into the object of [output] only. *)
Lemma transform_loop_other_objects (b : nat) :
  forall fuel mem input output len i mem',
    loop fuel mem input output len i = Some mem' ->
    b <> output.1 ->
    mem' !! b = mem !! b.
Proof.
  induction fuel as [|fuel IH]; intros mem input output len i mem' Hloop Hb.
  - by rewrite loop_O in Hloop.
  - rewrite loop_S in Hloop. destruct (i <? len); [|by injection Hloop as <-].
    apply bind_Some in Hloop as (c & _ & Hloop).
    apply bind_Some in Hloop as (mem1 & Hstore & Hloop).
    rewrite (IH _ _ _ _ _ _ Hloop Hb).
    by apply (store_at_other_object _ _ _ _ _ Hstore).
Qed.

End TransformLoop.

Lemma reverse_string_loop_at fuel mem input output len :
  0 <= len <= SIZE_MAX -> (Z.to_nat len < fuel)%nat ->
  (forall j, 0 <= j < len -> is_Some (load_at mem (shift input j))) ->
  (forall j, 0 <= j < len -> is_Some (load_at mem (shift output j))) ->
  exists mem',
    reverse_string_loop fuel mem input output len 0 = Some mem'
    /\ same_sizes mem mem'
    /\ changed_only mem mem' output len
    /\ ((forall j j', 0 <= j < len -> 0 <= j' < len ->
                      shift input j <> shift output j') ->
        forall j, 0 <= j < len ->
                  load_at mem' (shift output j)
                  = load_at mem (shift input (len - 1 - j))).
Proof.
  intros Hlen Hfuel Hin Hout.
  destruct (transform_loop_spec reverse_string_loop
              (fun len i => to_size_t (len - 1 - i)) (fun c => c)
              ltac:(done)
              ltac:(intros l i ? ?; cbv beta; rewrite to_size_t_id;
                    unfold is_size_t; lia)
              (Z.to_nat len) fuel mem input output len 0)
    as (mem' & Hloop & Hsizes & Hframe & Hcontents); try done; try lia.
  exists mem'. split; [done|]. split; [done|]. split.
  - intros q Hq. apply Hframe. intros [Hb Ho]. apply Hq.
    unfold within, shift in *. cbn in *. lia.
  - intros Hapart j Hj. rewrite (Hcontents Hapart j Hj).
    rewrite to_size_t_id by (unfold is_size_t; lia).
    by destruct (load_at mem (shift input (len - 1 - j))).
Qed.

Lemma uppercase_string_loop_at fuel mem input output len :
  0 <= len <= SIZE_MAX -> (Z.to_nat len < fuel)%nat ->
  (forall j, 0 <= j < len -> is_Some (load_at mem (shift input j))) ->
  (forall j, 0 <= j < len -> is_Some (load_at mem (shift output j))) ->
  exists mem',
    uppercase_string_loop fuel mem input output len 0 = Some mem'
    /\ same_sizes mem mem'
    /\ changed_only mem mem' output len
    /\ ((forall j j', 0 <= j < len -> 0 <= j' < len ->
                      shift input j <> shift output j') ->
        forall j, 0 <= j < len ->
                  load_at mem' (shift output j)
                  = upper <$> load_at mem (shift input j)).
Proof.
  intros Hlen Hfuel Hin Hout.
  destruct (transform_loop_spec uppercase_string_loop
              (fun len i => i) upper ltac:(done) ltac:(intros; lia)
              (Z.to_nat len) fuel mem input output len 0)
    as (mem' & Hloop & Hsizes & Hframe & Hcontents); try done; try lia.
  exists mem'. split; [done|]. split; [done|]. split; [|done].
  intros q Hq. apply Hframe. intros [Hb Ho]. apply Hq.
  unfold within, shift in *. cbn in *. lia.
Qed.

(** ** Strings and the error slot in a memory *)

Section StringsInMemory.
Implicit Types (mem : list (list byte)) (p q : addr).

Lemma load_at_drop mem p obj (j : nat) :
  mem !! p.1 = Some obj -> 0 <= p.2 ->
  load_at mem (shift p (Z.of_nat j)) = drop (Z.to_nat p.2) obj !! j.
Proof.
  intros Hobj Hp. unfold load_at, shift. cbn. rewrite Hobj. cbn.
  unfold load. destruct (Z.ltb_spec (p.2 + Z.of_nat j) 0); [lia|].
  rewrite lookup_drop. f_equal. lia.
Qed.

(** What [strlen] finds at an address is a string there. *)
Lemma strlen_at_inv mem p len :
  strlen_at mem p = Some len ->
  exists chars,
    string_at mem p chars
    /\ len = Z.of_nat (length chars)
    /\ 0 <= p.2
    /\ p.2 + len < Z.of_nat (object_size mem p).
Proof.
  unfold strlen_at, object_size.
  destruct (mem !! p.1) as [obj|] eqn:Hobj; [|done]. cbn.
  destruct (Z.ltb_spec p.2 0); [done|]. intros Hlen.
  destruct (strlen_Some_inv _ _ Hlen) as (chars & rest & Hdrop & -> & Hchars).
  exists chars. split; [split; [done|]|split; [done|split; [done|]]].
  - intros j x Hj. rewrite (load_at_drop _ _ _ _ Hobj) by done.
    rewrite Hdrop.
    replace (chars ++ NUL :: rest) with ((chars ++ [NUL]) ++ rest)
      by (by rewrite <- app_assoc).
    by apply lookup_app_l_Some.
  - apply (f_equal length) in Hdrop.
    rewrite length_drop, length_app in Hdrop. cbn [length] in Hdrop. lia.
Qed.

Lemma cells_at_is_Some {A} (m : list (list A)) p (l : list A) j :
  cells_at m p l -> 0 <= j < Z.of_nat (length l) ->
  is_Some (load_at m (shift p j)).
Proof.
  intros Hcells Hj.
  destruct (lookup_lt_is_Some_2 l (Z.to_nat j) ltac:(lia)) as [x Hx].
  exists x. rewrite <- (Z2Nat.id j) by lia. by apply Hcells.
Qed.

Lemma cells_at_app_l {A} (m : list (list A)) p (l1 l2 : list A) :
  cells_at m p (l1 ++ l2) -> cells_at m p l1.
Proof. intros H j x Hj. apply H. by apply lookup_app_l_Some. Qed.

(** Reporting a message of 1 to 255 characters in a memory: only the error
    slot changes. *)
Lemma set_error_at_literal (msg : string) mem :
  wf_memory mem ->
  forallb (fun c => negb (is_nul c)) (list_byte_of_string msg) = true ->
  (0 < length (list_byte_of_string msg) <= 255)%nat ->
  exists mem',
    set_error_at (literal msg) mem = Some mem'
    /\ wf_memory mem' /\ error_recorded_at mem'
    /\ same_sizes mem mem'
    /\ (forall q, q.1 <> error_slot -> load_at mem' q = load_at mem q).
Proof.
  intros (st & Hst & Hwf) Hmsg Hlen. unfold set_error_at. rewrite Hst.
  cbn [mbind option_bind].
  destruct (set_error_literal msg st Hwf Hmsg Hlen) as (st' & -> & Hwf' & Hrec).
  cbn [mbind option_bind]. eexists. split; [done|].
  unfold slot_state in Hst.
  destruct (mem !! error_slot) as [slot|] eqn:Hslot; [|done].
  injection Hst as <-.
  assert (Hst' : slot_state (<[error_slot := last_error st']> mem) = Some st').
  { unfold slot_state.
    rewrite list_lookup_insert_eq by (by eapply lookup_lt_Some).
    cbn. by destruct st'. }
  split; [by exists st'|]. split; [by exists st'|]. split.
  - unfold same_sizes. rewrite list_fmap_insert.
    apply list_insert_id. rewrite list_lookup_fmap, Hslot. cbn.
    unfold wf_state in *. cbn in *. congruence.
  - intros q Hq. unfold load_at. by rewrite list_lookup_insert_ne.
Qed.

End StringsInMemory.

(** ** The contract of [reverse_string] and [uppercase_string] *)

Section StringCall.

(** The two functions differ in their loop and their messages. *)
Variable call :
  ptr addr -> ptr addr -> Z -> list (list byte) -> option (Z * list (list byte)).
Variable loop :
  nat -> list (list byte) -> addr -> addr -> Z -> Z -> option (list (list byte)).
Variable content : list byte -> list byte.
Variables msg_small msg_null : string.
Hypothesis call_eq : forall input output output_size mem,
    call input output output_size mem
    = match input, output with
      | Ptr inp, Ptr out =>
          len ← strlen_at mem inp;
          if to_size_t (len + 1) >? output_size then
            mem' ← set_error_at (literal msg_small) mem;
            Some (-1, mem')
          else
            mem1 ← loop (S (object_size mem inp)) mem inp out len 0;
            mem2 ← store_at mem1 (shift out len) NUL;
            Some (0, mem2)
      | _, _ =>
          mem' ← set_error_at (literal msg_null) mem;
          Some (-1, mem')
      end.
Hypothesis msg_small_ok :
  forallb (fun c => negb (is_nul c)) (list_byte_of_string msg_small) = true
  /\ (0 < length (list_byte_of_string msg_small) <= 255)%nat.
Hypothesis msg_null_ok :
  forallb (fun c => negb (is_nul c)) (list_byte_of_string msg_null) = true
  /\ (0 < length (list_byte_of_string msg_null) <= 255)%nat.
Hypothesis content_length : forall chars, length (content chars) = length chars.
Hypothesis loop_cells : forall fuel mem input output chars,
    Z.of_nat (length chars) <= SIZE_MAX ->
    (length chars < fuel)%nat ->
    cells_at mem input chars ->
    (forall j, 0 <= j < Z.of_nat (length chars) ->
               is_Some (load_at mem (shift output j))) ->
    exists mem',
      loop fuel mem input output (Z.of_nat (length chars)) 0 = Some mem'
      /\ same_sizes mem mem'
      /\ changed_only mem mem' output (Z.of_nat (length chars))
      /\ ((forall j j', 0 <= j < Z.of_nat (length chars) ->
                        0 <= j' < Z.of_nat (length chars) ->
                        shift input j <> shift output j') ->
          cells_at mem' output (content chars)).

Lemma string_call_contract (input output : ptr addr) (output_size : Z)
    (mem : list (list byte)) :
  wf_memory mem ->
  wf_string_call mem input output output_size ->
  exists status mem',
    call input output output_size mem = Some (status, mem')
    /\ (status = -1 <-> string_call_fails mem input output output_size)
    /\ (status = -1 ->
        error_recorded_at mem'
        /\ forall q, q.1 <> error_slot -> load_at mem' q = load_at mem q)
    /\ (status <> -1 ->
        status = 0
        /\ exists inp out chars,
            input = Ptr inp /\ output = Ptr out
            /\ string_at mem inp chars
            /\ same_sizes mem mem'
            /\ changed_only mem mem' out (Z.of_nat (length chars) + 1)
            /\ (apart inp out (Z.of_nat (length chars) + 1) ->
                cells_at mem' out (content chars ++ [NUL]))).
Proof.
  intros Hmem (Hsize & Hobjs & Hin & Hout). rewrite call_eq.
  destruct msg_small_ok as [Hs1 Hs2]. destruct msg_null_ok as [Hn1 Hn2].
  destruct input as [|inp].
  { destruct (set_error_at_literal msg_null mem Hmem Hn1 Hn2)
      as (mem' & -> & _ & Hrec & _ & Hframe).
    exists (-1), mem'. split; [done|]. split; [by split; [left|]|]. by split. }
  destruct output as [|out].
  { destruct (set_error_at_literal msg_null mem Hmem Hn1 Hn2)
      as (mem' & -> & _ & Hrec & _ & Hframe).
    exists (-1), mem'.
    split; [done|]. split; [by split; [right; left|]|]. by split. }
  destruct Hin as [len Hlen]. rewrite Hlen. cbn [mbind option_bind].
  destruct (strlen_at_inv _ _ _ Hlen) as (chars & Hstr & -> & Hoff & Hobj).
  assert (Hmax : Z.of_nat (object_size mem inp) <= SIZE_MAX).
  { unfold object_size. destruct (mem !! inp.1) as [obj|] eqn:E.
    - rewrite Forall_forall in Hobjs. apply Hobjs.
      by eapply list_elem_of_lookup_2.
    - vm_compute. discriminate. }
  rewrite to_size_t_id by (unfold is_size_t; lia).
  destruct (Z.gtb_spec (Z.of_nat (length chars) + 1) output_size)
    as [Hsmall|Hroom].
  { destruct (set_error_at_literal msg_small mem Hmem Hs1 Hs2)
      as (mem' & -> & _ & Hrec & _ & Hframe).
    exists (-1), mem'. split; [done|]. split; [|by split].
    split; [|done]. intros _. right; right.
    exists inp, (Z.of_nat (length chars)). split; [done|]. split; [done|]. lia. }
  destruct Hout as [Hout0 Hout1].
  assert (Hwritable : forall j, 0 <= j <= Z.of_nat (length chars) ->
            is_Some (load_at mem (shift out j))).
  { intros j Hj. apply load_at_is_Some. unfold object_size in Hout1.
    rewrite list_lookup_fmap. cbn.
    destruct (mem !! out.1) as [obj|]; cbn in *; [|lia].
    eexists. split; [done|]. lia. }
  destruct Hstr as [Hchars Hcells].
  destruct (loop_cells (S (object_size mem inp)) mem inp out chars)
    as (mem1 & -> & Hsizes1 & Hframe1 & Hcontents); try lia.
  { by apply cells_at_app_l in Hcells. }
  { intros j Hj. apply Hwritable. lia. }
  cbn [mbind option_bind].
  destruct (store_at_is_Some mem1 (shift out (Z.of_nat (length chars))) NUL)
    as [mem2 Hstore].
  { apply (same_sizes_load_at _ _ _ Hsizes1). apply Hwritable. lia. }
  rewrite Hstore. cbn [mbind option_bind].
  exists 0, mem2. split; [done|]. split.
  { split; [done|]. intros [?|[?|(inp' & len' & [= <-] & Hlen' & Hlt)]];
      [done..|]. rewrite Hlen in Hlen'. injection Hlen' as <-. lia. }
  split; [done|]. intros _. split; [done|].
  exists inp, out, chars. split; [done|]. split; [done|]. split; [done|].
  split.
  { eapply same_sizes_trans; [done|]. by eapply store_at_same_sizes. }
  split.
  - intros q Hq. rewrite (load_at_store_at_ne _ _ _ _ _ Hstore).
    + apply Hframe1. intros [Hb Ho]. apply Hq. unfold within in *. lia.
    + intros ->. apply Hq. unfold within, shift. cbn. lia.
  - intros Hapart j x Hj.
    apply lookup_app_Some in Hj as [Hj|[Hge Hj]].
    + rewrite (load_at_store_at_ne _ _ _ _ _ Hstore).
      * apply Hcontents; [|done]. intros k k' Hk Hk' Heq.
        unfold apart, shift in *. injection Heq as Hb Ho. lia.
      * apply lookup_lt_Some in Hj. rewrite content_length in Hj.
        apply shift_shift_neq. lia.
    + rewrite content_length in Hge, Hj.
      destruct (j - length chars)%nat as [|k] eqn:Hk; [|done].
      injection Hj as <-. replace j with (length chars) by lia.
      by apply (load_at_store_at_eq _ _ _ _ Hstore).
Qed.

End StringCall.

Lemma reverse_string_loop_cells fuel mem input output (chars : list byte) :
  Z.of_nat (length chars) <= SIZE_MAX ->
  (length chars < fuel)%nat ->
  cells_at mem input chars ->
  (forall j, 0 <= j < Z.of_nat (length chars) ->
             is_Some (load_at mem (shift output j))) ->
  exists mem',
    reverse_string_loop fuel mem input output (Z.of_nat (length chars)) 0
    = Some mem'
    /\ same_sizes mem mem'
    /\ changed_only mem mem' output (Z.of_nat (length chars))
    /\ ((forall j j', 0 <= j < Z.of_nat (length chars) ->
                      0 <= j' < Z.of_nat (length chars) ->
                      shift input j <> shift output j') ->
        cells_at mem' output (reverse chars)).
Proof.
  intros Hmax Hfuel Hcells Hout.
  destruct (reverse_string_loop_at fuel mem input output
              (Z.of_nat (length chars)))
    as (mem' & Hloop & Hsizes & Hframe & Hcontents); try lia; try done.
  { intros j Hj. by eapply cells_at_is_Some. }
  exists mem'. split; [done|]. split; [done|]. split; [done|].
  intros Hapart j x Hj.
  assert (Hlt : (j < length chars)%nat).
  { apply lookup_lt_Some in Hj. by rewrite length_reverse in Hj. }
  rewrite (Hcontents Hapart) by lia.
  rewrite reverse_lookup in Hj by done.
  replace (Z.of_nat (length chars) - 1 - Z.of_nat j)
    with (Z.of_nat (length chars - S j)) by lia.
  by apply Hcells.
Qed.

Lemma uppercase_string_loop_cells fuel mem input output (chars : list byte) :
  Z.of_nat (length chars) <= SIZE_MAX ->
  (length chars < fuel)%nat ->
  cells_at mem input chars ->
  (forall j, 0 <= j < Z.of_nat (length chars) ->
             is_Some (load_at mem (shift output j))) ->
  exists mem',
    uppercase_string_loop fuel mem input output (Z.of_nat (length chars)) 0
    = Some mem'
    /\ same_sizes mem mem'
    /\ changed_only mem mem' output (Z.of_nat (length chars))
    /\ ((forall j j', 0 <= j < Z.of_nat (length chars) ->
                      0 <= j' < Z.of_nat (length chars) ->
                      shift input j <> shift output j') ->
        cells_at mem' output (upper <$> chars)).
Proof.
  intros Hmax Hfuel Hcells Hout.
  destruct (uppercase_string_loop_at fuel mem input output
              (Z.of_nat (length chars)))
    as (mem' & Hloop & Hsizes & Hframe & Hcontents); try lia; try done.
  { intros j Hj. by eapply cells_at_is_Some. }
  exists mem'. split; [done|]. split; [done|]. split; [done|].
  intros Hapart j x Hj.
  apply list_lookup_fmap_Some in Hj as (c & -> & Hc).
  assert (Hlt : (j < length chars)%nat) by (by eapply lookup_lt_Some).
  rewrite (Hcontents Hapart) by lia.
  pose proof (Hcells j c Hc) as Hload. by rewrite Hload.
Qed.

(** C2, as the code has it.  A well-formed call of [reverse_string] returns
    -1 exactly when [input] is null, [output] is null or [output_size] is
    less than [strlen(input) + 1]; it then records a non-empty error
    message and changes nothing but the error slot.  Otherwise it returns
    0 and changes at most the [strlen(input) + 1] bytes at [output]; when
    these do not overlap the string at [input], they are the characters of
    [input] in reverse order and a terminator.  With "hello" and a 3-byte
    buffer the result is -1 with a message; with room, the buffer reads
    "olleh". *)
Theorem reverse_string_contract (input output : ptr addr) (output_size : Z)
    (mem : list (list byte)) :
  wf_memory mem ->
  wf_string_call mem input output output_size ->
  (exists status mem',
      reverse_string input output output_size mem = Some (status, mem')
      /\ (status = -1 <-> string_call_fails mem input output output_size)
      /\ (status = -1 ->
          error_recorded_at mem'
          /\ forall q, q.1 <> error_slot -> load_at mem' q = load_at mem q)
      /\ (status <> -1 ->
          status = 0
          /\ exists inp out chars,
              input = Ptr inp /\ output = Ptr out
              /\ string_at mem inp chars
              /\ same_sizes mem mem'
              /\ changed_only mem mem' out (Z.of_nat (length chars) + 1)
              /\ (apart inp out (Z.of_nat (length chars) + 1) ->
                  cells_at mem' out (reverse chars ++ [NUL]))))
  /\ (forall slot,
         length slot = 256%nat ->
         exists mem',
           reverse_string (Ptr (1%nat, 0)) (Ptr (2%nat, 0)) 3
             [slot; literal "hello"; replicate 3 NUL]
           = Some (-1, mem')
           /\ error_recorded_at mem'
           /\ mem' !! 2%nat = Some (replicate 3 NUL))
  /\ (forall slot,
         reverse_string (Ptr (1%nat, 0)) (Ptr (2%nat, 0)) 8
           [slot; literal "hello"; replicate 8 NUL]
         = Some (0, [slot; literal "hello";
                     literal "olleh" ++ replicate 2 NUL])).
Proof.
  intros Hmem Hcall. split; [|split].
  - apply (string_call_contract reverse_string reverse_string_loop reverse
             "Output buffer too small for reverse_string"
             "Null pointer passed to reverse_string");
      try done.
    + split; [vm_compute; reflexivity | cbn; lia].
    + split; [vm_compute; reflexivity | cbn; lia].
    + apply length_reverse.
    + apply reverse_string_loop_cells.
  - intros slot Hslot.
    assert (Hwf : wf_memory [slot; literal "hello"; replicate 3 NUL]).
    { by exists {| last_error := slot |}. }
    destruct (set_error_at_literal
                "Output buffer too small for reverse_string" _ Hwf)
      as (mem' & Hset & _ & Hrec & _ & Hframe);
      [vm_compute; reflexivity | cbn; lia |].
    exists mem'. split; [|split; [done|]].
    + unfold reverse_string.
      change (strlen_at _ (1%nat, 0)) with (Some 5).
      cbn [mbind option_bind].
      change (to_size_t (5 + 1) >? 3) with true. cbv iota.
      by rewrite Hset.
    + unfold set_error_at in Hset. cbn in Hset.
      destruct (set_error _ _) as [st'|]; [|done]. cbn in Hset.
      by injection Hset as <-.
  - intros slot. reflexivity.
Qed.

Lemma reverse_string_contract_witness :
  exists status mem',
    reverse_string (Ptr (1%nat, 0)) (Ptr (2%nat, 0)) 8
      [replicate 256 NUL; literal "hello"; replicate 8 NUL]
    = Some (status, mem')
    /\ (status = -1 <->
        string_call_fails
          [replicate 256 NUL; literal "hello"; replicate 8 NUL]
          (Ptr (1%nat, 0)) (Ptr (2%nat, 0)) 8)
    /\ (status = -1 ->
        error_recorded_at mem'
        /\ forall q, q.1 <> error_slot ->
                     load_at mem' q
                     = load_at
                         [replicate 256 NUL; literal "hello"; replicate 8 NUL]
                         q)
    /\ (status <> -1 ->
        status = 0
        /\ exists inp out chars,
            Ptr (1%nat, 0) = Ptr inp /\ Ptr (2%nat, 0) = Ptr out
            /\ string_at [replicate 256 NUL; literal "hello"; replicate 8 NUL]
                 inp chars
            /\ same_sizes [replicate 256 NUL; literal "hello"; replicate 8 NUL]
                 mem'
            /\ changed_only
                 [replicate 256 NUL; literal "hello"; replicate 8 NUL] mem'
                 out (Z.of_nat (length chars) + 1)
            /\ (apart inp out (Z.of_nat (length chars) + 1) ->
                cells_at mem' out (reverse chars ++ [NUL]))).
Proof.
  apply (reverse_string_contract (Ptr (1%nat, 0)) (Ptr (2%nat, 0)) 8
           [replicate 256 NUL; literal "hello"; replicate 8 NUL]).
  - by exists {| last_error := replicate 256 NUL |}.
  - split; [lia|]. split; [|split].
    + repeat constructor; vm_compute; discriminate.
    + by exists 5.
    + cbn. lia.
Defined.

(** C2 as stated fails when [output] is [input]: on "hello" the call
    returns 0 and leaves "olllo", which is not "hello" reversed. *)
Lemma reverse_string_in_place :
  wf_memory [replicate 256 NUL; literal "hello"]
  /\ wf_string_call [replicate 256 NUL; literal "hello"]
       (Ptr (1%nat, 0)) (Ptr (1%nat, 0)) 6
  /\ string_at [replicate 256 NUL; literal "hello"] (1%nat, 0)
       (list_byte_of_string "hello")
  /\ reverse_string (Ptr (1%nat, 0)) (Ptr (1%nat, 0)) 6
       [replicate 256 NUL; literal "hello"]
     = Some (0, [replicate 256 NUL; literal "olllo"])
  /\ ~ cells_at [replicate 256 NUL; literal "olllo"] (1%nat, 0)
         (reverse (list_byte_of_string "hello") ++ [NUL]).
Proof.
  split; [|split; [|split; [|split]]].
  - by exists {| last_error := replicate 256 NUL |}.
  - split; [lia|]. split; [|split].
    + repeat constructor; vm_compute; discriminate.
    + by exists 5.
    + cbn. lia.
  - split; [apply literal_no_nul; vm_compute; reflexivity|].
    intros j x Hj. do 6 (destruct j as [|j]; [by injection Hj as <-|]).
    done.
  - reflexivity.
  - intros H. specialize (H 3%nat "e"%byte eq_refl). by vm_compute in H.
Qed.

(** [uppercase_string] has the contract of [reverse_string]: a well-formed
    call returns -1 exactly when [input] is null, [output] is null or
    [output_size] is less than [strlen(input) + 1], and then records an
    error and changes nothing but the error slot; otherwise it returns 0
    and changes at most the [strlen(input) + 1] bytes at [output], which,
    when they do not overlap the string at [input], are the characters of
    [input] in upper case and a terminator. *)
Theorem uppercase_string_contract (input output : ptr addr) (output_size : Z)
    (mem : list (list byte)) :
  wf_memory mem ->
  wf_string_call mem input output output_size ->
  exists status mem',
    uppercase_string input output output_size mem = Some (status, mem')
    /\ (status = -1 <-> string_call_fails mem input output output_size)
    /\ (status = -1 ->
        error_recorded_at mem'
        /\ forall q, q.1 <> error_slot -> load_at mem' q = load_at mem q)
    /\ (status <> -1 ->
        status = 0
        /\ exists inp out chars,
            input = Ptr inp /\ output = Ptr out
            /\ string_at mem inp chars
            /\ same_sizes mem mem'
            /\ changed_only mem mem' out (Z.of_nat (length chars) + 1)
            /\ (apart inp out (Z.of_nat (length chars) + 1) ->
                cells_at mem' out ((upper <$> chars) ++ [NUL]))).
Proof.
  intros Hmem Hcall.
  apply (string_call_contract uppercase_string uppercase_string_loop
           (fmap upper)
           "Output buffer too small for uppercase_string"
           "Null pointer passed to uppercase_string");
    try done.
  - split; [vm_compute; reflexivity | cbn; lia].
  - split; [vm_compute; reflexivity | cbn; lia].
  - intros chars. apply length_fmap.
  - apply uppercase_string_loop_cells.
Qed.

Lemma uppercase_string_contract_witness :
  exists status mem',
    uppercase_string (Ptr (1%nat, 0)) (Ptr (2%nat, 0)) 8
      [replicate 256 NUL; literal "hello"; replicate 8 NUL]
    = Some (status, mem')
    /\ (status = -1 <->
        string_call_fails
          [replicate 256 NUL; literal "hello"; replicate 8 NUL]
          (Ptr (1%nat, 0)) (Ptr (2%nat, 0)) 8)
    /\ (status = -1 ->
        error_recorded_at mem'
        /\ forall q, q.1 <> error_slot ->
                     load_at mem' q
                     = load_at
                         [replicate 256 NUL; literal "hello"; replicate 8 NUL]
                         q)
    /\ (status <> -1 ->
        status = 0
        /\ exists inp out chars,
            Ptr (1%nat, 0) = Ptr inp /\ Ptr (2%nat, 0) = Ptr out
            /\ string_at [replicate 256 NUL; literal "hello"; replicate 8 NUL]
                 inp chars
            /\ same_sizes [replicate 256 NUL; literal "hello"; replicate 8 NUL]
                 mem'
            /\ changed_only
                 [replicate 256 NUL; literal "hello"; replicate 8 NUL] mem'
                 out (Z.of_nat (length chars) + 1)
            /\ (apart inp out (Z.of_nat (length chars) + 1) ->
                cells_at mem' out ((upper <$> chars) ++ [NUL]))).
Proof.
  apply (uppercase_string_contract (Ptr (1%nat, 0)) (Ptr (2%nat, 0)) 8
           [replicate 256 NUL; literal "hello"; replicate 8 NUL]).
  - by exists {| last_error := replicate 256 NUL |}.
  - split; [lia|]. split; [|split].
    + repeat constructor; vm_compute; discriminate.
    + by exists 5.
    + cbn. lia.
Defined.

(** An overlap that [uppercase_string] does not survive: with [output] one
    byte after [input], "abc" becomes "AAA". *)
Lemma uppercase_string_overlapping :
  uppercase_string (Ptr (1%nat, 0)) (Ptr (1%nat, 1)) 4
    [replicate 256 NUL; literal "abc" ++ [NUL]]
  = Some (0, [replicate 256 NUL; x61 :: literal "AAA"]).
Proof. reflexivity. Qed.

(** ** [find_max] on a memory *)

Section FindMaxAt.
Implicit Types (mem : list (list Z)) (arr mv : addr).

Lemma shift_shift (p : addr) i j : shift (shift p i) j = shift p (i + j).
Proof. unfold shift. cbn. f_equal. lia. Qed.

(** From index [i] on, with [current] in the caller's location: the loop
    returns, changes that location only, and, when none of the elements it
    still has to read is that location, leaves there the greatest of
    [current] and these elements. *)
Lemma find_max_loop_at (todo : nat) :
  forall fuel mem arr mv len i current,
    0 <= i -> i + Z.of_nat todo = len -> len <= SIZE_MAX ->
    (todo < fuel)%nat ->
    (forall j, i <= j < len -> is_Some (load_at mem (shift arr j))) ->
    load_at mem mv = Some current ->
    exists mem' final,
      find_max_loop fuel mem arr mv len i = Some mem'
      /\ same_sizes mem mem'
      /\ (forall q, q <> mv -> load_at mem' q = load_at mem q)
      /\ load_at mem' mv = Some final
      /\ forall l : list Z,
           length l = todo ->
           cells_at mem (shift arr i) l ->
           (forall j, i <= j < len -> shift arr j <> mv) ->
           final = fold_left Z.max l current.
Proof.
  induction todo as [|todo IH];
    intros fuel mem arr mv len i current Hi Hlen Hmax Hfuel Hread Hmv;
    (destruct fuel as [|fuel]; [lia|]); cbn [find_max_loop].
  - destruct (Z.ltb_spec i len); [lia|]. exists mem, current.
    split; [done|]. split; [done|]. split; [done|]. split; [done|].
    intros l Hl _ _. by destruct l.
  - destruct (Z.ltb_spec i len); [|lia].
    destruct (Hread i ltac:(lia)) as [x Hx].
    rewrite Hx, Hmv. cbn [mbind option_bind].
    rewrite to_size_t_id by (unfold is_size_t; lia).
    destruct (Z.gtb_spec x current) as [Hgt|Hle].
    + destruct (store_at_is_Some mem mv x ltac:(by rewrite Hmv))
        as [mem1 Hstore].
      rewrite Hstore. cbn [mbind option_bind].
      pose proof (store_at_same_sizes _ _ _ _ Hstore) as Hsizes.
      destruct (IH fuel mem1 arr mv len (i + 1) x)
        as (mem' & final & Hloop & Hsizes' & Hframe & Hfinal & Hval);
        try lia.
      { intros j Hj. apply (same_sizes_load_at _ _ _ Hsizes).
        apply Hread. lia. }
      { by apply (load_at_store_at_eq _ _ _ _ Hstore). }
      exists mem', final. split; [done|].
      split; [by eapply same_sizes_trans|]. split; [|split; [done|]].
      * intros q Hq. rewrite (Hframe q Hq).
        by apply (load_at_store_at_ne _ _ _ _ _ Hstore).
      * intros l Hl Hcells Hapart.
        destruct l as [|y l]; [done|]. injection Hl as Hl.
        assert (y = x) as ->.
        { specialize (Hcells 0%nat y eq_refl). rewrite shift_shift in Hcells.
          rewrite Z.add_0_r in Hcells. congruence. }
        rewrite (Hval l Hl); [|
          |intros; apply Hapart; lia].
        -- cbn [fold_left]. f_equal. lia.
        -- intros j z Hj. rewrite shift_shift.
           pose proof (lookup_lt_Some _ _ _ Hj) as Hlt.
           rewrite (load_at_store_at_ne _ _ _ _ _ Hstore)
             by (apply Hapart; lia).
           specialize (Hcells (S j) z Hj). rewrite shift_shift in Hcells.
           by replace (i + 1 + Z.of_nat j) with (i + Z.of_nat (S j)) by lia.
    + destruct (IH fuel mem arr mv len (i + 1) current)
        as (mem' & final & Hloop & Hsizes' & Hframe & Hfinal & Hval);
        try lia; try done.
      { intros j Hj. apply Hread. lia. }
      exists mem', final. split; [done|]. split; [done|].
      split; [done|]. split; [done|].
      intros l Hl Hcells Hapart.
      destruct l as [|y l]; [done|]. injection Hl as Hl.
      assert (y = x) as ->.
      { specialize (Hcells 0%nat y eq_refl). rewrite shift_shift in Hcells.
        rewrite Z.add_0_r in Hcells. congruence. }
      rewrite (Hval l Hl); [| |intros; apply Hapart; lia].
      * cbn [fold_left]. f_equal. lia.
      * intros j z Hj. rewrite shift_shift.
        specialize (Hcells (S j) z Hj). rewrite shift_shift in Hcells.
        by replace (i + 1 + Z.of_nat j) with (i + Z.of_nat (S j)) by lia.
Qed.

End FindMaxAt.

Section FindMaxCall.
Implicit Types (mem : list (list Z)) (arr mv : addr).

(** A readable span lies inside its object. *)
Lemma cells_at_object_size {A} (m : list (list A)) p (l : list A) :
  cells_at m p l -> l <> [] ->
  0 <= p.2 /\ p.2 + Z.of_nat (length l) <= Z.of_nat (object_size m p).
Proof.
  intros Hcells Hne.
  assert (Hpos : (0 < length l)%nat) by (destruct l; [done|cbn; lia]).
  pose proof (cells_at_is_Some m p l 0 Hcells ltac:(lia)) as H0.
  pose proof (cells_at_is_Some m p l (Z.of_nat (length l) - 1) Hcells
                ltac:(lia)) as H1.
  apply load_at_is_Some in H0 as (n0 & Hn0 & Hr0).
  apply load_at_is_Some in H1 as (n1 & Hn1 & Hr1).
  cbn in Hn0, Hn1, Hr0, Hr1. rewrite Hn0 in Hn1. injection Hn1 as <-.
  unfold object_size. rewrite list_lookup_fmap in Hn0.
  destruct (m !! p.1) as [obj|]; [|done]. cbn in Hn0. injection Hn0 as <-.
  cbn. lia.
Qed.

(** The successful call: every argument is there and the span is not
    empty. *)
Lemma find_max_at_success mem arr mv len (l : list Z) st :
  Forall (fun obj => Z.of_nat (length obj) <= SIZE_MAX) mem ->
  len = Z.of_nat (length l) -> 0 < len ->
  cells_at mem arr l ->
  is_Some (load_at mem mv) ->
  exists mem' final,
    find_max (Ptr arr) len (Ptr mv) mem st = Some (0, mem', st)
    /\ same_sizes mem mem'
    /\ (forall q, q <> mv -> load_at mem' q = load_at mem q)
    /\ load_at mem' mv = Some final
    /\ ((forall i, 1 <= i < len -> shift arr i <> mv) ->
        exists a0 tl, l = a0 :: tl /\ final = fold_left Z.max tl a0).
Proof.
  intros Hsizes Hlen Hpos Hcells Hmv. unfold find_max.
  destruct (Z.eqb_spec len 0); [lia|].
  destruct l as [|a0 tl]; [cbn in Hlen; lia|].
  destruct (cells_at_object_size mem arr (a0 :: tl) Hcells ltac:(done))
    as [Hoff Hobj].
  assert (Hmax : Z.of_nat (object_size mem arr) <= SIZE_MAX).
  { unfold object_size. destruct (mem !! arr.1) as [obj|] eqn:E.
    - rewrite Forall_forall in Hsizes. apply Hsizes.
      by eapply list_elem_of_lookup_2.
    - vm_compute. discriminate. }
  pose proof (Hcells 0%nat a0 eq_refl) as H0.
  change (Z.of_nat 0) with 0 in H0.
  rewrite H0. cbn [mbind option_bind].
  destruct (store_at_is_Some mem mv a0 Hmv) as [mem1 Hstore].
  rewrite Hstore. cbn [mbind option_bind].
  pose proof (store_at_same_sizes _ _ _ _ Hstore) as Hsizes1.
  cbn [length] in Hlen, Hobj.
  destruct (find_max_loop_at (length tl) (S (object_size mem arr)) mem1
              arr mv len 1 a0)
    as (mem' & final & Hloop & Hsizes' & Hframe & Hfinal & Hval);
    try lia.
  { intros j Hj. apply (same_sizes_load_at _ _ _ Hsizes1).
    apply (cells_at_is_Some mem arr (a0 :: tl)); [done|]. cbn [length]. lia. }
  { by apply (load_at_store_at_eq _ _ _ _ Hstore). }
  rewrite Hloop. cbn [mbind option_bind].
  exists mem', final. split; [done|].
  split; [by eapply same_sizes_trans|]. split; [|split; [done|]].
  - intros q Hq. rewrite (Hframe q Hq).
    by apply (load_at_store_at_ne _ _ _ _ _ Hstore).
  - intros Hapart. exists a0, tl. split; [done|].
    apply Hval; [done| |done].
    intros j z Hj. rewrite shift_shift.
    pose proof (lookup_lt_Some _ _ _ Hj) as Hlt.
    rewrite (load_at_store_at_ne _ _ _ _ _ Hstore) by (apply Hapart; lia).
    specialize (Hcells (S j) z Hj).
    by replace (1 + Z.of_nat j) with (Z.of_nat (S j)) by lia.
Qed.

End FindMaxCall.

(** C10 - [find_max] returns -1 exactly when [array] is null, [max_value]
    is null or the length is 0; it then leaves the memory as it was and
    records the message.  In every other call it returns 0, leaves the
    error slot as it was and changes no location but [*max_value], where it
    stores the maximum of the [len] elements provided that [max_value] is
    none of [array + 1], ..., [array + len - 1]. *)
Theorem find_max_frame (array : ptr addr) (len : Z) (max_value : ptr addr)
    (mem : list (list Z)) (l : list Z) (st : state) :
  wf_state st ->
  wf_max_call mem array len max_value l ->
  exists status mem' st',
    find_max array len max_value mem st = Some (status, mem', st')
    /\ (status = -1 <-> array = NULL \/ max_value = NULL \/ len = 0)
    /\ (status = -1 -> mem' = mem /\ error_recorded st')
    /\ (status <> -1 ->
        status = 0 /\ st' = st
        /\ exists arr mv,
             array = Ptr arr /\ max_value = Ptr mv
             /\ same_sizes mem mem'
             /\ (forall q, q <> mv -> load_at mem' q = load_at mem q)
             /\ ((forall i, 1 <= i < len -> shift arr i <> mv) ->
                 exists m, load_at mem' mv = Some m /\ is_maximum m l)).
Proof.
  intros Hst (Hsizes & Hlen & Harr & Hmv).
  assert (Hfail : forall st1,
            error_recorded st1 ->
            (array = NULL \/ max_value = NULL \/ len = 0) ->
            exists status mem' st',
              Some (-1, mem, st1) = Some (status, mem', st')
              /\ (status = -1 <-> array = NULL \/ max_value = NULL \/ len = 0)
              /\ (status = -1 -> mem' = mem /\ error_recorded st')
              /\ (status <> -1 ->
                  status = 0 /\ st' = st
                  /\ exists arr mv,
                       array = Ptr arr /\ max_value = Ptr mv
                       /\ same_sizes mem mem'
                       /\ (forall q, q <> mv ->
                                     load_at mem' q = load_at mem q)
                       /\ ((forall i, 1 <= i < len -> shift arr i <> mv) ->
                           exists m, load_at mem' mv = Some m
                                     /\ is_maximum m l))).
  { intros st1 Hrec Hcase. exists (-1), mem, st1.
    split; [done|]. split; [done|]. split; [|done].
    intros _. by split. }
  destruct array as [|arr], max_value as [|mv]; cbn [find_max].
  1-3: destruct (set_error_literal "Null pointer passed to find_max" st Hst)
         as (st1 & -> & _ & Hrec); [vm_compute; reflexivity | cbn; lia |];
       cbn [mbind option_bind]; apply (Hfail _ Hrec); tauto.
  destruct (Z.eqb_spec len 0) as [Hz|Hnz].
  { destruct (set_error_literal "Empty array passed to find_max" st Hst)
      as (st1 & -> & _ & Hrec); [vm_compute; reflexivity | cbn; lia |].
    cbn [mbind option_bind]. apply (Hfail _ Hrec); tauto. }
  destruct (find_max_at_success mem arr mv len l st Hsizes Hlen ltac:(lia)
              Harr Hmv)
    as (mem' & final & Hcall & Hsizes' & Hframe & Hfinal & Hval).
  unfold find_max in Hcall. destruct (Z.eqb_spec len 0); [lia|].
  rewrite Hcall. exists 0, mem', st. split; [done|].
  split; [split; [done|]; intros [|[|]]; done|]. split; [done|].
  intros _. split; [done|]. split; [done|]. exists arr, mv.
  split; [done|]. split; [done|]. split; [done|]. split; [done|].
  intros Hapart. destruct (Hval Hapart) as (a0 & tl & -> & ->).
  exists (fold_left Z.max tl a0). split; [done|].
  apply fold_left_max_is_maximum.
Qed.

Lemma find_max_frame_witness :
  exists status mem' st',
    find_max (Ptr (0%nat, 0)) 5 (Ptr (1%nat, 0)) [[1; 2; 7; 4; 5]; [0]]
      initial_state
    = Some (status, mem', st')
    /\ (status = -1 <->
        Ptr (0%nat, 0) = NULL \/ Ptr (1%nat, 0) = NULL \/ 5 = 0)
    /\ (status = -1 ->
        mem' = [[1; 2; 7; 4; 5]; [0]] /\ error_recorded st')
    /\ (status <> -1 ->
        status = 0 /\ st' = initial_state
        /\ exists arr mv,
             Ptr (0%nat, 0) = Ptr arr /\ Ptr (1%nat, 0) = Ptr mv
             /\ same_sizes [[1; 2; 7; 4; 5]; [0]] mem'
             /\ (forall q, q <> mv ->
                           load_at mem' q
                           = load_at [[1; 2; 7; 4; 5]; [0]] q)
             /\ ((forall i, 1 <= i < 5 -> shift arr i <> mv) ->
                 exists m, load_at mem' mv = Some m
                           /\ is_maximum m [1; 2; 7; 4; 5])).
Proof.
  apply (find_max_frame (Ptr (0%nat, 0)) 5 (Ptr (1%nat, 0))
           [[1; 2; 7; 4; 5]; [0]] [1; 2; 7; 4; 5] initial_state).
  - reflexivity.
  - split; [|split; [reflexivity|split]].
    + repeat constructor; vm_compute; discriminate.
    + intros j x Hj. do 5 (destruct j as [|j]; [by injection Hj as <-|]).
      done.
    + by exists 0.
Defined.

(** C10 as stated fails when [max_value] is [&array[1]]: the call on
    [3, 9, 4] is well formed and returns 0, and the location then holds 4,
    not the maximum: the store of [array[0]] through [max_value] has
    overwritten the 9 before the loop reads it. *)
Lemma find_max_into_array :
  wf_state initial_state
  /\ wf_max_call [[3; 9; 4]] (Ptr (0%nat, 0)) 3 (Ptr (0%nat, 1)) [3; 9; 4]
  /\ find_max (Ptr (0%nat, 0)) 3 (Ptr (0%nat, 1)) [[3; 9; 4]] initial_state
     = Some (0, [[3; 4; 4]], initial_state)
  /\ load_at [[3; 4; 4]] (0%nat, 1) = Some 4
  /\ ~ is_maximum 4 [3; 9; 4].
Proof.
  split; [reflexivity|]. split; [|split; [reflexivity|split; [reflexivity|]]].
  - split; [|split; [reflexivity|split]].
    + repeat constructor; vm_compute; discriminate.
    + intros j x Hj. do 3 (destruct j as [|j]; [by injection Hj as <-|]).
      done.
    + by exists 9.
  - intros [_ Hall]. rewrite Forall_forall in Hall.
    assert (Hin : 9 ∈ [3; 9; 4])
      by (apply elem_of_cons; right; apply elem_of_cons; by left).
    specialize (Hall 9 Hin). lia.
Qed.

(** On a non-empty span the two libraries find the same maximum: when
    [max_value] is none of [array + 1], ..., [array + len - 1], the value
    [find_max] leaves in [*max_value] is the value [fast_array_max]
    returns for the same elements. *)
Theorem max_libraries_agree (arr : addr) (len : Z) (mv : addr)
    (mem : list (list Z)) (l : list Z) (st : state) :
  wf_max_call mem (Ptr arr) len (Ptr mv) l ->
  0 < len ->
  (forall i, 1 <= i < len -> shift arr i <> mv) ->
  exists m mem',
    find_max (Ptr arr) len (Ptr mv) mem st = Some (0, mem', st)
    /\ load_at mem' mv = Some m
    /\ fast_array_max (Ptr l) len = Some m
    /\ is_maximum m l.
Proof.
  intros (Hsizes & Hlen & Harr & Hmv) Hpos Hapart.
  destruct (find_max_at_success mem arr mv len l st Hsizes Hlen Hpos Harr Hmv)
    as (mem' & final & Hcall & _ & _ & Hfinal & Hval).
  destruct (Hval Hapart) as (a0 & tl & -> & ->).
  exists (fold_left Z.max tl a0), mem'. split; [done|]. split; [done|].
  destruct (cells_at_object_size mem arr (a0 :: tl) Harr ltac:(done))
    as [Hoff Hobj].
  assert (Hmax : Z.of_nat (object_size mem arr) <= SIZE_MAX).
  { unfold object_size. destruct (mem !! arr.1) as [obj|] eqn:E.
    - rewrite Forall_forall in Hsizes. apply Hsizes.
      by eapply list_elem_of_lookup_2.
    - vm_compute. discriminate. }
  split; [|apply fold_left_max_is_maximum].
  rewrite fast_array_max_nonempty by lia.
  do 2 f_equal. apply take_ge. cbn [length] in Hlen. lia.
Qed.

Lemma max_libraries_agree_witness :
  exists m mem',
    find_max (Ptr (0%nat, 0)) 5 (Ptr (1%nat, 0)) [[1; 2; 7; 4; 5]; [0]]
      initial_state
    = Some (0, mem', initial_state)
    /\ load_at mem' (1%nat, 0) = Some m
    /\ fast_array_max (Ptr [1; 2; 7; 4; 5]) 5 = Some m
    /\ is_maximum m [1; 2; 7; 4; 5].
Proof.
  apply (max_libraries_agree (0%nat, 0) 5 (1%nat, 0)
           [[1; 2; 7; 4; 5]; [0]] [1; 2; 7; 4; 5] initial_state).
  - split; [|split; [reflexivity|split]].
    + repeat constructor; vm_compute; discriminate.
    + intros j x Hj. do 5 (destruct j as [|j]; [by injection Hj as <-|]).
      done.
    + by exists 0.
  - lia.
  - intros i Hi [=].
Defined.

(** ** The error slot across calls (Library A) *)

Section ErrorSlot.

Variable call :
  ptr addr -> ptr addr -> Z -> list (list byte) -> option (Z * list (list byte)).
Variable loop :
  nat -> list (list byte) -> addr -> addr -> Z -> Z -> option (list (list byte)).
Variables msg_small msg_null : list byte.
Hypothesis call_eq : forall input output output_size mem,
    call input output output_size mem
    = match input, output with
      | Ptr inp, Ptr out =>
          len ← strlen_at mem inp;
          if to_size_t (len + 1) >? output_size then
            mem' ← set_error_at msg_small mem;
            Some (-1, mem')
          else
            mem1 ← loop (S (object_size mem inp)) mem inp out len 0;
            mem2 ← store_at mem1 (shift out len) NUL;
            Some (0, mem2)
      | _, _ =>
          mem' ← set_error_at msg_null mem;
          Some (-1, mem')
      end.
Hypothesis loop_other_objects : forall (b : nat) fuel mem input output len i mem',
    loop fuel mem input output len i = Some mem' ->
    b <> output.1 ->
    mem' !! b = mem !! b.

(** A call that returns 0 has stored into the object of [output] only. *)
Lemma success_other_objects input output output_size mem mem' (b : nat) :
  call input output output_size mem = Some (0, mem') ->
  (forall out, output = Ptr out -> b <> out.1) ->
  mem' !! b = mem !! b.
Proof.
  rewrite call_eq. intros Hcall Hb.
  destruct input as [|inp], output as [|out];
    try (apply bind_Some in Hcall as (? & _ & [=]); done).
  apply bind_Some in Hcall as (len & _ & Hcall).
  destruct (to_size_t (len + 1) >? output_size).
  { by apply bind_Some in Hcall as (? & _ & [=]). }
  apply bind_Some in Hcall as (mem1 & Hloop & Hcall).
  apply bind_Some in Hcall as (mem2 & Hstore & [= <-]).
  specialize (Hb out eq_refl).
  rewrite (store_at_other_object _ _ _ _ _ Hstore) by done.
  by apply (loop_other_objects _ _ _ _ _ _ _ _ Hloop).
Qed.

End ErrorSlot.

(** The loops run out of fuel at 0 and otherwise make one step. *)
Lemma reverse_string_loop_other_objects (b : nat) fuel mem input output len i
    mem' :
  reverse_string_loop fuel mem input output len i = Some mem' ->
  b <> output.1 ->
  mem' !! b = mem !! b.
Proof.
  by apply (transform_loop_other_objects reverse_string_loop
              (fun len i => to_size_t (len - 1 - i)) (fun c => c)).
Qed.

Lemma uppercase_string_loop_other_objects (b : nat) fuel mem input output
    len i mem' :
  uppercase_string_loop fuel mem input output len i = Some mem' ->
  b <> output.1 ->
  mem' !! b = mem !! b.
Proof.
  by apply (transform_loop_other_objects uppercase_string_loop
              (fun len i => i) upper).
Qed.

(** A call of [reverse_string] or [uppercase_string] that returns status 0
    and whose [output] does not point into [last_error] leaves the error
    slot exactly as it was: success never clears or rewrites the message of
    an earlier failure. *)
Theorem success_keeps_error_slot (input output : ptr addr) (output_size : Z)
    (mem mem' : list (list byte)) :
  reverse_string input output output_size mem = Some (0, mem')
  \/ uppercase_string input output output_size mem = Some (0, mem') ->
  (forall out, output = Ptr out -> out.1 <> error_slot) ->
  mem' !! error_slot = mem !! error_slot
  /\ slot_state mem' = slot_state mem
  /\ (error_recorded_at mem -> error_recorded_at mem').
Proof.
  intros Hcall Hout.
  assert (Hslot : mem' !! error_slot = mem !! error_slot).
  { destruct Hcall as [Hcall|Hcall].
    - apply (success_other_objects reverse_string reverse_string_loop
               (literal "Output buffer too small for reverse_string")
               (literal "Null pointer passed to reverse_string")
               ltac:(done) reverse_string_loop_other_objects
               _ _ _ _ _ _ Hcall).
      intros out Ho E. by apply (Hout out Ho).
    - apply (success_other_objects uppercase_string uppercase_string_loop
               (literal "Output buffer too small for uppercase_string")
               (literal "Null pointer passed to uppercase_string")
               ltac:(done) uppercase_string_loop_other_objects
               _ _ _ _ _ _ Hcall).
      intros out Ho E. by apply (Hout out Ho). }
  assert (Hstate : slot_state mem' = slot_state mem)
    by (unfold slot_state; by rewrite Hslot).
  split; [done|]. split; [done|].
  unfold error_recorded_at. by rewrite Hstate.
Qed.

(** A call that fails for want of room, then the same call with room: the
    message of the first is still there after the second. *)
Lemma success_keeps_error_slot_witness :
  exists mem1 mem2,
    reverse_string (Ptr (1%nat, 0)) (Ptr (2%nat, 0)) 3
      [replicate 256 NUL; literal "hello"; replicate 8 xff]
    = Some (-1, mem1)
    /\ error_recorded_at mem1
    /\ reverse_string (Ptr (1%nat, 0)) (Ptr (2%nat, 0)) 8 mem1
       = Some (0, mem2)
    /\ mem2 !! error_slot = mem1 !! error_slot
    /\ slot_state mem2 = slot_state mem1
    /\ (error_recorded_at mem1 -> error_recorded_at mem2).
Proof.
  eexists. eexists.
  split; [vm_compute; reflexivity|].
  split; [eexists; split; [reflexivity|];
         eexists; split; [vm_compute; reflexivity | lia]|].
  split; [vm_compute; reflexivity|].
  eapply (success_keeps_error_slot (Ptr (1%nat, 0)) (Ptr (2%nat, 0)) 8).
  - left. vm_compute. reflexivity.
  - intros out [= <-]. discriminate.
Defined.

(** With [output] pointing at [last_error] itself the call returns 0 and
    the slot holds the reversed string: the condition on [output] cannot be
    dropped. *)
Lemma reverse_string_into_error_slot :
  exists mem',
    reverse_string (Ptr (1%nat, 0)) (Ptr (error_slot, 0)) 256
      [literal "Null pointer passed to reverse_string" ++ replicate 218 NUL;
       literal "hello"]
    = Some (0, mem')
    /\ mem' !! error_slot
       = Some (literal "olleh"
               ++ list_byte_of_string "ointer passed to reverse_string"
               ++ replicate 219 NUL).
Proof. eexists. split; vm_compute; reflexivity. Qed.

(** ** The calls on objects that are apart *)

Section ApartView.

(** The general loop and the loop on two objects, with the same source
    index and conversion. *)
Variable loop :
  nat -> list (list byte) -> addr -> addr -> Z -> Z -> option (list (list byte)).
Variable loop_apart :
  nat -> list byte -> list byte -> Z -> Z -> option (list byte).
Variable src : Z -> Z -> Z.
Variable conv : byte -> byte.
Hypothesis loop_O : forall mem input output len i,
    loop O mem input output len i = None.
Hypothesis loop_S : forall fuel mem input output len i,
    loop (S fuel) mem input output len i
    = if i <? len then
        c ← load_at mem (shift input (src len i));
        mem1 ← store_at mem (shift output i) (conv c);
        loop fuel mem1 input output len (to_size_t (i + 1))
      else Some mem.
Hypothesis loop_apart_O : forall input output len i,
    loop_apart O input output len i = None.
Hypothesis loop_apart_S : forall fuel input output len i,
    loop_apart (S fuel) input output len i
    = if i <? len then
        c ← load input (src len i);
        output1 ← store output i (conv c);
        loop_apart fuel input output1 len (to_size_t (i + 1))
      else Some output.

Lemma loop_apart_refines (bi bo : nat) (s : list byte) :
  bi <> bo ->
  forall fuel mem b len i,
    mem !! bi = Some s -> mem !! bo = Some b ->
    loop fuel mem (bi, 0) (bo, 0) len i
    = (b' ← loop_apart fuel s b len i; Some (<[bo := b']> mem)).
Proof.
  intros Hne. induction fuel as [|fuel IH]; intros mem b len i Hs Hb.
  - by rewrite loop_O, loop_apart_O.
  - rewrite loop_S, loop_apart_S. destruct (i <? len).
    + unfold load_at, store_at, shift. cbn [fst snd].
      rewrite Hs, Hb, !Z.add_0_l. cbn [mbind option_bind].
      destruct (load s (src len i)) as [c|]; [|done].
      cbn [mbind option_bind].
      destruct (store b i (conv c)) as [b1|]; [|done].
      cbn [mbind option_bind].
      rewrite (IH (<[bo := b1]> mem) b1).
      * destruct (loop_apart fuel s b1 len (to_size_t (i + 1))); [|done].
        cbn [mbind option_bind]. by rewrite list_insert_insert_eq.
      * by rewrite list_lookup_insert_ne.
      * apply list_lookup_insert_eq. by eapply lookup_lt_Some.
    + cbn [mbind option_bind]. by rewrite list_insert_id.
Qed.

Variable call :
  ptr addr -> ptr addr -> Z -> list (list byte) -> option (Z * list (list byte)).
Variable call_apart :
  ptr (list byte) -> ptr (list byte) -> Z -> state
  -> option (Z * ptr (list byte) * state).
Variables msg_small msg_null : list byte.
Hypothesis call_eq : forall input output output_size mem,
    call input output output_size mem
    = match input, output with
      | Ptr inp, Ptr out =>
          len ← strlen_at mem inp;
          if to_size_t (len + 1) >? output_size then
            mem' ← set_error_at msg_small mem;
            Some (-1, mem')
          else
            mem1 ← loop (S (object_size mem inp)) mem inp out len 0;
            mem2 ← store_at mem1 (shift out len) NUL;
            Some (0, mem2)
      | _, _ =>
          mem' ← set_error_at msg_null mem;
          Some (-1, mem')
      end.
Hypothesis call_apart_eq : forall input output output_size st,
    call_apart input output output_size st
    = match input, output with
      | Ptr input_s, Ptr output_b =>
          len ← strlen input_s;
          if to_size_t (len + 1) >? output_size then
            st' ← set_error msg_small st;
            Some (-1, output, st')
          else
            output1 ← loop_apart (S (length input_s)) input_s output_b len 0;
            output2 ← store output1 len NUL;
            Some (0, Ptr output2, st)
      | _, _ =>
          st' ← set_error msg_null st;
          Some (-1, output, st')
      end.

(** On a memory where [input] and [output] are whole objects, distinct,
    and [output] is not the error slot, the general call is the call on the
    two objects, its results written back. *)
Lemma call_apart_refines (pi po : ptr nat) (input output : ptr (list byte))
    (output_size : Z) (mem : list (list byte)) (st : state) :
  slot_state mem = Some st ->
  object_at mem pi input -> object_at mem po output ->
  distinct_objects pi po -> distinct_objects po (Ptr error_slot) ->
  call (start_of pi) (start_of po) output_size mem
  = ('(status, output', st') ← call_apart input output output_size st;
     Some (status,
           <[error_slot := last_error st']> (write_back mem po output'))).
Proof.
  intros Hst Hin Hout Hdist Hslot. rewrite call_eq, call_apart_eq.
  assert (Hst' : mem !! error_slot = Some (last_error st)).
  { unfold slot_state in Hst. destruct (mem !! error_slot); [|done].
    by injection Hst as <-. }
  assert (Hsame : write_back mem po output = mem).
  { destruct po as [|bo], output as [|b]; try done. by apply list_insert_id. }
  assert (Hfail : forall msg,
            (mem' ← set_error_at msg mem; Some (-1, mem'))
            = ('(status, output', st') ← (st' ← set_error msg st;
                                          Some (-1, output, st'));
               Some (status,
                     <[error_slot := last_error st']>
                       (write_back mem po output')))).
  { intros msg. unfold set_error_at. rewrite Hst. cbn [mbind option_bind].
    destruct (set_error msg st) as [st'|]; [|done]. cbn. by rewrite Hsame. }
  destruct pi as [|bi], input as [|s]; try done;
    destruct po as [|bo], output as [|b]; try done;
    cbn [start_of]; try apply Hfail.
  cbn in Hin, Hout, Hdist, Hslot.
  unfold strlen_at, object_size. cbn [fst snd]. rewrite Hin.
  cbn [mbind option_bind default]. change (0 <? 0) with false. cbv iota.
  change (Z.to_nat 0) with 0%nat. rewrite drop_0. change (id s) with s.
  destruct (strlen s) as [len|]; [|done]. cbn [mbind option_bind].
  destruct (to_size_t (len + 1) >? output_size); [apply Hfail|].
  rewrite (loop_apart_refines bi bo s Hdist _ mem b _ _ Hin Hout).
  destruct (loop_apart (S (length s)) s b len 0) as [b1|]; [|done].
  cbn [mbind option_bind]. unfold store_at, shift. cbn [fst snd].
  rewrite list_lookup_insert_eq by (by eapply lookup_lt_Some).
  rewrite Z.add_0_l. cbn [mbind option_bind].
  destruct (store b1 len NUL) as [b2|]; [|done]. cbn.
  rewrite list_insert_insert_eq. do 2 f_equal. symmetry.
  apply list_insert_id. by rewrite list_lookup_insert_ne.
Qed.

End ApartView.

(** [reverse_string_apart] is [reverse_string] on whole objects that are
    apart. *)
Lemma reverse_string_apart_refines (pi po : ptr nat)
    (input output : ptr (list byte)) (output_size : Z)
    (mem : list (list byte)) (st : state) :
  slot_state mem = Some st ->
  object_at mem pi input -> object_at mem po output ->
  distinct_objects pi po -> distinct_objects po (Ptr error_slot) ->
  reverse_string (start_of pi) (start_of po) output_size mem
  = ('(status, output', st') ←
       reverse_string_apart input output output_size st;
     Some (status,
           <[error_slot := last_error st']> (write_back mem po output'))).
Proof.
  by apply (call_apart_refines reverse_string_loop reverse_string_apart_loop
              (fun len i => to_size_t (len - 1 - i)) (fun c => c)
              ltac:(done) ltac:(done) ltac:(done) ltac:(done)
              reverse_string reverse_string_apart
              (literal "Output buffer too small for reverse_string")
              (literal "Null pointer passed to reverse_string")).
Qed.

(** [uppercase_string_apart] is [uppercase_string] on whole objects that
    are apart. *)
Lemma uppercase_string_apart_refines (pi po : ptr nat)
    (input output : ptr (list byte)) (output_size : Z)
    (mem : list (list byte)) (st : state) :
  slot_state mem = Some st ->
  object_at mem pi input -> object_at mem po output ->
  distinct_objects pi po -> distinct_objects po (Ptr error_slot) ->
  uppercase_string (start_of pi) (start_of po) output_size mem
  = ('(status, output', st') ←
       uppercase_string_apart input output output_size st;
     Some (status,
           <[error_slot := last_error st']> (write_back mem po output'))).
Proof.
  by apply (call_apart_refines uppercase_string_loop
              uppercase_string_apart_loop
              (fun len i => i) (fun c => to_char (toupper (uchar c)))
              ltac:(done) ltac:(done) ltac:(done) ltac:(done)
              uppercase_string uppercase_string_apart
              (literal "Output buffer too small for uppercase_string")
              (literal "Null pointer passed to uppercase_string")).
Qed.

Lemma find_max_loop_apart_refines (ba bm : nat) (a : list Z) :
  ba <> bm ->
  forall fuel mem current len i,
    mem !! ba = Some a -> mem !! bm = Some [current] ->
    find_max_loop fuel mem (ba, 0) (bm, 0) len i
    = (m ← find_max_apart_loop fuel a len i current;
       Some (<[bm := [m]]> mem)).
Proof.
  intros Hne. induction fuel as [|fuel IH]; intros mem current len i Ha Hm;
    [done|].
  cbn [find_max_loop find_max_apart_loop]. destruct (i <? len).
  - unfold load_at, shift. cbn [fst snd]. rewrite Ha, Hm, Z.add_0_l.
    cbn [mbind option_bind].
    destruct (load a i) as [x|]; [|done]. cbn [mbind option_bind].
    change (load [current] 0) with (Some current). cbn [mbind option_bind].
    destruct (x >? current).
    + unfold store_at. cbn [fst snd]. rewrite Hm. cbn [mbind option_bind].
      change (store [current] 0 x) with (Some [x]). cbn [mbind option_bind].
      rewrite (IH (<[bm := [x]]> mem) x).
      * destruct (find_max_apart_loop fuel a len (to_size_t (i + 1)) x);
          [|done].
        cbn [mbind option_bind]. by rewrite list_insert_insert_eq.
      * by rewrite list_lookup_insert_ne.
      * apply list_lookup_insert_eq. by eapply lookup_lt_Some.
    + by apply IH.
  - cbn [mbind option_bind]. by rewrite list_insert_id.
Qed.

(** [find_max_apart] is [find_max] on an array that is a whole object and
    a location that is an object of its own. *)
Lemma find_max_apart_refines (pa pm : ptr nat) (array : ptr (list Z))
    (max_value : ptr Z) (len : Z) (mem : list (list Z)) (st : state) :
  object_at mem pa array -> object_at mem pm (cell_of max_value) ->
  distinct_objects pa pm ->
  find_max (start_of pa) len (start_of pm) mem st
  = ('(status, max_value', st') ← find_max_apart array len max_value st;
     Some (status, write_back mem pm (cell_of max_value'), st')).
Proof.
  intros Ha Hm Hdist.
  assert (Hsame : write_back mem pm (cell_of max_value) = mem).
  { destruct pm as [|bm], max_value as [|v]; try done.
    by apply list_insert_id. }
  assert (Hfail : forall msg,
            (st' ← set_error msg st; Some (-1, mem, st'))
            = ('(status, max_value', st') ← (st' ← set_error msg st;
                                             Some (-1, max_value, st'));
               Some (status, write_back mem pm (cell_of max_value'), st'))).
  { intros msg. destruct (set_error msg st) as [st'|]; [|done]. cbn.
    by rewrite Hsame. }
  destruct pa as [|ba], array as [|a]; try done;
    destruct pm as [|bm], max_value as [|v]; try done;
    cbn [start_of find_max find_max_apart]; try apply Hfail.
  cbn in Ha, Hm, Hdist.
  destruct (len =? 0); [apply Hfail|].
  unfold load_at, store_at, object_size, shift. cbn [fst snd].
  rewrite Ha, Hm, Z.add_0_l. cbn [mbind option_bind default].
  change (id a) with a.
  destruct (load a 0) as [a0|]; [|done]. cbn [mbind option_bind].
  change (store [v] 0 a0) with (Some [a0]). cbn [mbind option_bind].
  rewrite (find_max_loop_apart_refines ba bm a Hdist _ _ a0).
  - destruct (find_max_apart_loop (S (length a)) a len 1 a0) as [m|];
      [|done].
    cbn. by rewrite list_insert_insert_eq.
  - by rewrite list_lookup_insert_ne.
  - apply list_lookup_insert_eq. by eapply lookup_lt_Some.
Qed.
